(** * tarredfs: the archive entry (src/tarentry.cc)

    A shallow embedding of [TarEntry] and of the catalog codec
    ([cookEntry] / [eatEntry]) together with the properties that the
    design document states about them.

    Conventions.
    - [size_t] values are [Z]; the 64-bit wrap-around of every [size_t]
      operation of the source is written out with [wrap].
    - C [char] buffers, [std::string] and [std::vector<char>] are
      [list ascii].
    - An [assert] that fails aborts the process: functions that contain
      assertions return [option], [None] being the abort.
    - Code that tarentry.cc calls but that lives in files that are not part of
      the sources at hand (tar.cc, util.cc, filesystem.cc, libc, OpenSSL) is
      either passed in through an interface record or modelled, and marked
      as such. *)

From Stdlib Require Import ZArith List Lia Bool Ascii String Permutation.
Import ListNotations.
Local Open Scope Z_scope.

(* ================================================================== *)
(** * Part I. Definitions                                              *)
(* ================================================================== *)

(** ** Machine integers and text *)

Definition chars := list ascii.

Definition lit (s : string) : chars := list_ascii_of_string s.

Definition zlen {A} (l : list A) : Z := Z.of_nat (List.length l).

(** [size_t] on the 64-bit hosts the program is built for. *)
Definition SIZE_MOD : Z := 2 ^ 64.
Definition wrap (z : Z) : Z := z mod SIZE_MOD.

(** Modelled from the spec: the block size B of tar.h ("block size B
    (fixed, e.g. 512 bytes)"); tar.h is not among the sources. *)
Definition T_BLOCKSIZE : Z := 512.

(** [(size%T_BLOCKSIZE==0)?size:(size+T_BLOCKSIZE-(size%T_BLOCKSIZE))] *)
Definition round_up_block (size : Z) : Z :=
  if size mod T_BLOCKSIZE =? 0 then size
  else wrap (wrap (size + T_BLOCKSIZE) - size mod T_BLOCKSIZE).

(** ** Paths *)

(** Modelled from the spec: [Path] (filesystem.h is not among the sources).
    A path is the list of its components; an absolute path starts with the
    empty component of the root, so that "/a/b" is [""; "a"; "b"] and has
    depth 3, and "c/d" is ["c"; "d"].  [subpath] drops leading components
    ("strip the shared prefix"), [commonPrefix] is the "longest common path
    prefix", absent ([None], the NULL of the source) when the two paths
    share no leading component. *)
Definition Atom := chars.
Definition Path := list Atom.

(** Modelled from the spec: [Path::lookupRoot()], the filesystem root. *)
Definition lookupRoot : Path := [ [] ].

(** Modelled from the spec: [Path::depth()], the number of components. *)
Definition depth (p : Path) : Z := zlen p.

(** Modelled from the spec: [Path::subpath(from)], the path without its
    first [from] components. *)
Definition subpath (p : Path) (from : Z) : Path := skipn (Z.to_nat from) p.

Definition chars_eqb (a b : chars) : bool :=
  if list_eq_dec ascii_dec a b then true else false.

Definition Path_eqb (a b : Path) : bool :=
  if list_eq_dec (list_eq_dec ascii_dec) a b then true else false.

Fixpoint common_nodes (a b : Path) : Path :=
  match a, b with
  | x :: a', y :: b' => if chars_eqb x y then x :: common_nodes a' b' else []
  | _, _ => []
  end.

(** Modelled from the spec: [Path::commonPrefix(a, b)], the longest common
    path prefix, or NULL. *)
Definition commonPrefix (a b : Path) : option Path :=
  match common_nodes a b with
  | [] => None
  | c => Some c
  end.

(** Modelled from the spec: [Path::str()] / [Path::c_str()], the
    components joined with '/'. *)
Fixpoint Path_str (p : Path) : chars :=
  match p with
  | [] => []
  | [x] => x
  | x :: p' => x ++ "/"%char :: Path_str p'
  end.

Definition c_str_len (p : Path) : Z := zlen (Path_str p).

Fixpoint split_slash (cur : chars) (s : chars) : Path :=
  match s with
  | [] => [rev cur]
  | c :: s' =>
      if Ascii.eqb c "/"%char then rev cur :: split_slash [] s'
      else split_slash (c :: cur) s'
  end.

(** Modelled from the spec: [Path::lookup(string)], the inverse of
    [Path_str]. *)
Definition Path_lookup (s : chars) : Path := split_slash [] s.

(** ** Stat records *)

Record timespec := mk_timespec { tv_sec : Z; tv_nsec : Z }.

Record FileStat := mk_FileStat {
  st_mode : Z;
  st_uid : Z;
  st_gid : Z;
  st_rdev : Z;
  st_size : Z;
  st_mtim : timespec;
  st_atim : timespec;
  st_ctim : timespec
}.

(** The file type bits of [st_mode] (POSIX, <sys/stat.h>). *)
Definition S_IFMT : Z := 0xF000.
Definition S_IFREG : Z := 0x8000.
Definition S_IFLNK : Z := 0xA000.
Definition S_IFCHR : Z := 0x2000.
Definition S_IFBLK : Z := 0x6000.
Definition S_IFDIR : Z := 0x4000.

Definition file_type (fs : FileStat) : Z := Z.land (st_mode fs) S_IFMT.

Definition fs_isRegularFile (fs : FileStat) : bool := file_type fs =? S_IFREG.
Definition fs_isSymbolicLink (fs : FileStat) : bool := file_type fs =? S_IFLNK.
Definition fs_isCharacterDevice (fs : FileStat) : bool := file_type fs =? S_IFCHR.
Definition fs_isBlockDevice (fs : FileStat) : bool := file_type fs =? S_IFBLK.
Definition fs_isDirectory (fs : FileStat) : bool := file_type fs =? S_IFDIR.

Definition set_st_mode (fs : FileStat) (v : Z) : FileStat :=
  mk_FileStat v (st_uid fs) (st_gid fs) (st_rdev fs) (st_size fs)
              (st_mtim fs) (st_atim fs) (st_ctim fs).
Definition set_st_uid (fs : FileStat) (v : Z) : FileStat :=
  mk_FileStat (st_mode fs) v (st_gid fs) (st_rdev fs) (st_size fs)
              (st_mtim fs) (st_atim fs) (st_ctim fs).
Definition set_st_gid (fs : FileStat) (v : Z) : FileStat :=
  mk_FileStat (st_mode fs) (st_uid fs) v (st_rdev fs) (st_size fs)
              (st_mtim fs) (st_atim fs) (st_ctim fs).
Definition set_st_rdev (fs : FileStat) (v : Z) : FileStat :=
  mk_FileStat (st_mode fs) (st_uid fs) (st_gid fs) v (st_size fs)
              (st_mtim fs) (st_atim fs) (st_ctim fs).
Definition set_st_size (fs : FileStat) (v : Z) : FileStat :=
  mk_FileStat (st_mode fs) (st_uid fs) (st_gid fs) (st_rdev fs) v
              (st_mtim fs) (st_atim fs) (st_ctim fs).
Definition set_st_mtim (fs : FileStat) (v : timespec) : FileStat :=
  mk_FileStat (st_mode fs) (st_uid fs) (st_gid fs) (st_rdev fs) (st_size fs)
              v (st_atim fs) (st_ctim fs).
Definition set_st_atim (fs : FileStat) (v : timespec) : FileStat :=
  mk_FileStat (st_mode fs) (st_uid fs) (st_gid fs) (st_rdev fs) (st_size fs)
              (st_mtim fs) v (st_ctim fs).
Definition set_st_ctim (fs : FileStat) (v : timespec) : FileStat :=
  mk_FileStat (st_mode fs) (st_uid fs) (st_gid fs) (st_rdev fs) (st_size fs)
              (st_mtim fs) (st_atim fs) v.

(** ** The tar header interface *)

(** [enum TarHeaderStyle] (tar.h); tarentry.cc tests for [None] and [Full]. *)
Inductive TarHeaderStyle := THS_None | THS_Simple | THS_Full.

Definition is_style_None (s : TarHeaderStyle) : bool :=
  match s with THS_None => true | _ => false end.
Definition is_style_Full (s : TarHeaderStyle) : bool :=
  match s with THS_Full => true | _ => false end.

(** A constructed [TarHeader]: what tarentry.cc reads from it. *)
Record TarHeader := mk_TarHeader {
  th_buf : chars;
  numLongLinkBlocks : Z;
  numLongPathBlocks : Z
}.

(** tar.cc is not among the sources: the operations of [TarHeader] that
    tarentry.cc calls are taken as an interface.
    - [calculateSize fs tarpath link is_hard_linked] is
      [TarHeader::calculateSize];
    - [newTarHeader fs tarpath link is_hard_linked full] is the constructor
      used in [copy];
    - [longLinkHeader th n] is the block [llh.buf()] after
      [llh.setLongLinkType(&th); llh.setSize(n); llh.calculateChecksum()];
    - [longPathHeader th n] likewise for [setLongPathType]. *)
Record TarHeaderApi := mk_TarHeaderApi {
  calculateSize : FileStat -> Path -> option Path -> bool -> Z;
  newTarHeader : FileStat -> Path -> option Path -> bool -> bool -> TarHeader;
  longLinkHeader : TarHeader -> Z -> chars;
  longPathHeader : TarHeader -> Z -> chars
}.

(** ** Entries *)

Record TarEntry := mk_TarEntry {
  abspath_ : Path;
  path_ : Path;
  tarpath_ : Path;
  fs_ : FileStat;
  link_ : option Path;
  is_hard_linked_ : bool;
  tar_header_style_ : TarHeaderStyle;
  header_size_ : Z;
  blocked_size_ : Z;
  children_size_ : Z;
  virtual_file_ : bool;
  content : chars;
  tv_line_left : chars;
  tv_line_size : chars;
  tv_line_right : chars;
  tar_file_name : chars;          (* tar_file_->name() *)
  tar_offset_ : Z;
  sha256_hash_ : chars
}.

Definition isRegularFile (e : TarEntry) : bool := fs_isRegularFile (fs_ e).
Definition isSymbolicLink (e : TarEntry) : bool := fs_isSymbolicLink (fs_ e).
Definition isCharacterDevice (e : TarEntry) : bool := fs_isCharacterDevice (fs_ e).
Definition isBlockDevice (e : TarEntry) : bool := fs_isBlockDevice (fs_ e).
Definition isHardLink (e : TarEntry) : bool := is_hard_linked_ e.

Definition set_link (e : TarEntry) (l : option Path) : TarEntry :=
  mk_TarEntry (abspath_ e) (path_ e) (tarpath_ e) (fs_ e) l
    (is_hard_linked_ e) (tar_header_style_ e) (header_size_ e)
    (blocked_size_ e) (children_size_ e) (virtual_file_ e) (content e)
    (tv_line_left e) (tv_line_size e) (tv_line_right e) (tar_file_name e)
    (tar_offset_ e) (sha256_hash_ e).

Definition set_is_hard_linked (e : TarEntry) (b : bool) : TarEntry :=
  mk_TarEntry (abspath_ e) (path_ e) (tarpath_ e) (fs_ e) (link_ e)
    b (tar_header_style_ e) (header_size_ e)
    (blocked_size_ e) (children_size_ e) (virtual_file_ e) (content e)
    (tv_line_left e) (tv_line_size e) (tv_line_right e) (tar_file_name e)
    (tar_offset_ e) (sha256_hash_ e).

Definition set_sizes (e : TarEntry) (header blocked children : Z) : TarEntry :=
  mk_TarEntry (abspath_ e) (path_ e) (tarpath_ e) (fs_ e) (link_ e)
    (is_hard_linked_ e) (tar_header_style_ e) header
    blocked children (virtual_file_ e) (content e)
    (tv_line_left e) (tv_line_size e) (tv_line_right e) (tar_file_name e)
    (tar_offset_ e) (sha256_hash_ e).

Definition set_tv_lines (e : TarEntry) (l s r : chars) : TarEntry :=
  mk_TarEntry (abspath_ e) (path_ e) (tarpath_ e) (fs_ e) (link_ e)
    (is_hard_linked_ e) (tar_header_style_ e) (header_size_ e)
    (blocked_size_ e) (children_size_ e) (virtual_file_ e) (content e)
    l s r (tar_file_name e)
    (tar_offset_ e) (sha256_hash_ e).

Definition set_sha256_hash (e : TarEntry) (h : chars) : TarEntry :=
  mk_TarEntry (abspath_ e) (path_ e) (tarpath_ e) (fs_ e) (link_ e)
    (is_hard_linked_ e) (tar_header_style_ e) (header_size_ e)
    (blocked_size_ e) (children_size_ e) (virtual_file_ e) (content e)
    (tv_line_left e) (tv_line_size e) (tv_line_right e) (tar_file_name e)
    (tar_offset_ e) h.

(** [assert(c)]: abort unless [c]. *)
Definition assert (c : bool) : option unit := if c then Some tt else None.

Notation "x <- c1 ;; c2" :=
  (match c1 with Some x => c2 | None => None end)
  (at level 61, c1 at next level, right associativity).
Notation "' pat <- c1 ;; c2" :=
  (match c1 with Some pat => c2 | None => None end)
  (at level 61, pat pattern, c1 at next level, right associativity).

(** ** Layout: [TarEntry::updateSizes] *)

Definition updateSizes (T : TarHeaderApi) (e : TarEntry) : option TarEntry :=
  let header_size :=
    wrap (calculateSize T (fs_ e) (tarpath_ e) (link_ e) (is_hard_linked_ e)) in
  let size := header_size in
  let '(size, header_size) :=
    if is_style_None (tar_header_style_ e) then (0, 0) else (size, header_size) in
  let size :=
    if isRegularFile e && negb (is_hard_linked_ e)
    then wrap (size + st_size (fs_ e)) else size in
  let blocked_size := round_up_block size in
  _ <- assert (negb (is_hard_linked_ e) || (size =? T_BLOCKSIZE)) ;;
  _ <- assert ((header_size <=? size) && (size <=? blocked_size)) ;;
  Some (set_sizes e header_size blocked_size blocked_size).

(** ** Hard links *)

(** [TarEntry::rewriteIntoHardLink]; [assert(isHardLink())] after the
    update. *)
Definition rewriteIntoHardLink (T : TarHeaderApi) (e target : TarEntry)
  : option TarEntry :=
  let e1 := set_is_hard_linked (set_link e (Some (tarpath_ target))) true in
  e2 <- updateSizes T e1 ;;
  _ <- assert (isHardLink e2) ;;
  Some e2.

(** [TarEntry::fixHardLink].  The result is the returned flag and the
    entry after the call.  The source dereferences [link_] (for its debug
    line, for [commonPrefix] and to cut it): on an entry without link the
    process crashes on the NULL pointer, which the model renders as [None]. *)
Definition fixHardLink (T : TarHeaderApi) (e : TarEntry) (storage_dir : Path)
  : option (bool * TarEntry) :=
  if Path_eqb storage_dir lookupRoot then Some (true, e)
  else
    match link_ e with
    | None => None
    | Some link =>
        let common := commonPrefix storage_dir link in
        if match common with
           | None => true
           | Some c => depth c <? depth storage_dir
           end
        then Some (false, e)
        else
          let l := subpath link (depth storage_dir) in
          e' <- updateSizes T (set_link e (Some l)) ;;
          Some (true, e')
    end.

(** ** Decimal text (libc / iostream formatting) *)

Definition digit_char (d : Z) : ascii := ascii_of_N (Z.to_N (48 + d)).

Fixpoint dec_digits (fuel : nat) (n : Z) (acc : chars) : chars :=
  match fuel with
  | O => acc
  | S f =>
      let acc' := digit_char (n mod 10) :: acc in
      if n / 10 =? 0 then acc' else dec_digits f (n / 10) acc'
  end.

(** The decimal digits of a non-negative number ([ss << n] for an unsigned
    [n], "%ju"). *)
Definition print_unsigned (n : Z) : chars :=
  dec_digits (S (Z.to_nat (Z.log2 n))) n [].

(** [ss << n] for a signed [n]. *)
Definition print_signed (n : Z) : chars :=
  if n <? 0 then "-"%char :: print_unsigned (- n) else print_unsigned n.

(** "%0<width>ju": the value taken as [uintmax_t], zero padded on the
    left. *)
Definition print_ju_padded (width : nat) (n : Z) : chars :=
  let d := print_unsigned (wrap n) in
  repeat "0"%char (width - List.length d) ++ d.

(** [snprintf(buf, 32, "%012ju.%09ju", sec, nsec)]: at most 31 characters
    are stored. *)
Definition secs_and_nanos_string (t : timespec) : chars :=
  firstn 31 (print_ju_padded 12 (tv_sec t) ++ "."%char :: print_ju_padded 9 (tv_nsec t)).

(** ** The catalog interface *)

(** util.cc and the C library are not among the sources: what the catalog
    code calls there is taken as an interface.
    - [separator] is the reserved separator byte ([separator_string] is the
      one-character string of it);
    - [permissionString] / [stringToPermission] render and read the mode
      bits;
    - [localtime_fails t] tells that [localtime(&t)] returns NULL (the
      year of [t] does not fit an [int]);
    - [strftime_local t] is the text that
      [strftime(.., 20, "%Y-%m-%d %H:%M.%S", localtime(&t))] leaves when
      [localtime] does not fail;
    - [dev_major], [dev_minor] and [MakeDev] are the device number macros;
    - [toHex] renders the digest. *)
Record CatalogApi := mk_CatalogApi {
  separator : ascii;
  permissionString : Z -> chars;
  stringToPermission : chars -> Z;
  localtime_fails : Z -> bool;
  strftime_local : Z -> chars;
  dev_major : Z -> Z;
  dev_minor : Z -> Z;
  MakeDev : Z -> Z -> Z;
  toHex : chars -> chars
}.

Definition separator_string (C : CatalogApi) : chars := [separator C].

(** ** The constructor [TarEntry::TarEntry(Path*, Path*, const struct stat*, TarHeaderStyle)] *)

Definition PATH_MAX : Z := 4096.

(** The three catalog fragments that the constructor prepares. *)
Definition make_tv_line_left (C : CatalogApi) (fs : FileStat) : chars :=
  permissionString C (st_mode fs) ++ separator_string C
    ++ print_unsigned (st_uid fs) ++ lit "/" ++ print_unsigned (st_gid fs).

Definition make_tv_line_size (C : CatalogApi) (fs : FileStat) : chars :=
  if fs_isSymbolicLink fs then print_signed 0
  else if fs_isCharacterDevice fs || fs_isBlockDevice fs
       then print_unsigned (dev_major C (st_rdev fs)) ++ lit ","
              ++ print_unsigned (dev_minor C (st_rdev fs))
       else print_signed (st_size fs).

Definition make_tv_line_right (C : CatalogApi) (fs : FileStat) : chars :=
  strftime_local C (tv_sec (st_mtim fs)) ++ separator_string C
    ++ secs_and_nanos_string (st_mtim fs) ++ separator_string C
    ++ secs_and_nanos_string (st_atim fs) ++ separator_string C
    ++ secs_and_nanos_string (st_ctim fs).

(** [readlink] is the operating system's answer for [abspath_]: [None] when
    it fails ([l < 0]), else the destination text.  On failure the source
    calls [error] and leaves the constructor before any size is computed;
    the model has no entry then.  When [localtime] fails for the
    modification time, [strftime] is handed its NULL and the process
    crashes: no entry either. *)
Definition TarEntry_new (T : TarHeaderApi) (C : CatalogApi)
    (ap p : Path) (b : FileStat) (ths : TarHeaderStyle)
    (readlink : option chars) : option TarEntry :=
  let e0 := mk_TarEntry ap p p b None false ths 0 0 0 false [] [] [] [] [] 0 [] in
  e1 <- (if isSymbolicLink e0 then
           match readlink with
           | None => None
           | Some destination =>
               let l := zlen destination in
               let l := if PATH_MAX <=? l then PATH_MAX - 1 else l in
               Some (set_link e0 (Some (Path_lookup (firstn (Z.to_nat l) destination))))
           end
         else Some e0) ;;
  e2 <- updateSizes T e1 ;;
  if negb (is_style_None ths) then
    if localtime_fails C (tv_sec (st_mtim b)) then None
    else
      Some (set_tv_lines e2 (make_tv_line_left C b) (make_tv_line_size C b)
                         (make_tv_line_right C b))
  else Some e2.

(** [fs_.st_size = size]: a [size_t] stored into the signed 64-bit
    [off_t]. *)
Definition to_off_t (v : Z) : Z := (v + 2 ^ 63) mod 2 ^ 64 - 2 ^ 63.

(** The constructor [TarEntry::TarEntry(size_t size, TarHeaderStyle ths)]:
    an entry for the root, without header, [size] bytes rounded up to the
    block. *)
Definition TarEntry_of_size (size : Z) (ths : TarHeaderStyle) : TarEntry :=
  let fs := mk_FileStat 0 0 0 0 (to_off_t size) (mk_timespec 0 0) (mk_timespec 0 0)
                        (mk_timespec 0 0) in
  let blocked_size := round_up_block size in
  mk_TarEntry lookupRoot lookupRoot lookupRoot fs None false ths
    0 blocked_size blocked_size false [] [] [] [] [] 0 [].

(** ** Byte-range serving: [TarEntry::copy] *)

(** The file behind [abspath_] at the time of the call: [open] fails when
    the path has no file; [pread] fails ([-1]) on a file that cannot be
    read, and otherwise delivers the bytes that exist in the requested
    range. *)
Record File := mk_File { f_data : chars; f_ioerr : bool }.
Definition FileSystem := Path -> option File.

Definition pread (f : File) (size off : Z) : option chars :=
  if f_ioerr f then None
  else Some (firstn (Z.to_nat size) (skipn (Z.to_nat off) (f_data f))).

Definition zeros (n : Z) : chars := repeat zero (Z.to_nat n).

(** [memcpy(dst+pos, src, |src|)] into a buffer of known extent; writing
    past the end of the buffer is undefined behaviour ([None]). *)
Definition blit (dst : chars) (pos : Z) (src : chars) : option chars :=
  if pos + zlen src <=? zlen dst
  then Some (firstn (Z.to_nat pos) dst ++ src
               ++ skipn (Z.to_nat (pos + zlen src)) dst)
  else None.

(** The scratch buffer [tmp] of [copy]: long link extension, long path
    extension, core header. *)
Definition header_image (T : TarHeaderApi) (e : TarEntry) : option chars :=
  let tmp := zeros (header_size_ e) in
  let p := 0 in
  let th := newTarHeader T (fs_ e) (tarpath_ e) (link_ e) (is_hard_linked_ e)
              (is_style_Full (tar_header_style_ e)) in
  '(tmp, p) <-
    (if 0 <? numLongLinkBlocks th then
       match link_ e with
       | None => None
       | Some link =>
           let llh := longLinkHeader T th (c_str_len link) in
           tmp <- blit tmp p (firstn (Z.to_nat T_BLOCKSIZE) llh) ;;
           tmp <- blit tmp (p + T_BLOCKSIZE) (Path_str link) ;;
           Some (tmp, p + numLongLinkBlocks th * T_BLOCKSIZE)
       end
     else Some (tmp, p)) ;;
  '(tmp, p) <-
    (if 0 <? numLongPathBlocks th then
       let lph := longPathHeader T th (c_str_len (tarpath_ e) + 1) in
       tmp <- blit tmp p (firstn (Z.to_nat T_BLOCKSIZE) lph) ;;
       tmp <- blit tmp (p + T_BLOCKSIZE) (Path_str (tarpath_ e)) ;;
       Some (tmp, p + numLongPathBlocks th * T_BLOCKSIZE)
     else Some (tmp, p)) ;;
  blit tmp p (firstn (Z.to_nat T_BLOCKSIZE) (th_buf th)).

(** What a call of [copy] does: it returns a count, has stored [written]
    at the start of [buf], and may have logged a [failure]; or its
    assertion has failed; or it has no defined behaviour (an access
    outside a buffer). *)
Inductive CopyOutcome :=
| Returned (copied : Z) (written : chars) (failure_logged : bool)
| Aborted
| Undefined.

(** The state that [copy] carries from one of its three parts to the
    next: what is left of [size], what has been stored in [buf] so far,
    [copied] and [from]. *)
Definition CopyState : Type := Z * chars * Z * Z.

(** First part: [if (size > 0 && from < header_size_) { ... }]. *)
Definition copy_header (T : TarHeaderApi) (e : TarEntry) (st : CopyState)
  : CopyState + CopyOutcome :=
  let '(size, buf, copied, from) := st in
  if (0 <? size) && (from <? header_size_ e) then
    match header_image T e with
    | None => inr Undefined
    | Some tmp =>
        (* Copy the header out *)
        let len := wrap (header_size_ e - from) in
        let len := if size <? len then size else len in
        if wrap (from + len) <=? header_size_ e then
          inl (wrap (size - len),
               buf ++ firstn (Z.to_nat len) (skipn (Z.to_nat from) tmp),
               wrap (copied + len),
               wrap (from + len))
        else inr Aborted
    end
  else inl st.

(** Second part: [if (size > 0 && copied < blocked_size_ && from >=
    header_size_ && from < blocked_size_) { ... }]; [from] is not advanced
    here. *)
Definition copy_content (disk : FileSystem) (e : TarEntry) (st : CopyState)
  : CopyState + CopyOutcome :=
  let '(size, buf, copied, from) := st in
  if (0 <? size) && (copied <? blocked_size_ e)
     && (header_size_ e <=? from) && (from <? blocked_size_ e) then
    if virtual_file_ e then
      let off := wrap (from - header_size_ e) in
      let len := wrap (zlen (content e) - off) in
      let len := if size <? len then size else len in
      if off + len <=? zlen (content e) then
        inl (wrap (size - len),
             buf ++ firstn (Z.to_nat len) (skipn (Z.to_nat off) (content e)),
             wrap (copied + len),
             from)
      else inr Undefined
    else
      (* Read from file *)
      match disk (abspath_ e) with
      | None => inr (Returned 0 buf true)
      | Some fd =>
          match pread fd size (wrap (from - header_size_ e)) with
          | None => inr (Returned 0 buf true)
          | Some data =>
              let l := zlen data in
              inl (wrap (size - l), buf ++ data, wrap (copied + l), from)
          end
      end
  else inl st.

(** Third part: "Round up to next 512 byte boundary." *)
Definition copy_padding (st : CopyState) : CopyOutcome :=
  let '(size, buf, copied, from) := st in
  let remainder :=
    if copied mod T_BLOCKSIZE =? 0 then 0
    else T_BLOCKSIZE - copied mod T_BLOCKSIZE in
  let remainder := if size <? remainder then size else remainder in
  Returned (wrap (copied + remainder)) (buf ++ zeros remainder) false.

(** [size_t TarEntry::copy(char *buf, size_t size, size_t from)]. *)
Definition copy (T : TarHeaderApi) (disk : FileSystem) (e : TarEntry)
    (size from : Z) : CopyOutcome :=
  match copy_header T e (size, [], 0, from) with
  | inr out => out
  | inl st =>
      match copy_content disk e st with
      | inr out => out
      | inl st => copy_padding st
      end
  end.

(** The byte stream of an entry as the design describes it: header,
    content, zero padding up to [blocked_size_]. *)
Definition entry_stream (hdr data : chars) (blocked_size : Z) : chars :=
  hdr ++ data ++ zeros (blocked_size - zlen hdr - zlen data).

(** ** The fingerprint: [TarEntry::calculateSHA256Hash] *)

Inductive Endian := LittleEndian | BigEndian.

(** The low [n] bytes of [v], least significant first (two's complement
    for a negative [v]). *)
Fixpoint le_bytes_n (n : nat) (v : Z) : chars :=
  match n with
  | O => []
  | S n' => ascii_of_N (Z.to_N (v mod 256)) :: le_bytes_n n' (v / 256)
  end.

Definition le_bytes (v : Z) : chars := le_bytes_n 8 v.
Definition be_bytes (v : Z) : chars := rev (le_bytes v).

Fixpoint of_le_bytes (l : chars) : Z :=
  match l with
  | [] => 0
  | b :: l' => Z.of_N (N_of_ascii b) + 256 * of_le_bytes l'
  end.

(** The eight bytes that an 8-byte integer object ([off_t], [time_t],
    [long]) occupies in the memory of the host. *)
Definition object_bytes (h : Endian) (v : Z) : chars :=
  match h with LittleEndian => le_bytes v | BigEndian => be_bytes v end.

Definition bswap64 (v : Z) : Z := of_le_bytes (rev (le_bytes v)).

(** Modelled from the spec: [fixEndian] (util.cc is not among the
    sources), which puts a value into the "fixed-width,
    architecture-independent (big-endian) binary encoding": the bytes are
    swapped on a little-endian host and left alone on a big-endian one. *)
Definition fixEndian (h : Endian) (v : Z) : Z :=
  match h with LittleEndian => bswap64 v | BigEndian => v end.

(** OpenSSL's context, as the message absorbed so far; [sha256] is the
    digest function ([SHA256_Final] of the absorbed message). *)
Definition SHA256_CTX := chars.
Definition SHA256_Init : SHA256_CTX := [].
Definition SHA256_Update (ctx : SHA256_CTX) (data : chars) (len : Z) : SHA256_CTX :=
  ctx ++ firstn (Z.to_nat len) data.

Definition SHA256_DIGEST_LENGTH : Z := 32.

(** [sha256_hash_.resize(SHA256_DIGEST_LENGTH); SHA256_Final(&sha256_hash_[0], &ctx)]:
    the vector holds the 32 bytes of the digest. *)
Definition SHA256_Final (sha256 : chars -> chars) (ctx : SHA256_CTX) : chars :=
  firstn (Z.to_nat SHA256_DIGEST_LENGTH)
         (sha256 ctx ++ zeros SHA256_DIGEST_LENGTH).

Definition calculateSHA256Hash (sha256 : chars -> chars) (h : Endian)
    (e : TarEntry) : TarEntry :=
  let ctx := SHA256_Init in
  (* Hash the file name and its path within the tar. *)
  let ctx := SHA256_Update ctx (Path_str (tarpath_ e)) (c_str_len (tarpath_ e)) in
  (* Hash the file size. *)
  let filesize := fixEndian h (st_size (fs_ e)) in
  let ctx := SHA256_Update ctx (object_bytes h filesize) 8 in
  (* Hash the last modification time in seconds and nanoseconds. *)
  let secs := fixEndian h (tv_sec (st_mtim (fs_ e))) in
  let nanos := fixEndian h (tv_nsec (st_mtim (fs_ e))) in
  let ctx := SHA256_Update ctx (object_bytes h secs) 8 in
  let ctx := SHA256_Update ctx (object_bytes h nanos) 8 in
  set_sha256_hash e (SHA256_Final sha256 ctx).

(** The fingerprint as the design words it: the digest of the path bytes
    followed by the size, the seconds and the nanoseconds of the
    modification time, each as eight big-endian bytes. *)
Definition fingerprint_spec (sha256 : chars -> chars)
    (tarpath : Path) (size secs nanos : Z) : chars :=
  SHA256_Final sha256
    (Path_str tarpath ++ be_bytes size ++ be_bytes secs ++ be_bytes nanos).

(** ** Reading numbers: [atol] and [atoi] of the C library *)

Definition is_digit (c : ascii) : bool :=
  let n := Z.of_N (N_of_ascii c) in (48 <=? n) && (n <=? 57).

Definition digit_value (c : ascii) : Z := Z.of_N (N_of_ascii c) - 48.

Definition is_space (c : ascii) : bool :=
  let n := Z.of_N (N_of_ascii c) in (n =? 32) || ((9 <=? n) && (n <=? 13)).

Fixpoint skip_spaces (s : chars) : chars :=
  match s with
  | c :: s' => if is_space c then skip_spaces s' else s
  | [] => []
  end.

Fixpoint read_digits (s : chars) (acc : Z) : Z :=
  match s with
  | c :: s' => if is_digit c then read_digits s' (10 * acc + digit_value c) else acc
  | [] => acc
  end.

Definition LONG_MAX : Z := 2 ^ 63 - 1.
Definition LONG_MIN : Z := - 2 ^ 63.

(** [strtol(s, NULL, 10)]: leading white space, an optional sign, the
    longest run of digits; a value out of range is clamped. *)
Definition atol (s : chars) : Z :=
  let v :=
    match skip_spaces s with
    | c :: s' =>
        if Ascii.eqb c "-"%char then - read_digits s' 0
        else if Ascii.eqb c "+"%char then read_digits s' 0
        else read_digits (c :: s') 0
    | [] => 0
    end in
  Z.max LONG_MIN (Z.min LONG_MAX v).

(** [atoi] is [(int) strtol(s, NULL, 10)]: the low 32 bits, signed. *)
Definition to_int32 (v : Z) : Z := (v + 2 ^ 31) mod 2 ^ 32 - 2 ^ 31.
Definition atoi (s : chars) : Z := to_int32 (atol s).

(** Storing an [int] into the unsigned 32-bit [uid_t] / [gid_t]. *)
Definition to_uint32 (v : Z) : Z := v mod 2 ^ 32.

(** ** Reading fields: [eatTo] *)

Definition stops (c : option ascii) (x : ascii) : bool :=
  match c with
  | None => false
  | Some c => Ascii.eqb x c
  end.

Fixpoint eat_loop (v : chars) (c : option ascii) (max : Z) : chars * chars :=
  match v with
  | [] => ([], [])
  | x :: v' =>
      if (max <=? 0) || stops c x then ([], v)
      else let '(s, i) := eat_loop v' c (max - 1) in (x :: s, i)
  end.

Definition at_end (i : chars) : bool :=
  match i with [] => true | _ => false end.

(** Modelled from the spec: [eatTo(v, i, c, max, eof, err)] (util.cc is not
    among the sources).  It reads one field: the characters from the
    iterator up to the separator byte [c] (at most [max] of them), and steps
    over the separator.  A field whose separator is missing is an error;
    [c = -1] ([None]) reads to the end of the input.  [eof] tells that the
    iterator has reached the end, which is how [eatEntry] uses it ("Expect
    eof here!", "Accept eof here!").  The result is the field, the iterator
    after the call, [eof] and [err]. *)
Definition eatTo (i : chars) (c : option ascii) (max : Z)
  : chars * chars * bool * bool :=
  let '(s, i) := eat_loop i c max in
  let missing :=
    match c, i with
    | None, _ => false
    | Some _, [] => true
    | Some c, x :: _ => negb (Ascii.eqb x c)
    end in
  if missing then ([], i, at_end i, true)
  else
    let i := match i with [] => [] | _ :: i' => i' end in
    (s, i, at_end i, false).

(** ** Writing a catalog line: [cookEntry] *)

Definition cookEntry (C : CatalogApi) (listing : chars) (e : TarEntry) : chars :=
  let sep := separator_string C in
  listing
    ++ tv_line_left e ++ sep
    ++ tv_line_size e ++ sep
    ++ tv_line_right e ++ sep
    ++ Path_str (tarpath_ e) ++ sep
    ++ match link_ e with
       | Some l =>
           (if isSymbolicLink e then lit " -> " else lit " link to ")
             ++ Path_str l
       | None => lit " "
       end ++ sep
    ++ tar_file_name e ++ sep
    ++ print_unsigned (wrap (tar_offset_ e + header_size_ e)) ++ sep
    ++ lit "0" ++ sep
    ++ toHex C (sha256_hash_ e)
    ++ [ascii_of_N 10]
    ++ sep.

(** ** Reading a catalog line: [eatEntry] *)

(** The locations that [eatEntry] writes through its pointer arguments. *)
Record EatOut := mk_EatOut {
  o_fs : FileStat;
  o_offset : Z;
  o_tar : chars;
  o_path : Path;
  o_link : chars;
  o_is_sym_link : bool;
  o_eof : bool;
  o_err : bool
}.

Definition with_fs (o : EatOut) (fs : FileStat) : EatOut :=
  mk_EatOut fs (o_offset o) (o_tar o) (o_path o) (o_link o)
            (o_is_sym_link o) (o_eof o) (o_err o).
Definition with_offset (o : EatOut) (v : Z) : EatOut :=
  mk_EatOut (o_fs o) v (o_tar o) (o_path o) (o_link o)
            (o_is_sym_link o) (o_eof o) (o_err o).
Definition with_tar (o : EatOut) (v : chars) : EatOut :=
  mk_EatOut (o_fs o) (o_offset o) v (o_path o) (o_link o)
            (o_is_sym_link o) (o_eof o) (o_err o).
Definition with_path (o : EatOut) (v : Path) : EatOut :=
  mk_EatOut (o_fs o) (o_offset o) (o_tar o) v (o_link o)
            (o_is_sym_link o) (o_eof o) (o_err o).
Definition with_link (o : EatOut) (v : chars) : EatOut :=
  mk_EatOut (o_fs o) (o_offset o) (o_tar o) (o_path o) v
            (o_is_sym_link o) (o_eof o) (o_err o).
Definition with_is_sym_link (o : EatOut) (v : bool) : EatOut :=
  mk_EatOut (o_fs o) (o_offset o) (o_tar o) (o_path o) (o_link o)
            v (o_eof o) (o_err o).
Definition with_flags (o : EatOut) (eof err : bool) : EatOut :=
  mk_EatOut (o_fs o) (o_offset o) (o_tar o) (o_path o) (o_link o)
            (o_is_sym_link o) eof err.

(** The result of [eatEntry]: the returned flag, the iterator and the
    output locations after the call.  [eatEntry] itself gives [None] where
    the call has no defined behaviour: [header_hash.pop_back()] on an empty
    string, which is what [eatTo] returns for the last field when its
    separator is missing, and what an empty last field is. *)
Definition EatResult : Type := bool * chars * EatOut.

(** [x = eatTo(v, i, c, max, eof, err)]: the call stores the two flags. *)
Definition eat (i : chars) (c : option ascii) (max : Z) (o : EatOut)
  : chars * chars * EatOut :=
  let '(s, i, eof, err) := eatTo i c max in (s, i, with_flags o eof err).

(** [substr(0, find(c))] and [substr(find(c)+1)]: when [c] does not occur,
    [find] is [npos] and both are the whole string. *)
Fixpoint before_char (c : ascii) (s : chars) : chars :=
  match s with
  | [] => []
  | x :: s' => if Ascii.eqb x c then [] else x :: before_char c s'
  end.

Fixpoint after_char_opt (c : ascii) (s : chars) : option chars :=
  match s with
  | [] => None
  | x :: s' => if Ascii.eqb x c then Some s' else after_char_opt c s'
  end.

Definition after_char (c : ascii) (s : chars) : chars :=
  match after_char_opt c s with Some r => r | None => s end.

(** The block that splits one "seconds.nanoseconds" field; [None] is the
    [return false] inside it. *)
Definition eat_secs_and_nanos (secs_and_nanos : chars) (o : EatOut)
  : option timespec * EatOut :=
  let sn := secs_and_nanos in
  let '(se, j, o) := eat sn (Some "."%char) 64 o in
  if o_err o || o_eof o then (None, o)
  else
    let '(na, j, o) := eat j None 64 o in
    if o_err o then (None, o)
    else (Some (mk_timespec (atol se) (atol na)), o).

Definition has_prefix (p s : chars) : bool :=
  chars_eqb (firstn (List.length p) s) p.

Definition eatEntry (C : CatalogApi) (i : chars) (dir_to_prepend : Path)
    (o : EatOut) : option EatResult :=
  let sep := Some (separator C) in
  let '(permission, i, o) := eat i sep 32 o in
  if o_err o || o_eof o then Some (false, i, o) else
  let o := with_fs o (set_st_mode (o_fs o) (stringToPermission C permission)) in
  if st_mode (o_fs o) =? 0 then Some (false, i, with_flags o (o_eof o) true) else
  let '(uidgid, i, o) := eat i sep 32 o in
  if o_err o || o_eof o then Some (false, i, o) else
  let uid := before_char "/"%char uidgid in
  let gid := after_char "/"%char uidgid in
  let o := with_fs o (set_st_uid (o_fs o) (to_uint32 (atoi uid))) in
  let o := with_fs o (set_st_gid (o_fs o) (to_uint32 (atoi gid))) in
  let '(si, i, o) := eat i sep 32 o in
  if o_err o || o_eof o then Some (false, i, o) else
  let o :=
    if fs_isCharacterDevice (o_fs o) || fs_isBlockDevice (o_fs o) then
      let maj := before_char ","%char si in
      let min := after_char ","%char si in
      with_fs o (set_st_rdev (o_fs o) (MakeDev C (atoi maj) (atoi min)))
    else with_fs o (set_st_size (o_fs o) (atol si)) in
  let '(datetime, i, o) := eat i sep 32 o in
  if o_err o || o_eof o then Some (false, i, o) else
  let '(secs_and_nanos, i, o) := eat i sep 64 o in
  if o_err o || o_eof o then Some (false, i, o) else
  (* Extract modify time, secs and nanos from string. *)
  match eat_secs_and_nanos secs_and_nanos o with
  | (None, o) => Some (false, i, o)
  | (Some t, o) =>
  let o := with_fs o (set_st_mtim (o_fs o) t) in
  let '(secs_and_nanos, i, o) := eat i sep 64 o in
  if o_err o || o_eof o then Some (false, i, o) else
  (* Extract access time, secs and nanos from string. *)
  match eat_secs_and_nanos secs_and_nanos o with
  | (None, o) => Some (false, i, o)
  | (Some t, o) =>
  let o := with_fs o (set_st_atim (o_fs o) t) in
  let '(secs_and_nanos, i, o) := eat i sep 64 o in
  if o_err o || o_eof o then Some (false, i, o) else
  (* Extract change time, secs and nanos from string. *)
  match eat_secs_and_nanos secs_and_nanos o with
  | (None, o) => Some (false, i, o)
  | (Some t, o) =>
  let o := with_fs o (set_st_ctim (o_fs o) t) in
  let '(name, i, o) := eat i sep 1024 o in
  let filename := Path_str dir_to_prepend ++ lit "/" ++ name in
  if o_err o || o_eof o then Some (false, i, o) else
  let filename :=
    if (1 <? zlen filename) && Ascii.eqb (last filename zero) "/"%char
    then removelast filename else filename in
  let o := with_path o (Path_lookup filename) in
  let '(link, i, o) := eat i sep 1024 o in
  let o := with_link o link in
  if o_err o || o_eof o then Some (false, i, o) else
  let o := with_is_sym_link o false in
  let o :=
    if (4 <? zlen (o_link o)) && has_prefix (lit " -> ") (o_link o) then
      let o := with_link o (skipn 4 (o_link o)) in
      let o := with_fs o (set_st_size (o_fs o) (zlen (o_link o))) in
      with_is_sym_link o true
    else if (9 <? zlen (o_link o)) && has_prefix (lit " link to ") (o_link o) then
      let o := with_link o (skipn 9 (o_link o)) in
      let o := with_fs o (set_st_size (o_fs o) (zlen (o_link o))) in
      with_is_sym_link o false
    else o in
  let '(tarname, i, o) := eat i sep 1024 o in
  let o := with_tar o (Path_str dir_to_prepend ++ lit "/" ++ tarname) in
  if o_err o || o_eof o then Some (false, i, o) else
  let '(off, i, o) := eat i sep 32 o in
  let o := with_offset o (wrap (atol off)) in
  if o_err o || o_eof o then Some (false, i, o) else
  let '(content_hash, i, o) := eat i sep 65 o in
  if o_err o || o_eof o then Some (false, i, o) else
  let '(header_hash, i, o) := eat i sep 65 o in
  match header_hash with
  | [] => None (* pop_back() on an empty string *)
  | _ :: _ =>
  let header_hash := removelast header_hash in (* Remove the newline *)
  if o_err o then Some (false, i, o) (* Accept eof here! *)
  else Some (true, i, o)
  end
  end end end.

(** What [eatEntry] stores when every field of a line is found: the
    assignments of [eatEntry] in their order, applied to the texts of the
    fields (the three timestamps already split and read). *)
Definition decode_fields (C : CatalogApi) (dir_to_prepend : Path) (o : EatOut)
    (permission uidgid si : chars) (mtim atim ctim : timespec)
    (name link tarname off : chars) : EatOut :=
  let fs := set_st_mode (o_fs o) (stringToPermission C permission) in
  let fs := set_st_uid fs (to_uint32 (atoi (before_char "/"%char uidgid))) in
  let fs := set_st_gid fs (to_uint32 (atoi (after_char "/"%char uidgid))) in
  let fs :=
    if fs_isCharacterDevice fs || fs_isBlockDevice fs
    then set_st_rdev fs (MakeDev C (atoi (before_char ","%char si))
                                   (atoi (after_char ","%char si)))
    else set_st_size fs (atol si) in
  let fs := set_st_ctim (set_st_atim (set_st_mtim fs mtim) atim) ctim in
  let filename := Path_str dir_to_prepend ++ lit "/" ++ name in
  let filename :=
    if (1 <? zlen filename) && Ascii.eqb (last filename zero) "/"%char
    then removelast filename else filename in
  let '(link, fs, sym) :=
    if (4 <? zlen link) && has_prefix (lit " -> ") link
    then (skipn 4 link, set_st_size fs (zlen (skipn 4 link)), true)
    else if (9 <? zlen link) && has_prefix (lit " link to ") link
    then (skipn 9 link, set_st_size fs (zlen (skipn 9 link)), false)
    else (link, fs, false) in
  mk_EatOut fs (wrap (atol off))
    (Path_str dir_to_prepend ++ lit "/" ++ tarname)
    (Path_lookup filename) link sym true false.

(** ** Smaller methods of [TarEntry] *)

Definition set_tarpath (e : TarEntry) (p : Path) : TarEntry :=
  mk_TarEntry (abspath_ e) (path_ e) p (fs_ e) (link_ e)
    (is_hard_linked_ e) (tar_header_style_ e) (header_size_ e)
    (blocked_size_ e) (children_size_ e) (virtual_file_ e) (content e)
    (tv_line_left e) (tv_line_size e) (tv_line_right e) (tar_file_name e)
    (tar_offset_ e) (sha256_hash_ e).

Definition set_tar_file (e : TarEntry) (name : chars) (o : Z) : TarEntry :=
  mk_TarEntry (abspath_ e) (path_ e) (tarpath_ e) (fs_ e) (link_ e)
    (is_hard_linked_ e) (tar_header_style_ e) (header_size_ e)
    (blocked_size_ e) (children_size_ e) (virtual_file_ e) (content e)
    (tv_line_left e) (tv_line_size e) (tv_line_right e) name
    o (sha256_hash_ e).

Definition set_content (e : TarEntry) (c : chars) : TarEntry :=
  mk_TarEntry (abspath_ e) (path_ e) (tarpath_ e) (fs_ e) (link_ e)
    (is_hard_linked_ e) (tar_header_style_ e) (header_size_ e)
    (blocked_size_ e) (children_size_ e) true c
    (tv_line_left e) (tv_line_size e) (tv_line_right e) (tar_file_name e)
    (tar_offset_ e) (sha256_hash_ e).

(** [TarEntry::calculateTarpath] (the hash of the tar path, kept in a field
    that nothing here reads, is left out). *)
Definition calculateTarpath (e : TarEntry) (storage_dir : Path) : TarEntry :=
  set_tarpath e (subpath (path_ e) (depth storage_dir)).

(** [TarEntry::registerTarFile]; of the tar file only its name is kept. *)
Definition registerTarFile (e : TarEntry) (tf_name : chars) (o : Z) : TarEntry :=
  set_tar_file e tf_name o.

(** [TarEntry::setContent]. *)
Definition setContent (e : TarEntry) (c : chars) : option TarEntry :=
  let e' := set_content e c in
  _ <- assert (wrap (st_size (fs_ e')) =? zlen c) ;;
  Some e'.

(** ** Notions used in the statements *)

(** A hard-linked entry is exactly one block: the header is the block and
    nothing follows it. *)
Definition one_block (e : TarEntry) : Prop :=
  header_size_ e = T_BLOCKSIZE /\ blocked_size_ e = T_BLOCKSIZE.

(** The padding that [copy] appends after [copied] bytes when [size] more
    bytes may be stored. *)
Definition padding_after (copied size : Z) : Z :=
  let remainder :=
    if copied mod T_BLOCKSIZE =? 0 then 0
    else T_BLOCKSIZE - copied mod T_BLOCKSIZE in
  if size <? remainder then size else remainder.

(** The number that a run of digits denotes, continuing from [acc]. *)
Definition digits_value (ds : chars) (acc : Z) : Z :=
  fold_left (fun a c => 10 * a + digit_value c) ds acc.

Definition all_digits (ds : chars) : Prop := Forall (fun c => is_digit c = true) ds.

Definition field_ok (sep : ascii) (max : Z) (s : chars) : Prop :=
  ~ In sep s /\ zlen s <= max.

Definition newline : ascii := ascii_of_N 10.

(** The text of the link field of a catalog line. *)
Definition link_descriptor (e : TarEntry) : chars :=
  match link_ e with
  | Some l => (if isSymbolicLink e then lit " -> " else lit " link to ") ++ Path_str l
  | None => lit " "
  end.

Definition catalog_ready (C : CatalogApi) (e : TarEntry) : Prop :=
  tv_line_left e = make_tv_line_left C (fs_ e)
  /\ tv_line_size e = make_tv_line_size C (fs_ e)
  /\ tv_line_right e = make_tv_line_right C (fs_ e).

Definition separator_ok (C : CatalogApi) : Prop :=
  is_digit (separator C) = false
  /\ ~ In (separator C) (lit "/,.- >linkto" ++ [newline]).

Definition texts_ok (C : CatalogApi) (e : TarEntry) : Prop :=
  field_ok (separator C) 32 (permissionString C (st_mode (fs_ e)))
  /\ field_ok (separator C) 32 (strftime_local C (tv_sec (st_mtim (fs_ e))))
  /\ field_ok (separator C) 1024 (Path_str (tarpath_ e))
  /\ field_ok (separator C) 1024 (link_descriptor e)
  /\ field_ok (separator C) 1024 (tar_file_name e)
  /\ field_ok (separator C) 64 (toHex C (sha256_hash_ e))
  /\ match link_ e with Some l => Path_str l <> [] | None => True end.

Definition time_ok (t : timespec) : Prop :=
  0 <= tv_sec t <= LONG_MAX /\ 0 <= tv_nsec t < 10 ^ 9.

Definition is_device (fs : FileStat) : bool :=
  fs_isCharacterDevice fs || fs_isBlockDevice fs.

Definition numbers_ok (C : CatalogApi) (e : TarEntry) : Prop :=
  stringToPermission C (permissionString C (st_mode (fs_ e))) = st_mode (fs_ e)
  /\ st_mode (fs_ e) <> 0
  /\ 0 <= st_uid (fs_ e) < 2 ^ 32 /\ 0 <= st_gid (fs_ e) < 2 ^ 32
  /\ LONG_MIN <= st_size (fs_ e) <= LONG_MAX
  /\ time_ok (st_mtim (fs_ e)) /\ time_ok (st_atim (fs_ e))
  /\ time_ok (st_ctim (fs_ e))
  /\ 0 <= tar_offset_ e + header_size_ e <= LONG_MAX
  /\ (is_device (fs_ e) = true ->
      0 <= dev_major C (st_rdev (fs_ e)) < 2 ^ 31
      /\ 0 <= dev_minor C (st_rdev (fs_ e)) < 2 ^ 31
      /\ MakeDev C (dev_major C (st_rdev (fs_ e))) (dev_minor C (st_rdev (fs_ e)))
         = st_rdev (fs_ e)).

(** The number of separator bytes in a text. *)
Definition count_sep (c : ascii) (i : chars) : nat := count_occ ascii_dec i c.

(** The text is free of the byte [sep]. *)
Definition no_sep (sep : ascii) (s : chars) : bool :=
  forallb (fun c => negb (Ascii.eqb c sep)) s.

(** ** What [eatEntry] stores, field by field *)









(** The bytes [from, from+size) of a text. *)
Definition slice (l : chars) (from size : Z) : chars :=
  firstn (Z.to_nat size) (skipn (Z.to_nat from) l).

(** The geometry of an on-disk entry whose file is as long as its layout
    assumes: header and blocked size on block boundaries, the content
    followed by less than a block of padding. *)
Definition laid_out (e : TarEntry) (data : chars) : Prop :=
  0 <= header_size_ e
  /\ header_size_ e mod T_BLOCKSIZE = 0
  /\ blocked_size_ e mod T_BLOCKSIZE = 0
  /\ header_size_ e + zlen data <= blocked_size_ e
  /\ blocked_size_ e < header_size_ e + zlen data + T_BLOCKSIZE
  /\ blocked_size_ e < SIZE_MOD.

Definition padding_of (e : TarEntry) (data : chars) : Z :=
  blocked_size_ e - header_size_ e - zlen data.

(** ** Instances of the interfaces, to run the model on concrete entries *)

(** Modelled from the spec: the header sizes of tar.cc (not among the
    sources): "total header size = core header block + extension blocks",
    an extension being needed "when a name or link target exceeds the fixed
    embedded field width" (100 bytes in the tar format).  The number of
    extension blocks follows the note kept in [fixHardLink]: "an extra
    header block plus at least one block for the file name", that is
    [2 + len/T_BLOCKSIZE]. *)
Definition long_blocks (len : Z) : Z :=
  if 100 <? len then 2 + len / T_BLOCKSIZE else 0.

Definition model_calculateSize (fs : FileStat) (tarpath : Path)
    (link : option Path) (is_hard_linked : bool) : Z :=
  T_BLOCKSIZE
  + T_BLOCKSIZE * long_blocks (c_str_len tarpath)
  + T_BLOCKSIZE * match link with
                  | Some l => long_blocks (c_str_len l)
                  | None => 0
                  end.

Definition pad_block (s : chars) : chars :=
  firstn (Z.to_nat T_BLOCKSIZE) (s ++ zeros T_BLOCKSIZE).

(** The header blocks of this instance carry the name field only. *)
Definition model_newTarHeader (fs : FileStat) (tarpath : Path)
    (link : option Path) (is_hard_linked full : bool) : TarHeader :=
  mk_TarHeader (pad_block (firstn 100 (Path_str tarpath)))
    (match link with Some l => long_blocks (c_str_len l) | None => 0 end)
    (long_blocks (c_str_len tarpath)).

Definition tar_model : TarHeaderApi :=
  mk_TarHeaderApi model_calculateSize model_newTarHeader
    (fun _ _ => pad_block (lit "././@LongLink"))
    (fun _ _ => pad_block (lit "././@LongLink")).

(** Modelled from the spec: the permission string, "mode bits rendered as
    characters": the type character followed by the nine [rwx] bits. *)
Definition type_char (m : Z) : ascii :=
  let t := Z.land m S_IFMT in
  if t =? S_IFDIR then "d" else if t =? S_IFLNK then "l"
  else if t =? S_IFCHR then "c" else if t =? S_IFBLK then "b"
  else "-".

Definition bit_char (m : Z) (bit : Z) (c : ascii) : ascii :=
  if Z.testbit m bit then c else "-".

Definition model_permissionString (m : Z) : chars :=
  [ type_char m;
    bit_char m 8 "r"; bit_char m 7 "w"; bit_char m 6 "x";
    bit_char m 5 "r"; bit_char m 4 "w"; bit_char m 3 "x";
    bit_char m 2 "r"; bit_char m 1 "w"; bit_char m 0 "x" ]%char.

Definition char_type (c : ascii) : option Z :=
  if Ascii.eqb c "d" then Some S_IFDIR else if Ascii.eqb c "l" then Some S_IFLNK
  else if Ascii.eqb c "c" then Some S_IFCHR else if Ascii.eqb c "b" then Some S_IFBLK
  else if Ascii.eqb c "-" then Some S_IFREG else None.

Fixpoint read_bits (s : chars) (acc : Z) : Z :=
  match s with
  | [] => acc
  | c :: s' => read_bits s' (2 * acc + (if Ascii.eqb c "-" then 0 else 1))
  end.

Definition model_stringToPermission (s : chars) : Z :=
  match s with
  | t :: bits =>
      match char_type t with
      | Some ty => if Nat.eqb (List.length bits) 9 then ty + read_bits bits 0 else 0
      | None => 0
      end
  | [] => 0
  end.

Definition hex_digit (d : Z) : ascii :=
  if d <? 10 then digit_char d else ascii_of_N (Z.to_N (87 + d)).

Definition model_toHex (s : chars) : chars :=
  flat_map (fun c => let n := Z.of_N (N_of_ascii c) in
                     [hex_digit (n / 16); hex_digit (n mod 16)]) s.

(** [localtime] of this instance fails outside the seconds whose year
    fits an [int]. *)
Definition model_localtime_fails (t : Z) : bool :=
  (t <? -67768040609740800) || (67768036191676799 <? t).

(** The separator of this instance is the NUL byte; device numbers are
    split as [major * 256 + minor]; the informational date is constant. *)
Definition catalog_model : CatalogApi :=
  mk_CatalogApi zero model_permissionString model_stringToPermission
    model_localtime_fails
    (fun _ => lit "2016-11-25 00:52.00")
    (fun d => d / 256) (fun d => d mod 256)
    (fun ma mi => ma * 256 + mi)
    model_toHex.

(** Sample paths. *)
Definition path_of (s : string) : Path := Path_lookup (lit s).

(** A stat record of a regular file (mode 0644) of the given size. *)
Definition sample_stat (mode size : Z) : FileStat :=
  mk_FileStat mode 1000 1000 0 size
    (mk_timespec 1480031543 123456789)
    (mk_timespec 1480031544 0)
    (mk_timespec 1480031545 999999999).

Definition mode_reg_644 : Z := S_IFREG + 420.
Definition mode_lnk_777 : Z := S_IFLNK + 511.

(** A file of [n] bytes, each ['x']. *)
Definition sample_file (n : Z) : File := mk_File (repeat "x"%char (Z.to_nat n)) false.

Definition disk_with (p : Path) (f : File) : FileSystem :=
  fun q => if Path_eqb q p then Some f else None.

Definition no_disk : FileSystem := fun _ => None.

(** The regular file of the design's scenario: 745 bytes, a short path. *)
Definition entry745 : option TarEntry :=
  TarEntry_new tar_model catalog_model
    (path_of "/home/u/testing") (path_of "/home/u/testing")
    (sample_stat mode_reg_644 745) THS_Full None.

(** A symbolic link "link -> target". *)
Definition entry_symlink : option TarEntry :=
  TarEntry_new tar_model catalog_model
    (path_of "/home/u/link") (path_of "/home/u/link")
    (sample_stat mode_lnk_777 6) THS_Full (Some (lit "target")).

Definition the (o : option TarEntry) : TarEntry :=
  match o with
  | Some e => e
  | None => mk_TarEntry [] [] [] (sample_stat 0 0) None false THS_None 0 0 0
              false [] [] [] [] [] 0 []
  end.

(** A hard link inside the storage directory "/a/b": the entry "/a/b/e"
    rewritten into a link to "/a/b/c/d". *)
Definition entry_target : option TarEntry :=
  TarEntry_new tar_model catalog_model
    (path_of "/a/b/c/d") (path_of "/a/b/c/d")
    (sample_stat mode_reg_644 745) THS_Full None.

Definition entry_hard : option TarEntry :=
  e <- TarEntry_new tar_model catalog_model
         (path_of "/a/b/e") (path_of "/a/b/e")
         (sample_stat mode_reg_644 745) THS_Full None ;;
  t <- entry_target ;;
  rewriteIntoHardLink tar_model e t.

(** The same link when its target is "/a/x/y", outside of "/a/b". *)
Definition entry_hard_outside : option TarEntry :=
  e <- TarEntry_new tar_model catalog_model
         (path_of "/a/b/e") (path_of "/a/b/e")
         (sample_stat mode_reg_644 745) THS_Full None ;;
  t <- TarEntry_new tar_model catalog_model
         (path_of "/a/x/y") (path_of "/a/x/y")
         (sample_stat mode_reg_644 745) THS_Full None ;;
  rewriteIntoHardLink tar_model e t.

(** A hard link whose target is stored relative to the root, as it is when
    the storage directory is the root itself. *)
Definition entry_hard_relative : option TarEntry :=
  e <- entry_hard ;;
  Some (set_link e (Some (path_of "a/x/y"))).

(** A stand-in for SHA-256 to run the model: the properties of the
    fingerprint below hold for every digest function. *)
Definition sample_digest (m : chars) : chars := firstn 32 (rev m).

(** Two files with the same tar path, size and modification time, found
    under different absolute paths. *)
Definition entry_twin (abs : string) : option TarEntry :=
  TarEntry_new tar_model catalog_model
    (path_of abs) (path_of "docs/notes")
    (sample_stat mode_reg_644 745) THS_Full None.

(** The sample entries, evaluated. *)
Definition plain_v : TarEntry :=
  Eval vm_compute in
    the (TarEntry_new tar_model catalog_model
           (path_of "/a/b/e") (path_of "/a/b/e")
           (sample_stat mode_reg_644 745) THS_Full None).
Definition target_v : TarEntry := Eval vm_compute in the entry_target.
Definition hard_v : TarEntry := Eval vm_compute in the entry_hard.
Definition hard_outside_v : TarEntry := Eval vm_compute in the entry_hard_outside.
Definition hard_relative_v : TarEntry := Eval vm_compute in the entry_hard_relative.
Definition hard_fixed_v : TarEntry :=
  Eval vm_compute in
    the (option_map snd (fixHardLink tar_model hard_v (path_of "/a/b"))).
Definition entry745_v : TarEntry := Eval vm_compute in the entry745.
Definition symlink_v : TarEntry := Eval vm_compute in the entry_symlink.
Definition twin1_v : TarEntry := Eval vm_compute in the (entry_twin "/mnt/one/docs/notes").
Definition twin2_v : TarEntry := Eval vm_compute in the (entry_twin "/mnt/two/docs/notes").

(** Entries as they are when their catalog line is written: placed in
    the storage directory "/a/b", registered in a tar file, fingerprinted. *)
Definition catalogued (e : TarEntry) : TarEntry :=
  calculateSHA256Hash sample_digest LittleEndian
    (registerTarFile (calculateTarpath e (path_of "/a/b")) (lit "s01_001.tar") 1024).

Definition plain_cat_v : TarEntry := Eval vm_compute in catalogued plain_v.
Definition hard_cat_v : TarEntry := Eval vm_compute in catalogued hard_fixed_v.

(** The header of the entry of 745 bytes. *)
Definition header745_v : chars :=
  Eval vm_compute in
    match header_image tar_model entry745_v with Some h => h | None => [] end.

(** The entry of 745 bytes as a virtual file. *)
Definition virtual_v : TarEntry :=
  Eval vm_compute in the (setContent entry745_v (repeat "x"%char 745)).

(** Output locations before a call of [eatEntry]. *)
Definition out0 : EatOut :=
  mk_EatOut (mk_FileStat 0 0 0 0 0 (mk_timespec 0 0) (mk_timespec 0 0)
                         (mk_timespec 0 0))
            0 [] [] [] false false false.




(** ** The name check: [sanityCheck] *)

(** [s[k]] of a C string given without its terminating NUL: the character
    at [k], the NUL at the end. *)
Definition char_at (s : chars) (k : Z) : ascii := nth (Z.to_nat k) s zero.

(** [strcmp(x, y) != 0] and [strncmp(x, y, n) != 0]. *)
Definition strcmp_ne (x y : chars) : bool := negb (chars_eqb x y).

Definition strncmp_ne (x y : chars) (n : Z) : bool :=
  negb (chars_eqb (firstn (Z.to_nat n) x) (firstn (Z.to_nat n) y)).

(** [bool sanityCheck(const char *x, const char *y)]; the value is what
    the function returns ([error] has logged before the [return false]). *)
Definition sanityCheck (x y : chars) : bool :=
  if strcmp_ne x y then
    if Ascii.eqb (char_at x 0) zero && Ascii.eqb (char_at y 0) "."%char
       && Ascii.eqb (char_at y 1) zero
    then true (* OK *)
    else
      (* Something differs ok or not? *)
      let yl := zlen y in
      let x :=
        if Ascii.eqb (char_at x 0) "/"%char && negb (Ascii.eqb (char_at y 0) "/"%char)
        then tl x (* Skip initial root / that is never stored in tar. *)
        else x in
      let yl :=
        if (wrap (yl - 1) =? zlen x)
           && Ascii.eqb (char_at y (wrap (yl - 1))) "/"%char
           && Ascii.eqb (char_at x (wrap (yl - 1))) zero
        then wrap (yl - 1) (* Skip final / after dirs in tar file *)
        else yl in
      if strncmp_ne x y yl then false else true
  else true.

(** ** The youngest entry: [updateMtim] *)

(** [TarEntry::updateMtim(struct timespec *mtim)]; the result is [*mtim]
    after the call.  [isInTheFuture] (util.cc) compares with the clock and
    is passed in. *)
Definition updateMtim (isInTheFuture : timespec -> bool) (e : TarEntry)
    (mtim : timespec) : timespec :=
  if isInTheFuture (st_mtim (fs_ e)) then mtim
  else
    if (tv_sec mtim <? tv_sec (st_mtim (fs_ e)))
       || ((tv_sec (st_mtim (fs_ e)) =? tv_sec mtim)
           && (tv_nsec mtim <? tv_nsec (st_mtim (fs_ e))))
    then st_mtim (fs_ e)
    else mtim.

(** ** The children of a directory: [entries_] *)

(** Entries are held by pointer; [Entries] gives the vector [entries_] of
    every entry, so that two names of the same directory share one
    vector. *)
Definition EntryRef := nat.
Definition Entries := EntryRef -> list EntryRef.

Definition set_entries (m : Entries) (d : EntryRef) (l : list EntryRef) : Entries :=
  fun x => if Nat.eqb x d then l else m x.

(** [find(entries_.begin(), entries_.end(), entry)] followed by
    [entries_.erase(pos)]: the vector without the first occurrence of
    [entry]; [None] when [find] returns [end()]. *)
Fixpoint erase_found (entry : EntryRef) (l : list EntryRef) : option (list EntryRef) :=
  match l with
  | [] => None
  | x :: l' =>
      if Nat.eqb x entry then Some l'
      else l'' <- erase_found entry l' ;; Some (x :: l'')
  end.

(** [TarEntry::addEntry]. *)
Definition addEntry (m : Entries) (this te : EntryRef) : Entries :=
  set_entries m this (m this ++ [te]).

(** [TarEntry::moveEntryToNewParent]: an entry that is not found is an
    [error], after which [erase(end())] has no defined behaviour
    ([None]). *)
Definition moveEntryToNewParent (m : Entries) (this entry parent : EntryRef)
  : option Entries :=
  l <- erase_found entry (m this) ;;
  let m := set_entries m this l in
  Some (set_entries m parent (m parent ++ [entry])).

(** ** Further notions used in the statements *)

(** The size that [updateSizes] rounds up: the header, and the content
    of a regular file that is not a hard link. *)
Definition unrounded_size (e : TarEntry) : Z :=
  if isRegularFile e && negb (is_hard_linked_ e)
  then wrap (header_size_ e + st_size (fs_ e))
  else header_size_ e.

(** The message that [calculateSHA256Hash] has fed to SHA-256 when it
    calls [SHA256_Final]. *)
Definition hashed_message (h : Endian) (e : TarEntry) : SHA256_CTX :=
  let ctx := SHA256_Init in
  let ctx := SHA256_Update ctx (Path_str (tarpath_ e)) (c_str_len (tarpath_ e)) in
  let filesize := fixEndian h (st_size (fs_ e)) in
  let ctx := SHA256_Update ctx (object_bytes h filesize) 8 in
  let secs := fixEndian h (tv_sec (st_mtim (fs_ e))) in
  let nanos := fixEndian h (tv_nsec (st_mtim (fs_ e))) in
  let ctx := SHA256_Update ctx (object_bytes h secs) 8 in
  SHA256_Update ctx (object_bytes h nanos) 8.

Definition int64 (v : Z) : Prop := - 2 ^ 63 <= v < 2 ^ 63.

(** A path from the root, and a path that is not from the root. *)
Definition absolute (p : Path) : Prop := exists p', p = [] :: p'.

Definition relative (p : Path) : Prop :=
  match p with
  | [] => True
  | r :: _ => r <> []
  end.

(** What the three parts of [copy] keep: the bytes stored so far are
    counted by [copied], and with what is left of the request they make
    up the request. *)
Definition copy_inv (size0 : Z) (st : CopyState) : Prop :=
  let '(size, buf, copied, from) := st in
  0 <= size /\ zlen buf = copied /\ copied + size = size0.

(** [a] is not later than [b]. *)
Definition not_later (a b : timespec) : Prop :=
  tv_sec a < tv_sec b \/ (tv_sec a = tv_sec b /\ tv_nsec a <= tv_nsec b).

(** The on-disk entry with the same layout as a virtual one, and the disk
    on which its file holds the bytes [c]. *)
Definition on_disk (e : TarEntry) : TarEntry :=
  mk_TarEntry (abspath_ e) (path_ e) (tarpath_ e) (fs_ e) (link_ e)
    (is_hard_linked_ e) (tar_header_style_ e) (header_size_ e)
    (blocked_size_ e) (children_size_ e) false (content e)
    (tv_line_left e) (tv_line_size e) (tv_line_right e) (tar_file_name e)
    (tar_offset_ e) (sha256_hash_ e).

Definition disk_holding (c : chars) : FileSystem :=
  fun _ => Some (mk_File c false).



(** What [eatEntry] has stored when it has read the line of
    [plain_cat_v]. *)
Definition out_of_plain_line : EatOut :=
  Eval vm_compute in
  match eatEntry catalog_model (cookEntry catalog_model [] plain_cat_v)
          (path_of "/mnt") out0 with
  | Some (_, _, o) => o
  | None => out0
  end.

(* ================================================================== *)
(** * Part II. Properties                                              *)
(* ================================================================== *)

(** ** Arithmetic of blocks *)

Lemma wrap_small z : 0 <= z < SIZE_MOD -> wrap z = z.
Proof. intros H. unfold wrap. apply Z.mod_small. exact H. Qed.

Lemma wrap_range z : 0 <= wrap z < SIZE_MOD.
Proof. unfold wrap, SIZE_MOD. apply Z.mod_pos_bound. reflexivity. Qed.

Lemma round_up_block_one : round_up_block T_BLOCKSIZE = T_BLOCKSIZE.
Proof. reflexivity. Qed.

(** ** Paths *)

Lemma Path_eqb_neq a b : Path_eqb a b = false <-> a <> b.
Proof.
  unfold Path_eqb.
  destruct (list_eq_dec (list_eq_dec ascii_dec) a b); split; congruence.
Qed.

Lemma chars_eqb_refl a : chars_eqb a a = true.
Proof. unfold chars_eqb. destruct (list_eq_dec ascii_dec a a); congruence. Qed.

Lemma common_nodes_prefix a rest : common_nodes a (a ++ rest) = a.
Proof.
  induction a as [|x a IH]; simpl.
  - reflexivity.
  - rewrite chars_eqb_refl, IH. reflexivity.
Qed.

Lemma subpath_app a rest : subpath (a ++ rest) (depth a) = rest.
Proof.
  unfold subpath, depth, zlen. rewrite Nat2Z.id.
  induction a; simpl; auto.
Qed.

(** ** Setters leave the other fields alone *)

Lemma updateSizes_frame T e e' :
  updateSizes T e = Some e' ->
  link_ e' = link_ e /\ is_hard_linked_ e' = is_hard_linked_ e
  /\ tarpath_ e' = tarpath_ e /\ fs_ e' = fs_ e
  /\ tar_header_style_ e' = tar_header_style_ e.
Proof.
  unfold updateSizes.
  destruct (is_style_None (tar_header_style_ e));
    destruct (assert _); try discriminate;
    destruct (assert _); try discriminate;
    intros H; inversion H; subst; simpl; auto.
Qed.

(** What [updateSizes] stores: the header size, and the sum of header and
    content rounded up to the block. *)
Lemma updateSizes_layout T e e' :
  updateSizes T e = Some e' ->
  exists size,
    size = (if isRegularFile e && negb (is_hard_linked_ e)
            then wrap (header_size_ e' + st_size (fs_ e))
            else header_size_ e')
    /\ blocked_size_ e' = round_up_block size
    /\ children_size_ e' = blocked_size_ e'
    /\ (is_hard_linked_ e = true -> size = T_BLOCKSIZE)
    /\ header_size_ e' <= size <= blocked_size_ e'.
Proof.
  unfold updateSizes.
  destruct (is_style_None (tar_header_style_ e)).
  - match goal with |- context [assert ?c] => destruct c eqn:A1 end;
      simpl; try discriminate.
    match goal with |- context [assert ?c] => destruct c eqn:A2 end;
      simpl; try discriminate.
    intros H; inversion H; subst; clear H. simpl.
    eexists; split; [reflexivity|].
    apply andb_true_iff in A2. destruct A2 as [A2 A3].
    apply Z.leb_le in A2. apply Z.leb_le in A3.
    repeat split; auto.
    intros Hh. rewrite Hh in A1. simpl in A1. apply Z.eqb_eq in A1.
    rewrite Hh in *. rewrite andb_false_r in *. exact A1.
  - match goal with |- context [assert ?c] => destruct c eqn:A1 end;
      simpl; try discriminate.
    match goal with |- context [assert ?c] => destruct c eqn:A2 end;
      simpl; try discriminate.
    intros H; inversion H; subst; clear H. simpl.
    eexists; split; [reflexivity|].
    apply andb_true_iff in A2. destruct A2 as [A2 A3].
    apply Z.leb_le in A2. apply Z.leb_le in A3.
    repeat split; auto.
    intros Hh. rewrite Hh in A1. simpl in A1. apply Z.eqb_eq in A1.
    rewrite Hh in *. rewrite andb_false_r in *. exact A1.
Qed.

(** The layout that the constructors and [updateSizes] leave: the header
    lies within the blocked size. *)
Lemma updateSizes_header_within T e e' :
  updateSizes T e = Some e' -> 0 <= header_size_ e' <= blocked_size_ e'.
Proof.
  intros U.
  destruct (updateSizes_layout _ _ _ U) as (size & _ & _ & _ & _ & Hle).
  split; [|lia].
  revert U. unfold updateSizes.
  destruct (is_style_None (tar_header_style_ e));
    destruct (assert _); try discriminate;
    destruct (assert _); try discriminate;
    intros H; inversion H; subst; cbn [header_size_ set_sizes]; [lia|].
  apply wrap_range.
Qed.

Lemma TarEntry_new_header_within T C ap p b ths rl e :
  TarEntry_new T C ap p b ths rl = Some e ->
  0 <= header_size_ e <= blocked_size_ e.
Proof.
  unfold TarEntry_new.
  match goal with |- context [if ?c then _ else Some ?e0] =>
    destruct (if c then _ else Some e0) as [e1|] end; try discriminate.
  destruct (updateSizes T e1) as [e2|] eqn:U; try discriminate.
  pose proof (updateSizes_header_within _ _ _ U).
  destruct (negb (is_style_None ths));
    [destruct (localtime_fails C _); [discriminate|]|];
    intros H'; inversion H'; subst; assumption.
Qed.

Lemma TarEntry_of_size_header_within size ths :
  0 <= size < SIZE_MOD - T_BLOCKSIZE ->
  0 <= header_size_ (TarEntry_of_size size ths)
    <= blocked_size_ (TarEntry_of_size size ths).
Proof.
  intros Hs. cbn [TarEntry_of_size header_size_ blocked_size_].
  unfold round_up_block.
  assert (0 <= size mod T_BLOCKSIZE < T_BLOCKSIZE)
    by (apply Z.mod_pos_bound; reflexivity).
  destruct (Z.eqb_spec (size mod T_BLOCKSIZE) 0); [lia|].
  rewrite (wrap_small (size + T_BLOCKSIZE)) by (unfold T_BLOCKSIZE in *; lia).
  rewrite wrap_small by (unfold T_BLOCKSIZE in *; lia). lia.
Qed.

(** ** Hard links occupy one header block *)

Lemma updateSizes_one_block T e e' :
  updateSizes T e = Some e' -> is_hard_linked_ e' = true -> one_block e'.
Proof.
  intros H Hh.
  destruct (updateSizes_frame _ _ _ H) as (_ & Hhard & _).
  destruct (updateSizes_layout _ _ _ H) as (size & Hsize & Hb & _ & Hone & Hle).
  rewrite Hhard in Hh. specialize (Hone Hh).
  rewrite Hh, andb_false_r in Hsize.
  unfold one_block. split.
  - congruence.
  - rewrite Hb, Hone. apply round_up_block_one.
Qed.

Lemma rewriteIntoHardLink_spec T e target e' :
  rewriteIntoHardLink T e target = Some e' ->
  is_hard_linked_ e' = true /\ link_ e' = Some (tarpath_ target)
  /\ one_block e'.
Proof.
  unfold rewriteIntoHardLink.
  destruct (updateSizes T _) as [e2|] eqn:U; try discriminate.
  destruct (assert (isHardLink e2)); try discriminate.
  intros H; inversion H; subst; clear H.
  destruct (updateSizes_frame _ _ _ U) as (Hl & Hh & _).
  simpl in Hl, Hh.
  split; [exact Hh|]. split; [exact Hl|].
  eapply updateSizes_one_block; eauto.
Qed.

Lemma fixHardLink_cases T e sd b e' :
  fixHardLink T e sd = Some (b, e') ->
  e' = e \/ exists l, updateSizes T (set_link e (Some l)) = Some e'.
Proof.
  unfold fixHardLink.
  destruct (Path_eqb sd lookupRoot).
  - intros H; inversion H; auto.
  - destruct (link_ e) as [link|]; try discriminate.
    match goal with |- context [if ?c then Some (false, e) else _] => destruct c end.
    + intros H; inversion H; auto.
    + destruct (updateSizes T _) as [e1|] eqn:U; try discriminate.
      intros H; inversion H; subst. right. eauto.
Qed.

(** When the header of a hard-linked entry is one block, the assertions of
    [updateSizes] hold and the layout is that block. *)
Lemma updateSizes_hard_linked_ok T e :
  is_hard_linked_ e = true ->
  is_style_None (tar_header_style_ e) = false ->
  wrap (calculateSize T (fs_ e) (tarpath_ e) (link_ e) true) = T_BLOCKSIZE ->
  updateSizes T e = Some (set_sizes e T_BLOCKSIZE T_BLOCKSIZE T_BLOCKSIZE).
Proof.
  intros Hh Hs Hc. unfold updateSizes. rewrite Hh, Hs, Hc.
  rewrite andb_false_r. reflexivity.
Qed.

(** C4.  After each of the operations that set or update the hard link
    state -- updateSizes, rewriteIntoHardLink, fixHardLink -- a hard-linked
    entry occupies exactly one header block: its blocked size is
    T_BLOCKSIZE (512) and equals its header size, so that no content byte
    is stored for it.  (fixHardLink can return without touching the entry;
    it then keeps the layout that the entry had.)  updateSizes returns,
    its assertions passing, whenever the header of the hard-linked entry
    is computed as one block. *)
Theorem hard_link_is_one_block (T : TarHeaderApi) :
  (forall e e',
      updateSizes T e = Some e' -> is_hard_linked_ e' = true ->
      one_block e' /\ blocked_size_ e' = 512)
  /\ (forall e,
      is_hard_linked_ e = true ->
      is_style_None (tar_header_style_ e) = false ->
      wrap (calculateSize T (fs_ e) (tarpath_ e) (link_ e) true) = T_BLOCKSIZE ->
      exists e', updateSizes T e = Some e' /\ blocked_size_ e' = 512)
  /\ (forall e target e',
      rewriteIntoHardLink T e target = Some e' ->
      is_hard_linked_ e' = true /\ one_block e' /\ blocked_size_ e' = 512)
  /\ (forall e storage_dir b e',
      fixHardLink T e storage_dir = Some (b, e') ->
      is_hard_linked_ e = true -> one_block e ->
      is_hard_linked_ e' = true /\ one_block e' /\ blocked_size_ e' = 512).
Proof.
  split; [|split; [|split]].
  - intros e e' H Hh.
    pose proof (updateSizes_one_block _ _ _ H Hh) as Ho.
    split; [exact Ho | apply Ho].
  - intros e Hh Hs Hc. eexists. split.
    + apply updateSizes_hard_linked_ok; assumption.
    + reflexivity.
  - intros e target e' H.
    destruct (rewriteIntoHardLink_spec _ _ _ _ H) as (Hh & _ & Ho).
    repeat split; try apply Ho; exact Hh.
  - intros e sd b e' H Hh Ho.
    destruct (fixHardLink_cases _ _ _ _ _ H) as [-> | [l U]].
    + repeat split; try apply Ho; exact Hh.
    + destruct (updateSizes_frame _ _ _ U) as (_ & Hh' & _).
      simpl in Hh'. rewrite Hh in Hh'.
      pose proof (updateSizes_one_block _ _ _ U Hh') as Ho'.
      repeat split; try apply Ho'; exact Hh'.
Qed.

Lemma hard_link_is_one_block_witness :
  (updateSizes tar_model hard_v = Some hard_v
   /\ is_hard_linked_ hard_v = true /\ blocked_size_ hard_v = 512)
  /\ (exists e', updateSizes tar_model hard_v = Some e' /\ blocked_size_ e' = 512)
  /\ (rewriteIntoHardLink tar_model plain_v target_v = Some hard_v
      /\ blocked_size_ hard_v = 512)
  /\ (fixHardLink tar_model hard_v (path_of "/a/b") = Some (true, hard_fixed_v)
      /\ is_hard_linked_ hard_fixed_v = true
      /\ blocked_size_ hard_fixed_v = 512).
Proof.
  destruct (hard_link_is_one_block tar_model) as (HU & HO & HR & HF).
  assert (U : updateSizes tar_model hard_v = Some hard_v)
    by (vm_compute; reflexivity).
  assert (R : rewriteIntoHardLink tar_model plain_v target_v = Some hard_v)
    by (vm_compute; reflexivity).
  assert (F : fixHardLink tar_model hard_v (path_of "/a/b")
              = Some (true, hard_fixed_v)) by (vm_compute; reflexivity).
  assert (Hh : is_hard_linked_ hard_v = true) by reflexivity.
  assert (Hs : is_style_None (tar_header_style_ hard_v) = false) by reflexivity.
  assert (Hc : wrap (calculateSize tar_model (fs_ hard_v) (tarpath_ hard_v)
                       (link_ hard_v) true) = T_BLOCKSIZE)
    by (vm_compute; reflexivity).
  split; [|split; [|split]].
  - split; [exact U|]. split; [exact Hh|]. apply (HU _ _ U Hh).
  - exact (HO hard_v Hh Hs Hc).
  - split; [exact R|]. apply (HR _ _ _ R).
  - split; [exact F|].
    destruct (HR _ _ _ R) as (_ & Ho & _).
    destruct (HF _ _ _ _ F Hh Ho) as (F1 & _ & F3). split; assumption.
Defined.

(** ** Resolving a hard link against the storage directory *)

Lemma fixHardLink_root T e : fixHardLink T e lookupRoot = Some (true, e).
Proof. reflexivity. Qed.

Lemma fixHardLink_inside T e sd link c :
  sd <> lookupRoot ->
  link_ e = Some link ->
  commonPrefix sd link = Some c -> depth sd <= depth c ->
  fixHardLink T e sd =
    (e' <- updateSizes T (set_link e (Some (subpath link (depth sd)))) ;;
     Some (true, e')).
Proof.
  intros Hroot Hl Hc Hd. unfold fixHardLink.
  apply Path_eqb_neq in Hroot. rewrite Hroot, Hl, Hc.
  destruct (Z.ltb_spec (depth c) (depth sd)); [lia | reflexivity].
Qed.

Lemma fixHardLink_outside T e sd link :
  sd <> lookupRoot ->
  link_ e = Some link ->
  (commonPrefix sd link = None
   \/ exists c, commonPrefix sd link = Some c /\ depth c < depth sd) ->
  fixHardLink T e sd = Some (false, e).
Proof.
  intros Hroot Hl Hc. unfold fixHardLink.
  apply Path_eqb_neq in Hroot. rewrite Hroot, Hl.
  destruct Hc as [-> | (c & -> & Hd)]; [reflexivity|].
  destruct (Z.ltb_spec (depth c) (depth sd)); [reflexivity | lia].
Qed.

(** A link target that is the storage directory followed by [rest] is cut
    down to [rest]. *)
Lemma fixHardLink_under_storage_dir T e sd rest :
  sd <> lookupRoot -> sd <> [] ->
  link_ e = Some (sd ++ rest) ->
  fixHardLink T e sd =
    (e' <- updateSizes T (set_link e (Some rest)) ;; Some (true, e')).
Proof.
  intros Hroot Hne Hl.
  assert (Hc : commonPrefix sd (sd ++ rest) = Some sd).
  { unfold commonPrefix. rewrite common_nodes_prefix.
    destruct sd; [congruence | reflexivity]. }
  rewrite (fixHardLink_inside T e sd (sd ++ rest) sd Hroot Hl Hc) by lia.
  rewrite subpath_app. reflexivity.
Qed.

(** C3.  A hard-linked entry whose link target lies under the storage
    directory (the longest common prefix of the two is at least as deep as
    the storage directory): fixHardLink does not ask for promotion; it cuts
    the link down to the part below the storage directory, recomputes the
    layout of the entry with updateSizes and returns true.  In particular,
    when the recomputed layout passes the assertions of updateSizes, the
    call returns true with the link rewritten, and a target that is the
    storage directory followed by [rest] becomes [rest]; the assertions
    pass whenever the header of the entry with its shorter link is computed
    as one block.  For the root as storage directory the call returns true
    and leaves the entry as it is. *)
Theorem fixHardLink_rewrites_link (T : TarHeaderApi) (e : TarEntry)
    (storage_dir link c : Path) :
  link_ e = Some link ->
  commonPrefix storage_dir link = Some c ->
  depth storage_dir <= depth c ->
  (storage_dir <> lookupRoot ->
     fixHardLink T e storage_dir =
       (e' <- updateSizes T
                (set_link e (Some (subpath link (depth storage_dir)))) ;;
        Some (true, e'))
     /\ (forall e', fixHardLink T e storage_dir <> Some (false, e'))
     /\ (forall e',
           updateSizes T (set_link e (Some (subpath link (depth storage_dir))))
             = Some e' ->
           fixHardLink T e storage_dir = Some (true, e')
           /\ link_ e' = Some (subpath link (depth storage_dir))
           /\ (forall rest, link = storage_dir ++ rest -> link_ e' = Some rest))
     /\ (is_hard_linked_ e = true ->
         is_style_None (tar_header_style_ e) = false ->
         wrap (calculateSize T (fs_ e) (tarpath_ e)
                 (Some (subpath link (depth storage_dir))) true) = T_BLOCKSIZE ->
         exists e',
           fixHardLink T e storage_dir = Some (true, e')
           /\ link_ e' = Some (subpath link (depth storage_dir))
           /\ blocked_size_ e' = T_BLOCKSIZE))
  /\ fixHardLink T e lookupRoot = Some (true, e).
Proof.
  intros Hl Hc Hd. split; [|apply fixHardLink_root].
  intros Hroot.
  pose proof (fixHardLink_inside T e storage_dir link c Hroot Hl Hc Hd) as E.
  split; [exact E|]. split; [|split].
  - intros e'. rewrite E. destruct (updateSizes T _); discriminate.
  - intros e' U. rewrite E, U. split; [reflexivity|].
    destruct (updateSizes_frame _ _ _ U) as (Hlink & _). simpl in Hlink.
    split; [exact Hlink|].
    intros rest ->. rewrite Hlink, subpath_app. reflexivity.
  - intros Hh Hs Hsz. rewrite E.
    rewrite (updateSizes_hard_linked_ok T
               (set_link e (Some (subpath link (depth storage_dir)))))
      by assumption.
    eexists. split; [reflexivity|]. split; reflexivity.
Qed.

Lemma fixHardLink_rewrites_link_witness :
  link_ hard_v = Some (path_of "/a/b/c/d")
  /\ fixHardLink tar_model hard_v (path_of "/a/b") = Some (true, hard_fixed_v)
  /\ link_ hard_fixed_v = Some (path_of "c/d")
  /\ (exists e', fixHardLink tar_model hard_v (path_of "/a/b") = Some (true, e')
                 /\ blocked_size_ e' = T_BLOCKSIZE)
  /\ fixHardLink tar_model hard_v lookupRoot = Some (true, hard_v).
Proof.
  assert (Hl : link_ hard_v = Some (path_of "/a/b/c/d")) by reflexivity.
  assert (Hc : commonPrefix (path_of "/a/b") (path_of "/a/b/c/d")
               = Some (path_of "/a/b")) by reflexivity.
  assert (Hd : depth (path_of "/a/b") <= depth (path_of "/a/b")) by lia.
  assert (Hroot : path_of "/a/b" <> lookupRoot) by (vm_compute; discriminate).
  assert (U : updateSizes tar_model
                (set_link hard_v
                   (Some (subpath (path_of "/a/b/c/d") (depth (path_of "/a/b")))))
              = Some hard_fixed_v) by (vm_compute; reflexivity).
  assert (Hh : is_hard_linked_ hard_v = true) by reflexivity.
  assert (Hs : is_style_None (tar_header_style_ hard_v) = false) by reflexivity.
  assert (Hz : wrap (calculateSize tar_model (fs_ hard_v) (tarpath_ hard_v)
                       (Some (subpath (path_of "/a/b/c/d") (depth (path_of "/a/b"))))
                       true) = T_BLOCKSIZE) by (vm_compute; reflexivity).
  destruct (fixHardLink_rewrites_link tar_model hard_v _ _ _ Hl Hc Hd)
    as (Hin & Hr).
  destruct (Hin Hroot) as (_ & _ & Hok & Hone).
  destruct (Hok _ U) as (F & _ & Hrest).
  destruct (Hone Hh Hs Hz) as (e' & F' & _ & Hb).
  split; [exact Hl|]. split; [exact F|]. split; [|split; [|exact Hr]].
  - apply (Hrest (path_of "c/d")). reflexivity.
  - exists e'. split; assumption.
Defined.

(** C8 (as amended).  A hard-linked entry whose link target shares with
    the storage directory a prefix that is shorter than the storage
    directory, or no prefix at all, the storage directory not being the
    root: fixHardLink returns false and the entry after the call is the
    entry before it -- link target, sizes and tarpath included. *)
Theorem fixHardLink_needs_promotion (T : TarHeaderApi) (e : TarEntry)
    (storage_dir link : Path) :
  storage_dir <> lookupRoot ->
  link_ e = Some link ->
  (commonPrefix storage_dir link = None
   \/ exists c, commonPrefix storage_dir link = Some c
                /\ depth c < depth storage_dir) ->
  exists e',
    fixHardLink T e storage_dir = Some (false, e')
    /\ e' = e
    /\ link_ e' = link_ e
    /\ header_size_ e' = header_size_ e
    /\ blocked_size_ e' = blocked_size_ e
    /\ children_size_ e' = children_size_ e
    /\ tarpath_ e' = tarpath_ e.
Proof.
  intros Hroot Hl Hc. exists e.
  rewrite (fixHardLink_outside T e storage_dir link Hroot Hl Hc).
  repeat split; reflexivity.
Qed.

Lemma fixHardLink_needs_promotion_witness :
  link_ hard_outside_v = Some (path_of "/a/x/y")
  /\ exists e',
      fixHardLink tar_model hard_outside_v (path_of "/a/b") = Some (false, e')
      /\ e' = hard_outside_v.
Proof.
  split; [reflexivity|].
  destruct (fixHardLink_needs_promotion tar_model hard_outside_v
              (path_of "/a/b") (path_of "/a/x/y")) as (e' & F & E & _).
  - vm_compute; discriminate.
  - reflexivity.
  - right. exists (path_of "/a"). split; [reflexivity | vm_compute; reflexivity].
  - exists e'. split; assumption.
Defined.

(** C8 as stated fails when the storage directory is the root: a link
    target stored relative to the root ("a/x/y") has no common prefix with
    the root path, and yet fixHardLink returns true. *)
Lemma fixHardLink_root_never_promotes :
  link_ hard_relative_v = Some (path_of "a/x/y")
  /\ is_hard_linked_ hard_relative_v = true
  /\ commonPrefix lookupRoot (path_of "a/x/y") = None
  /\ fixHardLink tar_model hard_relative_v lookupRoot
     = Some (true, hard_relative_v)
  /\ ~ (exists e', fixHardLink tar_model hard_relative_v lookupRoot
                   = Some (false, e')).
Proof.
  repeat split; try reflexivity.
  intros (e' & H). rewrite fixHardLink_root in H. discriminate.
Qed.

(** ** Symbolic links *)

Lemma symlink_not_regular fs :
  fs_isSymbolicLink fs = true -> fs_isRegularFile fs = false.
Proof.
  unfold fs_isSymbolicLink, fs_isRegularFile. intros H.
  apply Z.eqb_eq in H. rewrite H. reflexivity.
Qed.

Lemma updateSizes_symlink T e e' :
  updateSizes T e = Some e' -> isSymbolicLink e = true ->
  blocked_size_ e' = round_up_block (header_size_ e').
Proof.
  intros U Hs.
  destruct (updateSizes_layout _ _ _ U) as (size & Hsize & Hb & _).
  unfold isRegularFile in Hsize. unfold isSymbolicLink in Hs.
  rewrite (symlink_not_regular _ Hs) in Hsize. simpl in Hsize.
  congruence.
Qed.

(** C9 (as amended).  For a symbolic link entry made by the constructor
    (with a header style, so that the catalog fragments are prepared): the
    size field of its catalog line is the text "0", whatever the length of
    the link destination; the link is the destination read from the file
    system; no content is counted, the blocked size being the header size
    rounded up to the block. *)
Theorem symlink_entry_layout (T : TarHeaderApi) (C : CatalogApi)
    (ap p : Path) (b : FileStat) (ths : TarHeaderStyle)
    (readlink : option chars) (e : TarEntry) :
  fs_isSymbolicLink b = true ->
  ths <> THS_None ->
  TarEntry_new T C ap p b ths readlink = Some e ->
  tv_line_size e = lit "0"
  /\ (exists destination,
        readlink = Some destination
        /\ link_ e = Some (Path_lookup
             (firstn (Z.to_nat (if PATH_MAX <=? zlen destination
                                then PATH_MAX - 1 else zlen destination))
                     destination)))
  /\ blocked_size_ e = round_up_block (header_size_ e).
Proof.
  intros Hs Hths. unfold TarEntry_new.
  unfold isSymbolicLink at 1. simpl fs_. rewrite Hs.
  destruct readlink as [destination|]; try discriminate.
  match goal with |- context [updateSizes T ?x] =>
    destruct (updateSizes T x) as [e2|] eqn:U end; try discriminate.
  assert (Hn : is_style_None ths = false) by (destruct ths; simpl; congruence).
  rewrite Hn. simpl negb. cbv iota.
  destruct (localtime_fails C (tv_sec (st_mtim b))); [discriminate|].
  intros H; inversion H; subst; clear H.
  assert (Hsym : isSymbolicLink
            (set_link (mk_TarEntry ap p p b None false ths 0 0 0 false
                         [] [] [] [] [] 0 []) 
               (Some (Path_lookup
                  (firstn (Z.to_nat (if PATH_MAX <=? zlen destination
                                     then PATH_MAX - 1 else zlen destination))
                     destination)))) = true) by exact Hs.
  pose proof (updateSizes_symlink _ _ _ U Hsym) as Hb.
  destruct (updateSizes_frame _ _ _ U) as (Hl & _).
  split; [|split].
  - simpl. unfold make_tv_line_size. rewrite Hs. reflexivity.
  - exists destination. split; [reflexivity|]. simpl. exact Hl.
  - simpl. exact Hb.
Qed.

Lemma symlink_entry_layout_witness :
  tv_line_size symlink_v = lit "0"
  /\ link_ symlink_v = Some (path_of "target")
  /\ header_size_ symlink_v = 512 /\ blocked_size_ symlink_v = 512.
Proof.
  destruct (symlink_entry_layout tar_model catalog_model
              (path_of "/home/u/link") (path_of "/home/u/link")
              (sample_stat mode_lnk_777 6) THS_Full (Some (lit "target"))
              symlink_v) as (Hsz & _ & Hb).
  - reflexivity.
  - discriminate.
  - vm_compute; reflexivity.
  - split; [exact Hsz|]. split; [reflexivity|]. split; [reflexivity|].
    rewrite Hb. reflexivity.
Defined.

(** C9 as stated fails in its first part: the link "link -> target" has a
    destination of six characters, and the size field of its catalog line
    is "0", not "6". *)
Lemma symlink_size_field_is_zero :
  entry_symlink = Some symlink_v
  /\ isSymbolicLink symlink_v = true
  /\ link_ symlink_v = Some (path_of "target")
  /\ c_str_len (path_of "target") = 6
  /\ tv_line_size symlink_v = lit "0"
  /\ tv_line_size symlink_v <> print_signed (c_str_len (path_of "target")).
Proof.
  repeat split; try (vm_compute; reflexivity).
  vm_compute. discriminate.
Qed.

(** ** Serving byte ranges *)

Lemma zlen_cons {A} (x : A) l : zlen (x :: l) = 1 + zlen l.
Proof. unfold zlen. cbn [List.length]. lia. Qed.

Lemma zlen_nonneg {A} (l : list A) : 0 <= zlen l.
Proof. unfold zlen. lia. Qed.

Lemma zlen_app {A} (a b : list A) : zlen (a ++ b) = zlen a + zlen b.
Proof. unfold zlen. rewrite length_app. lia. Qed.

Lemma zeros_0 : zeros 0 = [].
Proof. reflexivity. Qed.

(** C10.  A request that starts at or after the blocked size stores
    nothing and returns 0, without any failure being logged; a request
    into the content of an entry whose file cannot be opened, or cannot be
    read, returns 0 as well: the returned value alone does not tell the
    two apart. *)
Theorem copy_past_the_end_returns_zero (T : TarHeaderApi) :
  (forall disk e size from,
      0 <= size ->
      header_size_ e <= blocked_size_ e ->
      blocked_size_ e <= from ->
      copy T disk e size from = Returned 0 [] false)
  /\ (forall disk e size from,
      virtual_file_ e = false ->
      0 < size -> 0 <= from ->
      header_size_ e <= from < blocked_size_ e ->
      (disk (abspath_ e) = None
       \/ exists f, disk (abspath_ e) = Some f /\ f_ioerr f = true) ->
      copy T disk e size from = Returned 0 [] true).
Proof.
  split.
  - intros disk e size from Hsize Hwf Hfrom.
    unfold copy, copy_header, copy_content, copy_padding.
    replace (from <? header_size_ e) with false
      by (symmetry; apply Z.ltb_ge; lia).
    rewrite andb_false_r.
    replace (from <? blocked_size_ e) with false
      by (symmetry; apply Z.ltb_ge; lia).
    rewrite andb_false_r. cbv beta iota.
    change (0 mod T_BLOCKSIZE =? 0) with true. cbv beta iota zeta.
    replace (size <? 0) with false by (symmetry; apply Z.ltb_ge; lia).
    reflexivity.
  - intros disk e size from Hv Hsize Hfrom0 Hfrom Hbad.
    unfold copy, copy_header, copy_content.
    replace (from <? header_size_ e) with false
      by (symmetry; apply Z.ltb_ge; lia).
    rewrite andb_false_r.
    replace (0 <? size) with true by (symmetry; apply Z.ltb_lt; lia).
    replace (0 <? blocked_size_ e) with true
      by (symmetry; apply Z.ltb_lt; lia).
    replace (header_size_ e <=? from) with true
      by (symmetry; apply Z.leb_le; lia).
    replace (from <? blocked_size_ e) with true
      by (symmetry; apply Z.ltb_lt; lia).
    cbn [andb]. cbv beta iota. rewrite Hv.
    destruct Hbad as [-> | (f & -> & Hio)]; [reflexivity|].
    unfold pread. rewrite Hio. reflexivity.
Qed.

Lemma copy_past_the_end_returns_zero_witness :
  copy tar_model (disk_with (path_of "/home/u/testing") (sample_file 745))
       entry745_v 100 1536 = Returned 0 [] false
  /\ copy tar_model no_disk entry745_v 100 512 = Returned 0 [] true.
Proof.
  destruct (copy_past_the_end_returns_zero tar_model) as (H1 & H2).
  split.
  - apply H1.
    + lia.
    + vm_compute; congruence.
    + vm_compute; congruence.
  - apply H2.
    + reflexivity.
    + lia.
    + lia.
    + vm_compute; split; congruence.
    + left. reflexivity.
Defined.

Lemma padding_after_range copied size :
  0 <= size -> 0 <= padding_after copied size < T_BLOCKSIZE.
Proof.
  intros Hs. unfold padding_after.
  assert (0 <= copied mod T_BLOCKSIZE < T_BLOCKSIZE)
    by (apply Z.mod_pos_bound; reflexivity).
  destruct (Z.eqb_spec (copied mod T_BLOCKSIZE) 0);
    destruct (Z.ltb_spec size 0);
    try destruct (Z.ltb_spec size (T_BLOCKSIZE - copied mod T_BLOCKSIZE));
    unfold T_BLOCKSIZE in *; lia.
Qed.

(** A request that starts inside the content of an on-disk entry. *)
Lemma copy_content_on_disk T disk e size from :
  virtual_file_ e = false ->
  0 < size -> 0 <= from ->
  header_size_ e <= from < blocked_size_ e ->
  copy T disk e size from =
    match disk (abspath_ e) with
    | None => Returned 0 [] true
    | Some fd =>
        match pread fd size (wrap (from - header_size_ e)) with
        | None => Returned 0 [] true
        | Some data =>
            let l := zlen data in
            let pad := padding_after (wrap (0 + l)) (wrap (size - l)) in
            Returned (wrap (wrap (0 + l) + pad)) (data ++ zeros pad) false
        end
    end.
Proof.
  intros Hv Hsize Hfrom0 Hfrom.
  unfold copy, copy_header, copy_content, copy_padding, padding_after.
  replace (from <? header_size_ e) with false
    by (symmetry; apply Z.ltb_ge; lia).
  rewrite andb_false_r.
  replace (0 <? size) with true by (symmetry; apply Z.ltb_lt; lia).
  replace (0 <? blocked_size_ e) with true
    by (symmetry; apply Z.ltb_lt; lia).
  replace (header_size_ e <=? from) with true
    by (symmetry; apply Z.leb_le; lia).
  replace (from <? blocked_size_ e) with true
    by (symmetry; apply Z.ltb_lt; lia).
  cbn [andb]. cbv beta iota. rewrite Hv.
  destruct (disk (abspath_ e)) as [fd|]; [|reflexivity].
  destruct (pread fd size _) as [data|]; reflexivity.
Qed.

(** C7 (as amended).  A request into the content of an on-disk entry: when
    the file cannot be opened, or pread fails, a failure is logged and the
    call returns 0 with nothing stored.  When pread delivers bytes, however
    few, no failure is logged: the call stores the bytes delivered, then
    zero bytes up to the next multiple of the block size of the count (as
    far as the request allows), and returns the number of bytes stored. *)
Theorem copy_reports_open_and_read_errors_only (T : TarHeaderApi)
    (disk : FileSystem) (e : TarEntry) (size from : Z) :
  virtual_file_ e = false ->
  0 < size -> 0 <= from ->
  header_size_ e <= from < blocked_size_ e ->
  (disk (abspath_ e) = None ->
     copy T disk e size from = Returned 0 [] true)
  /\ (forall f, disk (abspath_ e) = Some f -> f_ioerr f = true ->
     copy T disk e size from = Returned 0 [] true)
  /\ (forall f, disk (abspath_ e) = Some f -> f_ioerr f = false ->
     let data := firstn (Z.to_nat size)
                   (skipn (Z.to_nat (wrap (from - header_size_ e))) (f_data f)) in
     let l := zlen data in
     let pad := padding_after (wrap (0 + l)) (wrap (size - l)) in
     copy T disk e size from
       = Returned (wrap (wrap (0 + l) + pad)) (data ++ zeros pad) false
     /\ 0 <= pad < T_BLOCKSIZE).
Proof.
  intros Hv Hsize Hfrom0 Hfrom.
  rewrite (copy_content_on_disk T disk e size from Hv Hsize Hfrom0 Hfrom).
  split; [|split].
  - intros ->. reflexivity.
  - intros f -> Hio. unfold pread. rewrite Hio. reflexivity.
  - intros f -> Hio. unfold pread. rewrite Hio. cbv zeta.
    split; [reflexivity|].
    apply padding_after_range. apply wrap_range.
Qed.

(** The file of [entry745] after it has been cut down to 100 bytes. *)
Lemma copy_reports_open_and_read_errors_only_witness :
  copy tar_model no_disk entry745_v 512 512 = Returned 0 [] true
  /\ copy tar_model (disk_with (path_of "/home/u/testing") (sample_file 100))
          entry745_v 512 512
     = Returned 512 (repeat "x"%char 100 ++ zeros 412) false.
Proof.
  assert (Hv : virtual_file_ entry745_v = false) by reflexivity.
  assert (Hsize : 0 < 512) by lia.
  assert (Hfrom0 : 0 <= 512) by lia.
  assert (Hfrom : header_size_ entry745_v <= 512 < blocked_size_ entry745_v)
    by (vm_compute; split; congruence).
  split.
  - destruct (copy_reports_open_and_read_errors_only tar_model no_disk
                entry745_v 512 512 Hv Hsize Hfrom0 Hfrom) as (H & _).
    apply H. reflexivity.
  - destruct (copy_reports_open_and_read_errors_only tar_model
                (disk_with (path_of "/home/u/testing") (sample_file 100))
                entry745_v 512 512 Hv Hsize Hfrom0 Hfrom) as (_ & _ & H).
    destruct (H (sample_file 100) eq_refl eq_refl) as (Hc & _).
    rewrite Hc. vm_compute. reflexivity.
Defined.

(** C7 as stated fails for a short read: the catalog lists 745 bytes for
    the file, the file has only 100 bytes left, and the call that serves
    the first content block returns a full block -- the 100 bytes and 412
    zero bytes -- without logging a failure. *)
Lemma copy_zero_fills_a_short_read :
  st_size (fs_ entry745_v) = 745
  /\ virtual_file_ entry745_v = false
  /\ header_size_ entry745_v = 512 /\ blocked_size_ entry745_v = 1536
  /\ pread (sample_file 100) 512 0 = Some (repeat "x"%char 100)
  /\ copy tar_model (disk_with (path_of "/home/u/testing") (sample_file 100))
          entry745_v 512 512
     = Returned 512 (repeat "x"%char 100 ++ zeros 412) false.
Proof.
  repeat split; vm_compute; reflexivity.
Qed.

(** ** Requests on block boundaries *)

Lemma zlen_firstn {A} (l : list A) n :
  0 <= n -> zlen (firstn (Z.to_nat n) l) = Z.min n (zlen l).
Proof. intros Hn. unfold zlen. rewrite length_firstn. lia. Qed.

Lemma zlen_skipn {A} (l : list A) n :
  0 <= n <= zlen l -> zlen (skipn (Z.to_nat n) l) = zlen l - n.
Proof. intros Hn. unfold zlen in *. rewrite length_skipn. lia. Qed.

Lemma slice_inside a r from size :
  0 <= from -> 0 <= size -> from + size <= zlen a ->
  slice (a ++ r) from size = slice a from size.
Proof.
  intros Hf Hs Hl. unfold slice, zlen in *.
  rewrite skipn_app, firstn_app, length_skipn.
  replace (Z.to_nat size - (List.length a - Z.to_nat from))%nat with 0%nat by lia.
  cbn [firstn]. apply app_nil_r.
Qed.

Lemma slice_across a r from size :
  0 <= from <= zlen a -> zlen a <= from + size ->
  slice (a ++ r) from size
  = skipn (Z.to_nat from) a ++ slice r 0 (size - (zlen a - from)).
Proof.
  intros Hf Hl. unfold slice, zlen in *.
  rewrite skipn_app, firstn_app, length_skipn.
  rewrite firstn_all2 by (rewrite length_skipn; lia).
  replace (Z.to_nat from - List.length a)%nat with 0%nat by lia.
  cbn [skipn Z.to_nat]. f_equal. f_equal. lia.
Qed.

Lemma slice_beyond a r from size :
  zlen a <= from ->
  slice (a ++ r) from size = slice r (from - zlen a) size.
Proof.
  intros Hf. unfold slice, zlen in *.
  rewrite skipn_app. rewrite skipn_all2 by lia. cbn [app].
  f_equal. f_equal. lia.
Qed.

Lemma slice_zeros n size :
  0 <= n -> 0 <= size -> slice (zeros n) 0 size = zeros (Z.min size n).
Proof.
  intros Hn Hs. unfold slice, zeros. cbn [Z.to_nat skipn].
  replace (Z.to_nat (Z.min size n)) with (Nat.min (Z.to_nat size) (Z.to_nat n)) by lia.
  generalize (Z.to_nat size) (Z.to_nat n). clear.
  induction n as [|k IH]; intros m; [destruct m; reflexivity|].
  destruct m as [|m]; [reflexivity|]. cbn [firstn repeat Nat.min]. f_equal. apply IH.
Qed.

Lemma zlen_nil {A} (l : list A) : zlen l = 0 -> l = [].
Proof. destruct l; [reflexivity|]. rewrite zlen_cons. pose proof (zlen_nonneg l). lia. Qed.

(** The padding after [c] bytes, when [p] more bytes reach the block
    boundary. *)
Lemma remainder_is_padding c p :
  0 <= p < T_BLOCKSIZE -> (c + p) mod T_BLOCKSIZE = 0 ->
  (if c mod T_BLOCKSIZE =? 0 then 0 else T_BLOCKSIZE - c mod T_BLOCKSIZE) = p.
Proof.
  unfold T_BLOCKSIZE. intros Hp Hm.
  destruct (Z.eqb_spec (c mod 512) 0) as [Hz|Hz];
    Z.div_mod_to_equations; lia.
Qed.

Lemma content_then_padding disk e f size buf copied from :
  virtual_file_ e = false ->
  disk (abspath_ e) = Some f -> f_ioerr f = false ->
  laid_out e (f_data f) ->
  0 < size < SIZE_MOD ->
  0 <= copied -> copied mod T_BLOCKSIZE = 0 ->
  copied + (blocked_size_ e - from) < SIZE_MOD ->
  copied < blocked_size_ e ->
  header_size_ e <= from < blocked_size_ e ->
  from mod T_BLOCKSIZE = 0 ->
  match copy_content disk e (size, buf, copied, from) with
  | inl st => copy_padding st
  | inr out => out
  end
  = Returned (copied + Z.min size (blocked_size_ e - from))
             (buf ++ slice (f_data f ++ zeros (padding_of e (f_data f)))
                           (from - header_size_ e) size)
             false.
Proof.
  intros Hv Hd Hio (H0 & Hh & Hb & Hle & Hlt & Hmax) Hsize Hc0 Hcm Hcmax Hcb
         Hfrom Hfm.
  set (data := f_data f) in *. set (H := header_size_ e) in *.
  set (B := blocked_size_ e) in *. set (L := zlen data) in *.
  set (P := padding_of e data). 
  assert (HP : P = B - H - L) by reflexivity.
  pose proof (zlen_nonneg data) as HL0. fold L in HL0.
  assert (Hoff : 0 <= from - H < L).
  { unfold T_BLOCKSIZE in *. Z.div_mod_to_equations. lia. }
  unfold copy_content. fold H B.
  replace (0 <? size) with true by (symmetry; apply Z.ltb_lt; lia).
  replace (copied <? B) with true by (symmetry; apply Z.ltb_lt; lia).
  replace (H <=? from) with true by (symmetry; apply Z.leb_le; lia).
  replace (from <? B) with true by (symmetry; apply Z.ltb_lt; lia).
  cbn [andb]. rewrite Hv, Hd. unfold pread. rewrite Hio.
  rewrite (wrap_small (from - H)) by lia.
  fold data. fold (slice data (from - H) size).
  assert (Hl : zlen (slice data (from - H) size) = Z.min size (L - (from - H))).
  { unfold slice. rewrite zlen_firstn by lia. rewrite zlen_skipn by (fold L; lia).
    reflexivity. }
  unfold copy_padding. rewrite Hl.
  destruct (Z.le_gt_cases size (L - (from - H))) as [Hcase|Hcase].
  - (* the request ends inside the content *)
    rewrite Z.min_l by lia.
    rewrite (wrap_small (size - size)) by lia.
    rewrite (wrap_small (copied + size)) by lia.
    replace (size - size) with 0 by lia.
    assert (Hr : (if 0 <? (if (copied + size) mod T_BLOCKSIZE =? 0 then 0
                           else T_BLOCKSIZE - (copied + size) mod T_BLOCKSIZE)
                  then 0
                  else (if (copied + size) mod T_BLOCKSIZE =? 0 then 0
                        else T_BLOCKSIZE - (copied + size) mod T_BLOCKSIZE)) = 0).
    { assert (0 <= (copied + size) mod T_BLOCKSIZE < T_BLOCKSIZE)
        by (apply Z.mod_pos_bound; reflexivity).
      destruct (Z.eqb_spec ((copied + size) mod T_BLOCKSIZE) 0); [reflexivity|].
      destruct (Z.ltb_spec 0 (T_BLOCKSIZE - (copied + size) mod T_BLOCKSIZE)); lia. }
    rewrite Hr. rewrite wrap_small by lia.
    rewrite Z.min_l by lia.
    rewrite slice_inside by (fold L; lia).
    rewrite zeros_0, app_nil_r. f_equal. lia.
  - (* the request reaches the padding *)
    rewrite Z.min_r by lia.
    rewrite (wrap_small (size - _)) by lia.
    rewrite (wrap_small (copied + _)) by lia.
    rewrite (remainder_is_padding (copied + (L - (from - H))) P).
    2: { unfold T_BLOCKSIZE in *. lia. }
    2: { replace (copied + (L - (from - H)) + P) with (copied + (B - from)) by lia.
         unfold T_BLOCKSIZE in *. Z.div_mod_to_equations. lia. }
    assert (HP0 : 0 <= P < T_BLOCKSIZE) by (unfold T_BLOCKSIZE in *; lia).
    rewrite slice_across by (fold L; lia). fold L.
    rewrite slice_zeros by lia.
    assert (Hs : slice data (from - H) size = skipn (Z.to_nat (from - H)) data).
    { unfold slice. apply firstn_all2.
      pose proof (zlen_skipn data (from - H)) as Hk. fold L in Hk.
      unfold zlen in *. lia. }
    rewrite Hs.
    destruct (Z.ltb_spec (size - (L - (from - H))) P) as [Hp|Hp].
    + rewrite wrap_small by lia.
      rewrite Z.min_l by lia. rewrite Z.min_l by lia.
      rewrite <- app_assoc. f_equal. lia.
    + rewrite wrap_small by lia.
      rewrite Z.min_r by lia. rewrite Z.min_r by lia.
      rewrite <- app_assoc. f_equal. lia.
Qed.

(** A request that starts on a block boundary gets what the design
    promises: min(size, blocked_size - from) bytes, which are the bytes of
    the stream of the entry -- header, content, zero padding -- from
    [from] on. *)
Theorem copy_block_aligned T disk e f hdr size from :
  virtual_file_ e = false ->
  disk (abspath_ e) = Some f -> f_ioerr f = false ->
  header_image T e = Some hdr -> zlen hdr = header_size_ e ->
  laid_out e (f_data f) ->
  0 < size < SIZE_MOD ->
  0 <= from < blocked_size_ e -> from mod T_BLOCKSIZE = 0 ->
  copy T disk e size from
  = Returned (Z.min size (blocked_size_ e - from))
      (slice (entry_stream hdr (f_data f) (blocked_size_ e)) from size)
      false.
Proof.
  intros Hv Hd Hio Hi Hhl Hlay Hsize Hfrom Hfm.
  pose proof Hlay as (H0 & Hh & Hb & Hle & Hlt & Hmax).
  pose proof (zlen_nonneg (f_data f)) as HL0.
  unfold entry_stream. rewrite Hhl. fold (padding_of e (f_data f)).
  unfold copy, copy_header.
  replace (0 <? size) with true by (symmetry; apply Z.ltb_lt; lia).
  destruct (Z.ltb_spec from (header_size_ e)) as [Hin|Hout].
  - (* the request starts in the header *)
    cbn [andb]. rewrite Hi.
    rewrite (wrap_small (header_size_ e - from)) by lia.
    assert (Hlen : (if size <? header_size_ e - from then size
                    else header_size_ e - from)
                   = Z.min size (header_size_ e - from))
      by (destruct (Z.ltb_spec size (header_size_ e - from)); lia).
    rewrite Hlen. clear Hlen.
    destruct (Z.le_gt_cases size (header_size_ e - from)) as [Hs|Hs].
    + (* and ends in it *)
      rewrite Z.min_l by lia.
      rewrite (wrap_small (from + size)) by lia.
      replace (from + size <=? header_size_ e) with true
        by (symmetry; apply Z.leb_le; lia).
      replace (size - size) with 0 by lia.
      unfold copy_content. change (wrap 0) with 0. cbn [Z.ltb andb].
      change (0 <? 0) with false. cbn [andb].
      unfold copy_padding. rewrite (wrap_small (0 + size)) by lia.
      assert (Hr : (if 0 <? (if (0 + size) mod T_BLOCKSIZE =? 0 then 0
                           else T_BLOCKSIZE - (0 + size) mod T_BLOCKSIZE)
                  then 0
                  else (if (0 + size) mod T_BLOCKSIZE =? 0 then 0
                        else T_BLOCKSIZE - (0 + size) mod T_BLOCKSIZE)) = 0).
      { assert (0 <= (0 + size) mod T_BLOCKSIZE < T_BLOCKSIZE)
          by (apply Z.mod_pos_bound; reflexivity).
        destruct (Z.eqb_spec ((0 + size) mod T_BLOCKSIZE) 0); [reflexivity|].
        destruct (Z.ltb_spec 0 (T_BLOCKSIZE - (0 + size) mod T_BLOCKSIZE)); lia. }
      rewrite Hr. rewrite wrap_small by lia.
      rewrite Z.min_l by lia.
      rewrite slice_inside by lia.
      rewrite zeros_0, app_nil_r. cbn [app]. f_equal. lia.
    + (* and goes on after it *)
      rewrite Z.min_r by lia.
      rewrite (wrap_small (from + _)) by lia.
      replace (from + (header_size_ e - from)) with (header_size_ e) by lia.
      rewrite Z.leb_refl.
      rewrite (wrap_small (size - _)) by lia.
      rewrite (wrap_small (0 + _)) by lia.
      cbn [app].
      rewrite (firstn_all2 (n := Z.to_nat (header_size_ e - from)))
        by (pose proof (zlen_skipn hdr from); unfold zlen in *; lia).
      rewrite slice_across by lia. rewrite Hhl.
      destruct (Z.eq_dec (header_size_ e) (blocked_size_ e)) as [Heq|Hneq].
      * (* an entry without content *)
        assert (Hnil : f_data f = []) by (apply zlen_nil; lia).
        unfold copy_content.
        replace (header_size_ e <? blocked_size_ e) with false
          by (symmetry; apply Z.ltb_ge; lia).
        rewrite !andb_false_r.
        unfold copy_padding.
        replace ((0 + (header_size_ e - from)) mod T_BLOCKSIZE) with 0
          by (unfold T_BLOCKSIZE in *; Z.div_mod_to_equations; lia).
        cbn [Z.eqb]. 
        replace (size - (header_size_ e - from) <? 0) with false
          by (symmetry; apply Z.ltb_ge; lia).
        rewrite wrap_small by lia.
        rewrite Z.min_r by lia.
        rewrite Hnil. unfold padding_of.
        replace (blocked_size_ e - header_size_ e - zlen (@nil ascii)) with 0
          by (change (zlen (@nil ascii)) with 0; lia).
        rewrite zeros_0. cbn [app].
        unfold slice. rewrite skipn_nil, firstn_nil.
        f_equal. lia.
      * rewrite (content_then_padding disk e f _ _ _ _ Hv Hd Hio Hlay).
        -- replace (header_size_ e - header_size_ e) with 0 by lia.
           f_equal.
           destruct (Z.le_gt_cases (size - (header_size_ e - from))
                       (blocked_size_ e - header_size_ e)); lia.
        -- lia.
        -- lia.
        -- unfold T_BLOCKSIZE in *; Z.div_mod_to_equations; lia.
        -- lia.
        -- lia.
        -- lia.
        -- exact Hh.
  - (* the request starts after the header *)
    cbn [andb].
    rewrite (content_then_padding disk e f _ _ _ _ Hv Hd Hio Hlay); try lia.
    + rewrite (slice_beyond hdr) by lia. rewrite Hhl. cbn [app]. reflexivity.
    + reflexivity.
Qed.

Lemma copy_block_aligned_example :
  copy tar_model (disk_with (path_of "/home/u/testing") (sample_file 745))
       entry745_v 10000 512
  = Returned 1024 (repeat "x"%char 745 ++ zeros 279) false.
Proof.
  assert (Hi : header_image tar_model entry745_v = Some header745_v)
    by (vm_compute; reflexivity).
  rewrite (copy_block_aligned tar_model _ entry745_v (sample_file 745)
             header745_v 10000 512 eq_refl eq_refl eq_refl Hi eq_refl).
  - vm_compute. reflexivity.
  - repeat split; vm_compute; congruence.
  - vm_compute. split; reflexivity.
  - vm_compute. split; congruence.
  - reflexivity.
Qed.

(** C1, the failing input.  The entry of 745 bytes occupies 1536 bytes:
    header [0,512), content [512,1257), padding [1257,1536).  A request
    for 100 bytes at offset 1300, inside the padding, stores nothing and
    returns 0, where min(100, 1536-1300) = 100 zero bytes are due; a
    request for 10000 bytes at offset 600 returns 1024 bytes, more than
    the 936 that the entry has left.  When the 745 bytes are those of a
    virtual file, the request at offset 1300 reads past the end of the
    content vector. *)
Lemma copy_pads_from_the_count_not_the_offset :
  header_size_ entry745_v = 512 /\ blocked_size_ entry745_v = 1536
  /\ copy tar_model (disk_with (path_of "/home/u/testing") (sample_file 745))
          entry745_v 100 1300 = Returned 0 [] false
  /\ Z.min 100 (blocked_size_ entry745_v - 1300) = 100
  /\ copy tar_model (disk_with (path_of "/home/u/testing") (sample_file 745))
          entry745_v 10000 600
     = Returned 1024 (repeat "x"%char 657 ++ zeros 367) false
  /\ Z.min 10000 (blocked_size_ entry745_v - 600) = 936
  /\ virtual_file_ virtual_v = true /\ zlen (content virtual_v) = 745
  /\ copy tar_model no_disk virtual_v 100 1300 = Undefined.
Proof.
  repeat split; vm_compute; reflexivity.
Qed.

(** ** The fingerprint *)

Lemma le_bytes_n_length n v : List.length (le_bytes_n n v) = n.
Proof. revert v. induction n; simpl; intros; auto. Qed.

Lemma N_of_ascii_bound a : (0 <= Z.of_N (N_of_ascii a) < 256).
Proof.
  pose proof (N_ascii_bounded a). lia.
Qed.

Lemma le_bytes_of_le_bytes l :
  le_bytes_n (List.length l) (of_le_bytes l) = l.
Proof.
  induction l as [|a l IH]; [reflexivity|].
  cbn [le_bytes_n of_le_bytes List.length].
  pose proof (N_of_ascii_bound a) as Ha.
  f_equal.
  - rewrite (Z.mul_comm 256), Z_mod_plus_full, Z.mod_small by exact Ha.
    rewrite N2Z.id. apply ascii_N_embedding.
  - rewrite (Z.mul_comm 256), Z_div_plus_full by lia.
    rewrite Z.div_small by exact Ha. exact IH.
Qed.

(** Swapping on a little-endian host leaves the big-endian bytes in
    memory; a big-endian host has them there already. *)
Lemma object_bytes_fixEndian h v :
  object_bytes h (fixEndian h v) = be_bytes v.
Proof.
  destruct h; simpl; [|reflexivity].
  unfold bswap64, be_bytes, le_bytes at 1.
  pose proof (le_bytes_of_le_bytes (rev (le_bytes v))) as H.
  rewrite length_rev in H. unfold le_bytes in H at 1.
  rewrite le_bytes_n_length in H. exact H.
Qed.

Lemma be_bytes_length v : List.length (be_bytes v) = 8%nat.
Proof. unfold be_bytes. rewrite length_rev. apply le_bytes_n_length. Qed.

Lemma firstn_exact {A} (l : list A) n : n = List.length l -> firstn n l = l.
Proof. intros ->. apply firstn_all. Qed.

Lemma calculateSHA256Hash_spec sha256 h e :
  sha256_hash_ (calculateSHA256Hash sha256 h e)
  = fingerprint_spec sha256 (tarpath_ e) (st_size (fs_ e))
      (tv_sec (st_mtim (fs_ e))) (tv_nsec (st_mtim (fs_ e))).
Proof.
  unfold calculateSHA256Hash, fingerprint_spec, SHA256_Update, SHA256_Init.
  unfold set_sha256_hash. cbn [sha256_hash_]. rewrite !object_bytes_fixEndian.
  rewrite !(firstn_exact (be_bytes _)) by (rewrite be_bytes_length; reflexivity).
  rewrite (firstn_exact (Path_str _))
    by (unfold c_str_len, zlen; rewrite Nat2Z.id; reflexivity).
  cbn [app]. rewrite <- !app_assoc. reflexivity.
Qed.

Lemma SHA256_Final_length sha256 ctx :
  List.length (SHA256_Final sha256 ctx) = 32%nat.
Proof.
  unfold SHA256_Final. rewrite length_firstn, length_app.
  unfold zeros. rewrite repeat_length.
  change (Z.to_nat SHA256_DIGEST_LENGTH) with 32%nat. lia.
Qed.

(** C6.  The fingerprint of an entry is the 32-byte digest of its tar
    path, size and modification time (seconds, nanoseconds) in big-endian
    form, on a little-endian as on a big-endian host; hence two entries
    that agree on these fields have the same fingerprint, whatever their
    absolute paths, their contents and the byte orders of the hosts. *)
Theorem fingerprint_is_a_function_of_path_size_mtime
    (sha256 : chars -> chars) (h1 h2 : Endian) (e1 e2 : TarEntry) :
  tarpath_ e1 = tarpath_ e2 ->
  st_size (fs_ e1) = st_size (fs_ e2) ->
  st_mtim (fs_ e1) = st_mtim (fs_ e2) ->
  sha256_hash_ (calculateSHA256Hash sha256 h1 e1)
    = sha256_hash_ (calculateSHA256Hash sha256 h2 e2)
  /\ sha256_hash_ (calculateSHA256Hash sha256 h1 e1)
     = fingerprint_spec sha256 (tarpath_ e1) (st_size (fs_ e1))
         (tv_sec (st_mtim (fs_ e1))) (tv_nsec (st_mtim (fs_ e1)))
  /\ List.length (sha256_hash_ (calculateSHA256Hash sha256 h1 e1)) = 32%nat.
Proof.
  intros Hp Hs Hm.
  rewrite !calculateSHA256Hash_spec. rewrite Hp, Hs, Hm.
  split; [reflexivity|]. split; [reflexivity|].
  apply SHA256_Final_length.
Qed.

Lemma fingerprint_is_a_function_of_path_size_mtime_witness :
  abspath_ twin1_v <> abspath_ twin2_v
  /\ sha256_hash_ (calculateSHA256Hash sample_digest LittleEndian twin1_v)
     = sha256_hash_ (calculateSHA256Hash sample_digest BigEndian twin2_v).
Proof.
  split; [vm_compute; discriminate|].
  apply (fingerprint_is_a_function_of_path_size_mtime sample_digest
           LittleEndian BigEndian twin1_v twin2_v); reflexivity.
Defined.

(** ** Decimal text is read back *)

Lemma digit_char_is_digit d :
  0 <= d < 10 -> is_digit (digit_char d) = true /\ digit_value (digit_char d) = d.
Proof.
  intros Hd. unfold is_digit, digit_value, digit_char.
  rewrite N_ascii_embedding by lia.
  rewrite Z2N.id by lia. split; [|lia].
  apply andb_true_iff. split; apply Z.leb_le; lia.
Qed.

Lemma digits_value_app ds1 ds2 acc :
  digits_value (ds1 ++ ds2) acc = digits_value ds2 (digits_value ds1 acc).
Proof. unfold digits_value. apply fold_left_app. Qed.

Lemma dec_digits_spec fuel :
  forall n tail, 0 <= n < 2 ^ Z.of_nat fuel -> (0 < fuel)%nat ->
  exists ds, dec_digits fuel n tail = ds ++ tail
             /\ all_digits ds /\ ds <> []
             /\ digits_value ds 0 = n.
Proof.
  induction fuel as [|f IH]; intros n tail Hn Hf; [lia|].
  cbn [dec_digits].
  assert (Hd : 0 <= n mod 10 < 10) by (apply Z.mod_pos_bound; lia).
  destruct (digit_char_is_digit _ Hd) as [Hdig Hval].
  destruct (Z.eqb_spec (n / 10) 0) as [Hz|Hz].
  - exists [digit_char (n mod 10)]. repeat split.
    + constructor; [exact Hdig | constructor].
    + discriminate.
    + unfold digits_value. cbn [fold_left]. rewrite Hval.
      pose proof (Z_div_mod_eq_full n 10). lia.
  - assert (Hq : 0 <= n / 10 < 2 ^ Z.of_nat f).
    { split; [apply Z.div_pos; lia|].
      apply Z.div_lt_upper_bound; [lia|].
      rewrite Nat2Z.inj_succ, Z.pow_succ_r in Hn by lia. lia. }
    assert (Hf' : (0 < f)%nat).
    { destruct f; [|lia]. simpl in Hq. lia. }
    destruct (IH (n / 10) (digit_char (n mod 10) :: tail) Hq Hf')
      as (ds & E & Hall & Hne & Hv).
    exists (ds ++ [digit_char (n mod 10)]). repeat split.
    + rewrite E, <- app_assoc. reflexivity.
    + apply Forall_app. split; [exact Hall|].
      constructor; [exact Hdig | constructor].
    + destruct ds; discriminate.
    + rewrite digits_value_app, Hv. unfold digits_value. cbn [fold_left].
      rewrite Hval. pose proof (Z_div_mod_eq_full n 10). lia.
Qed.

Lemma print_unsigned_spec n :
  0 <= n ->
  all_digits (print_unsigned n) /\ print_unsigned n <> []
  /\ digits_value (print_unsigned n) 0 = n.
Proof.
  intros Hn. unfold print_unsigned.
  destruct (dec_digits_spec (S (Z.to_nat (Z.log2 n))) n []) as (ds & E & H).
  - split; [exact Hn|].
    rewrite Nat2Z.inj_succ, Z2Nat.id by apply Z.log2_nonneg.
    destruct (Z.eq_dec n 0) as [->|]; [reflexivity|].
    apply Z.log2_spec. lia.
  - lia.
  - rewrite E, app_nil_r. exact H.
Qed.

Lemma read_digits_app ds rest acc :
  all_digits ds ->
  read_digits (ds ++ rest) acc = read_digits rest (digits_value ds acc).
Proof.
  intros H. revert acc. induction H as [|c ds Hc _ IH]; intros acc.
  - reflexivity.
  - cbn [app read_digits]. rewrite Hc. rewrite IH. reflexivity.
Qed.

Lemma read_digits_all ds acc :
  all_digits ds -> read_digits ds acc = digits_value ds acc.
Proof.
  intros H. rewrite <- (app_nil_r ds) at 1.
  rewrite read_digits_app by exact H. reflexivity.
Qed.

Lemma digits_value_zeros k ds :
  digits_value (repeat "0"%char k ++ ds) 0 = digits_value ds 0.
Proof.
  rewrite digits_value_app. f_equal.
  induction k; [reflexivity|]. simpl repeat.
  unfold digits_value in *. cbn [fold_left]. exact IHk.
Qed.

Lemma all_digits_zeros k : all_digits (repeat "0"%char k).
Proof.
  induction k; simpl; constructor; auto.
Qed.

Lemma digit_not_space c : is_digit c = true -> is_space c = false.
Proof.
  unfold is_digit, is_space. intros H.
  apply andb_true_iff in H. destruct H as [H1 H2].
  apply Z.leb_le in H1. apply Z.leb_le in H2.
  apply orb_false_iff. split.
  - apply Z.eqb_neq. lia.
  - apply andb_false_iff. right. apply Z.leb_gt. lia.
Qed.

Lemma digit_not_char c (x : ascii) :
  is_digit c = true -> is_digit x = false -> Ascii.eqb c x = false.
Proof.
  intros Hc Hx. destruct (Ascii.eqb_spec c x); [congruence | reflexivity].
Qed.

(** [atol] reads a run of digits back, up to [LONG_MAX]. *)
Lemma atol_digits ds :
  all_digits ds -> ds <> [] -> 0 <= digits_value ds 0 <= LONG_MAX ->
  atol ds = digits_value ds 0.
Proof.
  intros Hall Hne Hv. unfold atol.
  destruct ds as [|c ds]; [congruence|].
  inversion Hall as [|? ? Hc Hds]; subst.
  cbn [skip_spaces]. rewrite (digit_not_space _ Hc).
  rewrite (digit_not_char c "-"%char Hc eq_refl).
  rewrite (digit_not_char c "+"%char Hc eq_refl).
  rewrite read_digits_all by exact Hall.
  unfold LONG_MIN, LONG_MAX in *. lia.
Qed.

Lemma atol_print_unsigned n :
  0 <= n <= LONG_MAX -> atol (print_unsigned n) = n.
Proof.
  intros Hn. destruct (print_unsigned_spec n) as (Hall & Hne & Hv); [lia|].
  rewrite atol_digits; auto. rewrite Hv. exact Hn.
Qed.

Lemma atol_print_signed n :
  LONG_MIN <= n <= LONG_MAX -> atol (print_signed n) = n.
Proof.
  intros Hn. unfold print_signed.
  destruct (Z.ltb_spec n 0) as [Hneg|Hpos].
  - destruct (print_unsigned_spec (- n)) as (Hall & Hne & Hv); [lia|].
    unfold atol. cbn [skip_spaces].
    change (is_space "-"%char) with false. cbv iota.
    change (Ascii.eqb "-"%char "-"%char) with true. cbv iota.
    rewrite read_digits_all by exact Hall. rewrite Hv.
    unfold LONG_MIN, LONG_MAX in *. lia.
  - apply atol_print_unsigned. lia.
Qed.

Lemma print_ju_padded_spec w n :
  0 <= n < SIZE_MOD ->
  all_digits (print_ju_padded w n) /\ print_ju_padded w n <> []
  /\ digits_value (print_ju_padded w n) 0 = n.
Proof.
  intros Hn. unfold print_ju_padded. rewrite wrap_small by exact Hn.
  destruct (print_unsigned_spec n) as (Hall & Hne & Hv); [lia|].
  split; [|split].
  - apply Forall_app. split; [apply all_digits_zeros | exact Hall].
  - destruct (repeat _ _); [exact Hne | discriminate].
  - rewrite digits_value_zeros. exact Hv.
Qed.

(** ** Reading fields *)

Lemma eat_loop_field c s rest max :
  ~ In c s -> zlen s <= max ->
  eat_loop (s ++ c :: rest) (Some c) max = (s, c :: rest).
Proof.
  revert max. induction s as [|x s IH]; intros max Hin Hlen.
  - cbn [app eat_loop stops]. rewrite Ascii.eqb_refl, orb_true_r. reflexivity.
  - cbn [app eat_loop stops]. rewrite zlen_cons in Hlen.
    pose proof (zlen_nonneg s).
    replace (max <=? 0) with false by (symmetry; apply Z.leb_gt; lia).
    destruct (Ascii.eqb_spec x c) as [->|Hx]; [exfalso; apply Hin; left; auto|].
    cbn [orb]. rewrite IH; [reflexivity | | lia].
    intros H'. apply Hin. right. exact H'.
Qed.

Lemma eat_loop_all s max :
  zlen s <= max -> eat_loop s None max = (s, []).
Proof.
  revert max. induction s as [|x s IH]; intros max Hlen; [reflexivity|].
  cbn [eat_loop stops]. rewrite zlen_cons in Hlen.
  pose proof (zlen_nonneg s).
  replace (max <=? 0) with false by (symmetry; apply Z.leb_gt; lia).
  cbn [orb]. rewrite IH by lia. reflexivity.
Qed.

Lemma eatTo_field c s rest max :
  field_ok c max s ->
  eatTo (s ++ c :: rest) (Some c) max = (s, rest, at_end rest, false).
Proof.
  intros [Hin Hlen]. unfold eatTo. rewrite eat_loop_field by assumption.
  rewrite Ascii.eqb_refl. reflexivity.
Qed.

Lemma eatTo_all s max :
  zlen s <= max -> eatTo s None max = (s, [], true, false).
Proof.
  intros Hlen. unfold eatTo. rewrite eat_loop_all by assumption. reflexivity.
Qed.

Lemma eat_field c s rest max o :
  field_ok c max s ->
  eat (s ++ c :: rest) (Some c) max o = (s, rest, with_flags o (at_end rest) false).
Proof.
  intros H. unfold eat. rewrite eatTo_field by exact H. reflexivity.
Qed.

Lemma eat_all s max o :
  zlen s <= max -> eat s None max o = (s, [], with_flags o true false).
Proof.
  intros H. unfold eat. rewrite eatTo_all by exact H. reflexivity.
Qed.

Lemma at_end_field s (c : ascii) rest : at_end (s ++ c :: rest) = false.
Proof. destruct s; reflexivity. Qed.

(** A timestamp field "seconds.nanoseconds" with both parts present. *)
Lemma eat_secs_and_nanos_ok se na o :
  field_ok "."%char 64 se -> zlen na <= 64 -> na <> [] ->
  eat_secs_and_nanos (se ++ "."%char :: na) o
  = (Some (mk_timespec (atol se) (atol na)), with_flags o true false).
Proof.
  intros Hse Hna Hne. unfold eat_secs_and_nanos.
  rewrite eat_field by exact Hse.
  destruct na as [|x na]; [congruence|].
  cbn [at_end with_flags o_err o_eof orb].
  rewrite eat_all by exact Hna.
  cbn [with_flags o_err o_eof o_fs o_offset o_tar o_path o_link o_is_sym_link].
  reflexivity.
Qed.

(** ** The catalog line is read back *)

Ltac norm_out :=
  cbv beta iota zeta delta
      [with_flags with_fs with_offset with_tar with_path with_link
       with_is_sym_link o_fs o_offset o_tar o_path o_link o_is_sym_link
       o_eof o_err
       set_st_mode set_st_uid set_st_gid set_st_rdev set_st_size
       set_st_mtim set_st_atim set_st_ctim
       st_mode st_uid st_gid st_rdev st_size st_mtim st_atim st_ctim];
  cbn [orb andb].

Ltac eat_step :=
  rewrite eat_field by assumption;
  cbv beta iota zeta; norm_out;
  try rewrite !at_end_field; norm_out.

Lemma eatEntry_line C dir o perm uidgid si dt mse mna ase ana cse cna
      name linkd tarname off ch hh :
  field_ok (separator C) 32 perm ->
  stringToPermission C perm <> 0 ->
  field_ok (separator C) 32 uidgid ->
  field_ok (separator C) 32 si ->
  field_ok (separator C) 32 dt ->
  field_ok (separator C) 64 (mse ++ "."%char :: mna) ->
  field_ok "."%char 64 mse -> zlen mna <= 64 -> mna <> [] ->
  field_ok (separator C) 64 (ase ++ "."%char :: ana) ->
  field_ok "."%char 64 ase -> zlen ana <= 64 -> ana <> [] ->
  field_ok (separator C) 64 (cse ++ "."%char :: cna) ->
  field_ok "."%char 64 cse -> zlen cna <= 64 -> cna <> [] ->
  field_ok (separator C) 1024 name ->
  field_ok (separator C) 1024 linkd ->
  field_ok (separator C) 1024 tarname ->
  field_ok (separator C) 32 off ->
  field_ok (separator C) 65 ch ->
  field_ok (separator C) 65 hh -> hh <> [] ->
  eatEntry C
    (perm ++ separator C :: uidgid ++ separator C :: si ++ separator C
       :: dt ++ separator C
       :: (mse ++ "."%char :: mna) ++ separator C
       :: (ase ++ "."%char :: ana) ++ separator C
       :: (cse ++ "."%char :: cna) ++ separator C
       :: name ++ separator C :: linkd ++ separator C
       :: tarname ++ separator C :: off ++ separator C
       :: ch ++ separator C :: hh ++ [separator C])
    dir o
  = Some (true, [],
     decode_fields C dir o perm uidgid si
       (mk_timespec (atol mse) (atol mna))
       (mk_timespec (atol ase) (atol ana))
       (mk_timespec (atol cse) (atol cna))
       name linkd tarname off).
Proof.
  intros Hperm Hmode Huidgid Hsi Hdt Hm Hmse Hmna Hmne Ha Hase Hana Hane
         Hc Hcse Hcna Hcne Hname Hlinkd Htar Hoff Hch Hhh Hhne.
  destruct hh as [|h0 hh]; [congruence|].
  destruct o as [fs0 off0 tar0 path0 link0 sym0 eof0 err0].
  destruct fs0 as [m0 u0 g0 r0 s0 mt0 at0 ct0].
  unfold eatEntry, decode_fields. cbv zeta.
  eat_step.
  apply Z.eqb_neq in Hmode. rewrite Hmode.
  eat_step. eat_step.
  match goal with |- context [fs_isCharacterDevice ?x || fs_isBlockDevice ?y] => destruct (fs_isCharacterDevice x || fs_isBlockDevice y) end.
  all: norm_out.
  all: eat_step. 
  all: eat_step.
  all: rewrite eat_secs_and_nanos_ok by assumption; cbv beta iota zeta; norm_out.
  all: eat_step.
  all: rewrite eat_secs_and_nanos_ok by assumption; cbv beta iota zeta; norm_out.
  all: eat_step.
  all: rewrite eat_secs_and_nanos_ok by assumption; cbv beta iota zeta; norm_out.
  all: eat_step.
  all: eat_step.
  all: destruct ((4 <? zlen linkd) && has_prefix (lit " -> ") linkd);
    [|destruct ((9 <? zlen linkd) && has_prefix (lit " link to ") linkd)].
  all: eat_step.
  all: eat_step.
  all: eat_step.
  all: rewrite eat_field by assumption; cbv beta iota zeta; norm_out.
  all: reflexivity.
Qed.
(** The number of digits that are printed. *)
Lemma dec_digits_count fuel :
  forall n tail ds, 0 <= n < 2 ^ Z.of_nat fuel -> (0 < fuel)%nat ->
  dec_digits fuel n tail = ds ++ tail ->
  zlen ds = 1 \/ 10 ^ (zlen ds - 1) <= n.
Proof.
  induction fuel as [|f IH]; intros n tail ds Hn Hf E; [lia|].
  cbn [dec_digits] in E.
  destruct (Z.eqb_spec (n / 10) 0) as [Hz|Hz].
  - left. change (digit_char (n mod 10) :: tail)
      with ([digit_char (n mod 10)] ++ tail) in E.
    apply app_inv_tail in E. subst ds. reflexivity.
  - assert (Hq : 0 <= n / 10 < 2 ^ Z.of_nat f).
    { split; [apply Z.div_pos; lia|].
      apply Z.div_lt_upper_bound; [lia|].
      rewrite Nat2Z.inj_succ, Z.pow_succ_r in Hn by lia. lia. }
    assert (Hf' : (0 < f)%nat).
    { destruct f; [|lia]. simpl in Hq. lia. }
    destruct (dec_digits_spec f (n / 10) (digit_char (n mod 10) :: tail) Hq Hf')
      as (ds' & E' & _ & Hne & _).
    rewrite E' in E.
    change (ds' ++ digit_char (n mod 10) :: tail)
      with (ds' ++ [digit_char (n mod 10)] ++ tail) in E.
    rewrite app_assoc in E. apply app_inv_tail in E. subst ds.
    right. rewrite zlen_app. change (zlen [digit_char (n mod 10)]) with 1.
    replace (zlen ds' + 1 - 1) with (zlen ds') by lia.
    pose proof (Z_div_mod_eq_full n 10) as Hdm.
    assert (0 <= n mod 10 < 10) by (apply Z.mod_pos_bound; lia).
    destruct (IH _ _ _ Hq Hf' E') as [H1|Hge].
    + rewrite H1. change (10 ^ 1) with 10. lia.
    + assert (0 < zlen ds').
      { destruct ds'; [congruence|]. rewrite zlen_cons.
        pose proof (zlen_nonneg ds'). lia. }
      replace (zlen ds') with (Z.succ (zlen ds' - 1)) by lia.
      rewrite Z.pow_succ_r by lia. lia.
Qed.

Lemma print_unsigned_length n k :
  0 <= n < 10 ^ k -> 1 <= k -> zlen (print_unsigned n) <= k.
Proof.
  intros Hn Hk. unfold print_unsigned.
  assert (Hr : 0 <= n < 2 ^ Z.of_nat (S (Z.to_nat (Z.log2 n)))).
  { split; [lia|].
    rewrite Nat2Z.inj_succ, Z2Nat.id by apply Z.log2_nonneg.
    destruct (Z.eq_dec n 0) as [->|]; [reflexivity|].
    apply Z.log2_spec. lia. }
  destruct (dec_digits_spec _ n [] Hr ltac:(lia)) as (ds & E & _).
  pose proof (dec_digits_count _ n [] ds Hr ltac:(lia) E) as Hc.
  rewrite E, app_nil_r.
  destruct Hc as [->|Hge]; [lia|].
  destruct (Z.le_gt_cases (zlen ds) k) as [|Hgt]; [assumption|].
  exfalso.
  assert (10 ^ k <= 10 ^ (zlen ds - 1)) by (apply Z.pow_le_mono_r; lia).
  lia.
Qed.

Lemma to_uint32_to_int32 v : 0 <= v < 2 ^ 32 -> to_uint32 (to_int32 v) = v.
Proof.
  intros Hv. unfold to_uint32, to_int32.
  change (2 ^ 32) with 4294967296 in *. change (2 ^ 31) with 2147483648.
  Z.div_mod_to_equations. lia.
Qed.

Lemma to_int32_small v : - 2 ^ 31 <= v < 2 ^ 31 -> to_int32 v = v.
Proof.
  intros Hv. unfold to_int32.
  change (2 ^ 32) with 4294967296 in *. change (2 ^ 31) with 2147483648 in *.
  Z.div_mod_to_equations. lia.
Qed.

Lemma before_char_digits c ds rest :
  is_digit c = false -> all_digits ds ->
  before_char c (ds ++ c :: rest) = ds.
Proof.
  intros Hc H. induction H as [|x ds Hx _ IH]; cbn [app before_char].
  - rewrite Ascii.eqb_refl. reflexivity.
  - rewrite (digit_not_char x c Hx Hc). rewrite IH. reflexivity.
Qed.

Lemma after_char_digits c ds rest :
  is_digit c = false -> all_digits ds ->
  after_char c (ds ++ c :: rest) = rest.
Proof.
  intros Hc H. unfold after_char.
  assert (E : after_char_opt c (ds ++ c :: rest) = Some rest).
  { induction H as [|x ds Hx _ IH]; cbn [app after_char_opt].
    - rewrite Ascii.eqb_refl. reflexivity.
    - rewrite (digit_not_char x c Hx Hc). exact IH. }
  rewrite E. reflexivity.
Qed.

Lemma all_digits_not_in c ds : is_digit c = false -> all_digits ds -> ~ In c ds.
Proof.
  intros Hc H Hin. unfold all_digits in H. rewrite Forall_forall in H.
  specialize (H _ Hin). congruence.
Qed.

Lemma print_ju_padded_length w n k :
  0 <= n < 10 ^ k -> 1 <= k -> n < SIZE_MOD ->
  zlen (print_ju_padded w n) <= Z.max (Z.of_nat w) k.
Proof.
  intros Hn Hk Hm. unfold print_ju_padded. rewrite wrap_small by lia.
  pose proof (print_unsigned_length n k Hn Hk) as Hl.
  rewrite zlen_app. unfold zlen in *. rewrite repeat_length. lia.
Qed.

Lemma cookEntry_fields C e :
  catalog_ready C e ->
  cookEntry C [] e =
    permissionString C (st_mode (fs_ e)) ++ separator C
      :: (print_unsigned (st_uid (fs_ e)) ++ "/"%char :: print_unsigned (st_gid (fs_ e)))
      ++ separator C
      :: make_tv_line_size C (fs_ e) ++ separator C
      :: strftime_local C (tv_sec (st_mtim (fs_ e))) ++ separator C
      :: secs_and_nanos_string (st_mtim (fs_ e)) ++ separator C
      :: secs_and_nanos_string (st_atim (fs_ e)) ++ separator C
      :: secs_and_nanos_string (st_ctim (fs_ e)) ++ separator C
      :: Path_str (tarpath_ e) ++ separator C
      :: link_descriptor e ++ separator C
      :: tar_file_name e ++ separator C
      :: print_unsigned (wrap (tar_offset_ e + header_size_ e)) ++ separator C
      :: lit "0" ++ separator C
      :: (toHex C (sha256_hash_ e) ++ [newline]) ++ [separator C].
Proof.
  intros (Hl & Hs & Hr). unfold cookEntry. rewrite Hl, Hs, Hr.
  unfold make_tv_line_left, make_tv_line_right, separator_string, link_descriptor.
  change (lit "/") with ["/"%char]. fold newline.
  cbn [app]. repeat (rewrite <- !app_assoc; cbn [app]). reflexivity.
Qed.

Lemma pow10_19 : LONG_MAX < 10 ^ 19.
Proof. reflexivity. Qed.

Lemma long_max_lt_size_mod : LONG_MAX < SIZE_MOD.
Proof. reflexivity. Qed.

Lemma field_ok_digits sep max ds :
  is_digit sep = false -> all_digits ds -> zlen ds <= max ->
  field_ok sep max ds.
Proof.
  intros Hs Hd Hl. split; [apply all_digits_not_in; assumption | exact Hl].
Qed.

Lemma not_in_app {A} (x : A) l1 l2 : ~ In x l1 -> ~ In x l2 -> ~ In x (l1 ++ l2).
Proof. intros H1 H2 H. apply in_app_or in H. tauto. Qed.

Lemma time_ok_ranges t :
  time_ok t -> 0 <= tv_sec t < SIZE_MOD /\ 0 <= tv_nsec t < SIZE_MOD.
Proof.
  intros [Hs Hn]. pose proof long_max_lt_size_mod.
  assert (10 ^ 9 < SIZE_MOD) by reflexivity. lia.
Qed.

Lemma secs_part_spec t :
  time_ok t ->
  all_digits (print_ju_padded 12 (tv_sec t))
  /\ print_ju_padded 12 (tv_sec t) <> []
  /\ digits_value (print_ju_padded 12 (tv_sec t)) 0 = tv_sec t
  /\ zlen (print_ju_padded 12 (tv_sec t)) <= 19.
Proof.
  intros Ht. destruct (time_ok_ranges t Ht) as [Hs _]. destruct Ht as [Hs' _].
  destruct (print_ju_padded_spec 12 (tv_sec t) Hs) as (H1 & H2 & H3).
  repeat split; try assumption.
  pose proof pow10_19.
  pose proof (print_ju_padded_length 12 (tv_sec t) 19) as Hl.
  lia.
Qed.

Lemma nanos_part_spec t :
  time_ok t ->
  all_digits (print_ju_padded 9 (tv_nsec t))
  /\ print_ju_padded 9 (tv_nsec t) <> []
  /\ digits_value (print_ju_padded 9 (tv_nsec t)) 0 = tv_nsec t
  /\ zlen (print_ju_padded 9 (tv_nsec t)) <= 9.
Proof.
  intros Ht. destruct (time_ok_ranges t Ht) as [_ Hn]. destruct Ht as [_ Hn'].
  destruct (print_ju_padded_spec 9 (tv_nsec t) Hn) as (H1 & H2 & H3).
  repeat split; try assumption.
  pose proof (print_ju_padded_length 9 (tv_nsec t) 9) as Hl.
  lia.
Qed.

(** The text of a timestamp fits the buffer of [snprintf]. *)
Lemma secs_and_nanos_string_split t :
  time_ok t ->
  secs_and_nanos_string t
  = print_ju_padded 12 (tv_sec t) ++ "."%char :: print_ju_padded 9 (tv_nsec t).
Proof.
  intros Ht. unfold secs_and_nanos_string.
  destruct (secs_part_spec t Ht) as (_ & _ & _ & Hs).
  destruct (nanos_part_spec t Ht) as (_ & _ & _ & Hn).
  apply firstn_all2.
  assert (zlen (print_ju_padded 12 (tv_sec t)
                ++ "."%char :: print_ju_padded 9 (tv_nsec t)) <= 31).
  { rewrite zlen_app, zlen_cons. lia. }
  unfold zlen in *. lia.
Qed.

Lemma timestamp_field_ok t sep :
  time_ok t -> is_digit sep = false -> sep <> "."%char ->
  field_ok sep 64
    (print_ju_padded 12 (tv_sec t) ++ "."%char :: print_ju_padded 9 (tv_nsec t)).
Proof.
  intros Ht Hd Hdot.
  destruct (secs_part_spec t Ht) as (Hs1 & _ & _ & Hs).
  destruct (nanos_part_spec t Ht) as (Hn1 & _ & _ & Hn).
  split.
  - apply not_in_app; [apply all_digits_not_in; assumption|].
    intros [H|H]; [congruence|].
    revert H. apply all_digits_not_in; assumption.
  - rewrite zlen_app, zlen_cons. lia.
Qed.

Lemma timestamp_read_back t :
  time_ok t ->
  mk_timespec (atol (print_ju_padded 12 (tv_sec t)))
              (atol (print_ju_padded 9 (tv_nsec t))) = t.
Proof.
  intros Ht.
  destruct (secs_part_spec t Ht) as (Hs1 & Hs2 & Hs3 & _).
  destruct (nanos_part_spec t Ht) as (Hn1 & Hn2 & Hn3 & _).
  destruct Ht as [Hs Hn].
  rewrite !atol_digits; try assumption.
  - rewrite Hs3, Hn3. destruct t; reflexivity.
  - rewrite Hn3. unfold LONG_MAX. lia.
  - rewrite Hs3. lia.
Qed.

Lemma device_not_symlink fs : is_device fs = true -> fs_isSymbolicLink fs = false.
Proof.
  unfold is_device, fs_isCharacterDevice, fs_isBlockDevice, fs_isSymbolicLink.
  intros H. apply orb_true_iff in H.
  destruct H as [H|H]; apply Z.eqb_eq in H; rewrite H; reflexivity.
Qed.

Lemma sep_not_in_reserved C (c : ascii) :
  separator_ok C -> In c (lit "/,.- >linkto" ++ [newline]) -> separator C <> c.
Proof. intros [_ H] Hc E. apply H. rewrite E. exact Hc. Qed.

Lemma size_field_ok C fs :
  separator_ok C ->
  LONG_MIN <= st_size fs <= LONG_MAX ->
  (is_device fs = true ->
     0 <= dev_major C (st_rdev fs) < 2 ^ 31
     /\ 0 <= dev_minor C (st_rdev fs) < 2 ^ 31) ->
  field_ok (separator C) 32 (make_tv_line_size C fs).
Proof.
  intros Hsep Hsize Hdev. pose proof Hsep as [Hd _].
  unfold make_tv_line_size. fold (is_device fs).
  destruct (fs_isSymbolicLink fs).
  - split; [|vm_compute; discriminate].
    intros [Hin|[]]. rewrite <- Hin in Hd. discriminate.
  - destruct (is_device fs).
    + destruct (Hdev eq_refl) as [Hma Hmi].
      destruct (print_unsigned_spec (dev_major C (st_rdev fs))) as (A1 & _); [lia|].
      destruct (print_unsigned_spec (dev_minor C (st_rdev fs))) as (B1 & _); [lia|].
      pose proof (print_unsigned_length (dev_major C (st_rdev fs)) 10) as L1.
      pose proof (print_unsigned_length (dev_minor C (st_rdev fs)) 10) as L2.
      assert (2 ^ 31 < 10 ^ 10) by reflexivity.
      split.
      * apply not_in_app; [apply all_digits_not_in; assumption|].
        change (lit ",") with [","%char]. cbn [app].
        intros [Hin|Hin].
        -- revert Hin. apply not_eq_sym, sep_not_in_reserved; [assumption|].
           vm_compute. tauto.
        -- revert Hin. apply all_digits_not_in; assumption.
      * rewrite !zlen_app. change (zlen (lit ",")) with 1. lia.
    + unfold print_signed. unfold LONG_MIN, LONG_MAX in Hsize.
      assert (2 ^ 63 < 10 ^ 19) by reflexivity.
      destruct (Z.ltb_spec (st_size fs) 0).
      * destruct (print_unsigned_spec (- st_size fs)) as (A1 & _); [lia|].
        pose proof (print_unsigned_length (- st_size fs) 19) as L1.
        split.
        -- intros [Hin|Hin].
           ++ revert Hin. apply not_eq_sym, sep_not_in_reserved; [assumption|].
              vm_compute. tauto.
           ++ revert Hin. apply all_digits_not_in; assumption.
        -- rewrite zlen_cons. lia.
      * destruct (print_unsigned_spec (st_size fs)) as (A1 & _); [lia|].
        pose proof (print_unsigned_length (st_size fs) 19) as L1.
        apply field_ok_digits; try assumption. lia.
Qed.

Lemma uidgid_field_ok C uid gid :
  separator_ok C -> 0 <= uid < 2 ^ 32 -> 0 <= gid < 2 ^ 32 ->
  field_ok (separator C) 32 (print_unsigned uid ++ "/"%char :: print_unsigned gid).
Proof.
  intros Hsep Hu Hg. pose proof Hsep as [Hd _].
  destruct (print_unsigned_spec uid) as (A1 & _); [lia|].
  destruct (print_unsigned_spec gid) as (B1 & _); [lia|].
  pose proof (print_unsigned_length uid 10) as L1.
  pose proof (print_unsigned_length gid 10) as L2.
  assert (2 ^ 32 < 10 ^ 10) by reflexivity.
  split.
  - apply not_in_app; [apply all_digits_not_in; assumption|].
    intros [Hin|Hin].
    + revert Hin. apply not_eq_sym, sep_not_in_reserved; [assumption|].
      vm_compute. tauto.
    + revert Hin. apply all_digits_not_in; assumption.
  - rewrite zlen_app, zlen_cons. lia.
Qed.

Lemma has_prefix_app p s : has_prefix p (p ++ s) = true.
Proof.
  unfold has_prefix. rewrite firstn_app, firstn_all, Nat.sub_diag.
  cbn [firstn]. rewrite app_nil_r. apply chars_eqb_refl.
Qed.

Lemma skipn_prefix (p s : chars) : skipn (List.length p) (p ++ s) = s.
Proof. induction p; simpl; auto. Qed.

(** C2 (as amended).  The line that cookEntry writes for an entry is
    accepted by eatEntry: it returns true with the error flag clear and
    the iterator at the end of the line, and the output locations hold
    - the mode, the owner and the group of the entry, and its three
      timestamps;
    - the device number of the entry when it is a device; for any other
      entry the device number of the output is left as it was;
    - as the size: for an entry with a link (symbolic or hard) the length
      of the link text; for a device without link the size that the output
      had before the call (the line carries major,minor in place of the
      size); for a symbolic link without link 0; for any other entry the
      size of the entry;
    - as the path: the path looked up for the directory, a slash and the
      tar path of the entry, a trailing slash removed;
    - the link text (one space for an entry without link) and its kind
      (symbolic for a symbolic link with a link, otherwise not);
    - the name of the tar file with the directory and a slash prepended;
    - as the offset: the tar offset of the entry plus its header size.
    The content hash and the fingerprint are read and dropped, the
    datetime is read and ignored.  This holds for entries whose catalog
    fragments are those of the constructor, whose texts are free of the
    separator and fit the lengths that eatEntry reads, and whose numbers
    are in the ranges that atoi and atol read back. *)
Theorem catalog_round_trip (C : CatalogApi) (e : TarEntry) (dir : Path) (o : EatOut) :
  separator_ok C -> catalog_ready C e -> texts_ok C e -> numbers_ok C e ->
  exists o',
    eatEntry C (cookEntry C [] e) dir o = Some (true, [], o')
    /\ st_mode (o_fs o') = st_mode (fs_ e)
    /\ st_uid (o_fs o') = st_uid (fs_ e)
    /\ st_gid (o_fs o') = st_gid (fs_ e)
    /\ st_mtim (o_fs o') = st_mtim (fs_ e)
    /\ st_atim (o_fs o') = st_atim (fs_ e)
    /\ st_ctim (o_fs o') = st_ctim (fs_ e)
    /\ st_rdev (o_fs o')
       = (if is_device (fs_ e) then st_rdev (fs_ e) else st_rdev (o_fs o))
    /\ st_size (o_fs o')
       = match link_ e with
         | Some l => zlen (Path_str l)
         | None => if is_device (fs_ e) then st_size (o_fs o)
                   else if isSymbolicLink e then 0 else st_size (fs_ e)
         end
    /\ o_path o'
       = Path_lookup
           (let filename := Path_str dir ++ lit "/" ++ Path_str (tarpath_ e) in
            if (1 <? zlen filename) && Ascii.eqb (last filename zero) "/"%char
            then removelast filename else filename)
    /\ o_link o' = match link_ e with Some l => Path_str l | None => lit " " end
    /\ o_is_sym_link o'
       = match link_ e with Some _ => isSymbolicLink e | None => false end
    /\ o_tar o' = Path_str dir ++ lit "/" ++ tar_file_name e
    /\ o_offset o' = tar_offset_ e + header_size_ e
    /\ o_err o' = false.
Proof.
  intros Hsep Hready Htexts Hnum.
  destruct Htexts as (Tperm & Tdate & Tpath & Tlink & Ttar & Thex & Tne).
  destruct Hnum as (Nperm & Nmode & Nuid & Ngid & Nsize & Nm & Na & Nc & Noff & Ndev).
  pose proof Hsep as [Hd Hres].
  assert (Hdot : separator C <> "."%char)
    by (apply sep_not_in_reserved; [assumption | vm_compute; tauto]).
  assert (Hnl : separator C <> newline)
    by (apply sep_not_in_reserved; [assumption | vm_compute; tauto]).
  assert (Hdotd : is_digit "."%char = false) by reflexivity.
  destruct (secs_part_spec _ Nm) as (Ms1 & Ms2 & Ms3 & Ms4).
  destruct (nanos_part_spec _ Nm) as (Mn1 & Mn2 & Mn3 & Mn4).
  destruct (secs_part_spec _ Na) as (As1 & As2 & As3 & As4).
  destruct (nanos_part_spec _ Na) as (An1 & An2 & An3 & An4).
  destruct (secs_part_spec _ Nc) as (Cs1 & Cs2 & Cs3 & Cs4).
  destruct (nanos_part_spec _ Nc) as (Cn1 & Cn2 & Cn3 & Cn4).
  assert (Hoffr : 0 <= tar_offset_ e + header_size_ e < SIZE_MOD)
    by (pose proof long_max_lt_size_mod; lia).
  destruct (print_unsigned_spec (tar_offset_ e + header_size_ e)) as (O1 & O2 & O3);
    [lia|].
  rewrite (cookEntry_fields C e Hready).
  rewrite (secs_and_nanos_string_split _ Nm), (secs_and_nanos_string_split _ Na),
          (secs_and_nanos_string_split _ Nc).
  rewrite wrap_small by exact Hoffr.
  rewrite eatEntry_line.
  2: exact Tperm.
  2: rewrite Nperm; exact Nmode.
  2: apply uidgid_field_ok; assumption.
  2: { apply size_field_ok; try assumption.
       intros Hdev. destruct (Ndev Hdev) as (? & ? & _). split; assumption. }
  2: exact Tdate.
  2: apply timestamp_field_ok; assumption.
  2: apply field_ok_digits; [reflexivity | assumption | lia].
  2: lia. 2: assumption.
  2: apply timestamp_field_ok; assumption.
  2: apply field_ok_digits; [reflexivity | assumption | lia].
  2: lia. 2: assumption.
  2: apply timestamp_field_ok; assumption.
  2: apply field_ok_digits; [reflexivity | assumption | lia].
  2: lia. 2: assumption.
  2: exact Tpath. 2: exact Tlink. 2: exact Ttar.
  2: { apply field_ok_digits; try assumption.
       pose proof (print_unsigned_length (tar_offset_ e + header_size_ e) 19).
       pose proof pow10_19. lia. }
  2: { split; [|vm_compute; discriminate].
       intros [Hin|[]]. rewrite <- Hin in Hd. discriminate. }
  2: { destruct Thex as [Hh1 Hh2]. split.
       - apply not_in_app; [assumption|]. intros [Hin|[]]. congruence.
       - rewrite zlen_app. change (zlen [newline]) with 1. lia. }
  2: { destruct (toHex C (sha256_hash_ e)); discriminate. }
  eexists. split; [reflexivity|].
  unfold decode_fields.
  rewrite Nperm.
  rewrite (before_char_digits "/"%char), (after_char_digits "/"%char)
    by (try reflexivity; apply print_unsigned_spec; lia).
  unfold atoi.
  rewrite !atol_print_unsigned by (unfold LONG_MAX; lia).
  rewrite !to_uint32_to_int32 by assumption.
  rewrite (timestamp_read_back _ Nm), (timestamp_read_back _ Na),
          (timestamp_read_back _ Nc).
  match goal with |- context [fs_isCharacterDevice ?X || fs_isBlockDevice ?X] =>
    change (fs_isCharacterDevice X || fs_isBlockDevice X) with (is_device (fs_ e))
  end.
  assert (Hsize_field :
            is_device (fs_ e) = false ->
            atol (make_tv_line_size C (fs_ e))
            = if isSymbolicLink e then 0 else st_size (fs_ e)).
  { intros Hdev. unfold make_tv_line_size, isSymbolicLink.
    fold (is_device (fs_ e)). rewrite Hdev.
    destruct (fs_isSymbolicLink (fs_ e)); [reflexivity|].
    apply atol_print_signed. exact Nsize. }
  assert (Hdev_field :
            is_device (fs_ e) = true ->
            MakeDev C
              (to_int32 (atol (before_char ","%char (make_tv_line_size C (fs_ e)))))
              (to_int32 (atol (after_char ","%char (make_tv_line_size C (fs_ e)))))
            = st_rdev (fs_ e)).
  { intros Hdev. destruct (Ndev Hdev) as (Hma & Hmi & Hmk).
    unfold make_tv_line_size. fold (is_device (fs_ e)). rewrite Hdev.
    rewrite (device_not_symlink _ Hdev).
    change (lit ",") with [","%char]. cbn [app].
    rewrite (before_char_digits ","%char), (after_char_digits ","%char)
      by (try reflexivity; apply print_unsigned_spec; lia).
    rewrite !atol_print_unsigned by (unfold LONG_MAX; lia).
    rewrite !to_int32_small by lia. exact Hmk. }
  assert (Hlink :
    (if (4 <? zlen (link_descriptor e)) && has_prefix (lit " -> ") (link_descriptor e)
     then Some (skipn 4 (link_descriptor e), true)
     else if (9 <? zlen (link_descriptor e))
             && has_prefix (lit " link to ") (link_descriptor e)
     then Some (skipn 9 (link_descriptor e), false)
     else None)
    = match link_ e with
      | Some l => Some (Path_str l, isSymbolicLink e)
      | None => None
      end).
  { unfold link_descriptor. destruct (link_ e) as [l|]; [|reflexivity].
    assert (0 < zlen (Path_str l)).
    { destruct (Path_str l); [congruence|]. rewrite zlen_cons.
      pose proof (zlen_nonneg c). lia. }
    destruct (isSymbolicLink e).
    - rewrite zlen_app, has_prefix_app. change (zlen (lit " -> ")) with 4.
      replace (4 <? 4 + zlen (Path_str l)) with true
        by (symmetry; apply Z.ltb_lt; lia).
      cbn [andb]. change 4%nat with (List.length (lit " -> ")).
      rewrite skipn_prefix. reflexivity.
    - rewrite zlen_app, has_prefix_app. change (zlen (lit " link to ")) with 9.
      replace (4 <? 9 + zlen (Path_str l)) with true
        by (symmetry; apply Z.ltb_lt; lia).
      replace (9 <? 9 + zlen (Path_str l)) with true
        by (symmetry; apply Z.ltb_lt; lia).
      change (has_prefix (lit " -> ") (lit " link to " ++ Path_str l)) with false.
      cbn [andb]. change 9%nat with (List.length (lit " link to ")).
      rewrite skipn_prefix. reflexivity. }
  destruct ((4 <? zlen (link_descriptor e))
            && has_prefix (lit " -> ") (link_descriptor e));
    [|destruct ((9 <? zlen (link_descriptor e))
                && has_prefix (lit " link to ") (link_descriptor e))];
    (destruct (link_ e) as [l|] eqn:El; [|try discriminate]);
    try (inversion Hlink as [[Hl1 Hl2]]; clear Hlink);
    try discriminate;
    (destruct (is_device (fs_ e)) eqn:Hdev;
     [rewrite (Hdev_field eq_refl) | rewrite (Hsize_field eq_refl)]);
    cbn [o_fs o_offset o_tar o_path o_link o_is_sym_link o_err o_eof
         set_st_mode set_st_uid set_st_gid set_st_rdev set_st_size
         set_st_mtim set_st_atim set_st_ctim
         st_mode st_uid st_gid st_rdev st_size st_mtim st_atim st_ctim];
    rewrite ?atol_print_unsigned by lia;
    rewrite ?wrap_small by exact Hoffr;
    repeat split; try reflexivity; try (unfold link_descriptor; rewrite El; reflexivity).
Qed.

Lemma no_sep_not_in sep s : no_sep sep s = true -> ~ In sep s.
Proof.
  unfold no_sep. rewrite forallb_forall. intros H Hin.
  specialize (H _ Hin). rewrite Ascii.eqb_refl in H. discriminate.
Qed.

Lemma field_ok_check sep max s :
  no_sep sep s = true -> (zlen s <=? max) = true -> field_ok sep max s.
Proof.
  intros H1 H2. split; [apply no_sep_not_in; exact H1 | apply Z.leb_le; exact H2].
Qed.

Lemma catalog_round_trip_witness :
  exists o',
    eatEntry catalog_model (cookEntry catalog_model [] plain_cat_v)
             (path_of "/mnt") out0 = Some (true, [], o')
    /\ st_mode (o_fs o') = mode_reg_644
    /\ st_size (o_fs o') = 745
    /\ o_path o' = path_of "/mnt/e"
    /\ o_tar o' = lit "/mnt/s01_001.tar"
    /\ o_offset o' = 1536.
Proof.
  destruct (catalog_round_trip catalog_model plain_cat_v (path_of "/mnt") out0)
    as (o' & E & Hmode & _ & _ & _ & _ & _ & _ & Hsize & Hpath & _ & _ & Htar & Hoff & _).
  - split; [reflexivity|]. apply no_sep_not_in. reflexivity.
  - repeat split; reflexivity.
  - repeat split; try (apply no_sep_not_in; reflexivity);
      try (apply Z.leb_le; reflexivity).
  - repeat split; try (apply Z.leb_le; reflexivity); try (apply Z.ltb_lt; reflexivity);
      try discriminate.
  - exists o'. split; [exact E|].
    split; [rewrite Hmode; reflexivity|].
    split; [rewrite Hsize; reflexivity|].
    split; [rewrite Hpath; reflexivity|].
    split; [rewrite Htar; reflexivity|].
    rewrite Hoff. reflexivity.
Defined.

(** C2 as stated fails for a hard link: the size that is read back is the
    length of the link text ("c/d", 3), not the size of the entry (745);
    and the path that is read back is the tar path with the directory
    prepended, not the tar path. *)
Lemma hard_link_size_is_not_read_back :
  is_hard_linked_ hard_cat_v = true
  /\ st_size (fs_ hard_cat_v) = 745
  /\ tarpath_ hard_cat_v = path_of "e"
  /\ exists o',
      eatEntry catalog_model (cookEntry catalog_model [] hard_cat_v)
               lookupRoot out0 = Some (true, [], o')
      /\ st_size (o_fs o') = 3
      /\ st_size (o_fs o') <> st_size (fs_ hard_cat_v)
      /\ o_path o' = path_of "/e"
      /\ o_path o' <> tarpath_ hard_cat_v.
Proof.
  split; [reflexivity|]. split; [reflexivity|]. split; [reflexivity|].
  eexists. split; [vm_compute; reflexivity|].
  split; [reflexivity|]. split; [vm_compute; discriminate|].
  split; [reflexivity|]. vm_compute; discriminate.
Qed.

(** ** Lines that are cut short *)

Lemma eat_loop_split c : forall v max s i,
  eat_loop v (Some c) max = (s, i) -> v = s ++ i /\ ~ In c s.
Proof.
  induction v as [|x v IH]; intros max s i E; cbn [eat_loop stops] in E.
  - inversion E; subst. split; [reflexivity | intros []].
  - destruct ((max <=? 0) || Ascii.eqb x c) eqn:B.
    + inversion E; subst. split; [reflexivity | intros []].
    + destruct (eat_loop v (Some c) (max - 1)) as [s1 i1] eqn:E1.
      inversion E; subst. destruct (IH _ _ _ E1) as [-> Hn].
      split; [reflexivity|].
      apply orb_false_iff in B. destruct B as [_ B].
      intros [H|H]; [|exact (Hn H)].
      subst x. rewrite Ascii.eqb_refl in B. discriminate.
Qed.

(** A field that is read without error has consumed one separator. *)
Lemma eatTo_ok_inv c v max s i eof :
  eatTo v (Some c) max = (s, i, eof, false) ->
  v = s ++ c :: i /\ ~ In c s.
Proof.
  unfold eatTo. destruct (eat_loop v (Some c) max) as [s1 i1] eqn:E.
  destruct (eat_loop_split _ _ _ _ _ E) as [-> Hn].
  destruct i1 as [|x i1]; [intros H; inversion H|].
  destruct (Ascii.eqb_spec x c) as [->|Hx]; cbn [negb]; intros H; inversion H; subst.
  split; [reflexivity | exact Hn].
Qed.

Lemma count_sep_app c a b : count_sep c (a ++ b) = (count_sep c a + count_sep c b)%nat.
Proof. apply count_occ_app. Qed.

Lemma count_sep_not_in c s : ~ In c s -> count_sep c s = 0%nat.
Proof. intros H. apply count_occ_not_In. exact H. Qed.



















(* ================================================================== *)
(** * Part III. Further properties of the code                         *)
(* ================================================================== *)

(** ** Rounding up to the block *)

Lemma round_up_block_spec size :
  0 <= size < SIZE_MOD -> size <= round_up_block size ->
  round_up_block size mod T_BLOCKSIZE = 0
  /\ round_up_block size < size + T_BLOCKSIZE
  /\ round_up_block size < SIZE_MOD.
Proof.
  intros Hs. unfold round_up_block.
  destruct (Z.eqb_spec (size mod T_BLOCKSIZE) 0) as [Hz|Hz].
  - intros _. unfold T_BLOCKSIZE in *. lia.
  - pose proof (wrap_range (wrap (size + T_BLOCKSIZE) - size mod T_BLOCKSIZE)) as Hr.
    revert Hr. unfold wrap, SIZE_MOD, T_BLOCKSIZE in *.
    change (2 ^ 64) with 18446744073709551616 in *.
    intros Hr Hle. Z.div_mod_to_equations. lia.
Qed.

Lemma round_up_block_wraps size :
  SIZE_MOD - T_BLOCKSIZE < size < SIZE_MOD -> round_up_block size = 0.
Proof.
  intros Hs. unfold round_up_block.
  destruct (Z.eqb_spec (size mod T_BLOCKSIZE) 0) as [Hz|Hz].
  - exfalso. unfold SIZE_MOD, T_BLOCKSIZE in *.
    change (2 ^ 64) with 18446744073709551616 in *.
    Z.div_mod_to_equations. lia.
  - unfold wrap, SIZE_MOD, T_BLOCKSIZE in *.
    change (2 ^ 64) with 18446744073709551616 in *.
    Z.div_mod_to_equations. lia.
Qed.

(** X1.  Every entry that updateSizes returns is laid out in whole
    blocks: its blocked size is a multiple of T_BLOCKSIZE, it holds the
    header and the content (the content counting for a regular file that
    is not a hard link) followed by less than one block of padding, and the
    size of the children starts as the blocked size. *)
Theorem updateSizes_lays_out_whole_blocks (T : TarHeaderApi) (e e' : TarEntry) :
  updateSizes T e = Some e' ->
  blocked_size_ e' mod T_BLOCKSIZE = 0
  /\ 0 <= header_size_ e' <= unrounded_size e'
  /\ unrounded_size e' <= blocked_size_ e' < unrounded_size e' + T_BLOCKSIZE
  /\ blocked_size_ e' < SIZE_MOD
  /\ children_size_ e' = blocked_size_ e'.
Proof.
  intros U.
  destruct (updateSizes_frame _ _ _ U) as (_ & Hh & _ & Hfs & _).
  destruct (updateSizes_layout _ _ _ U) as (size & Hsize & Hb & Hc & _ & Hle).
  pose proof (updateSizes_header_within _ _ _ U) as H0.
  assert (Hu : unrounded_size e' = size).
  { unfold unrounded_size, isRegularFile. rewrite Hh, Hfs. symmetry. exact Hsize. }
  rewrite Hu.
  assert (Hrange : 0 <= size < SIZE_MOD).
  { rewrite Hsize.
    destruct (isRegularFile e && negb (is_hard_linked_ e)); [apply wrap_range|].
    revert U. unfold updateSizes.
    destruct (is_style_None (tar_header_style_ e));
      destruct (assert _); try discriminate;
      destruct (assert _); try discriminate;
      intros H; inversion H; subst; cbn [header_size_ set_sizes];
      [vm_compute; split; congruence | apply wrap_range]. }
  rewrite Hb in *.
  destruct (round_up_block_spec size Hrange ltac:(lia)) as (Hm & Hlt & Hmax).
  repeat split; try assumption; lia.
Qed.

Lemma updateSizes_lays_out_whole_blocks_witness :
  blocked_size_ entry745_v mod T_BLOCKSIZE = 0
  /\ 0 <= header_size_ entry745_v <= unrounded_size entry745_v
  /\ unrounded_size entry745_v <= blocked_size_ entry745_v
       < unrounded_size entry745_v + T_BLOCKSIZE
  /\ blocked_size_ entry745_v < SIZE_MOD
  /\ children_size_ entry745_v = blocked_size_ entry745_v.
Proof.
  apply (updateSizes_lays_out_whole_blocks tar_model entry745_v entry745_v).
  vm_compute. reflexivity.
Defined.

(** X2.  The constructor for an entry of a given size rounds the size up
    to the block as long as the rounded size fits a size_t; for a size in
    the last, partial block below 2^64 the sum wraps and the blocked size
    is 0, less than the size. *)
Theorem TarEntry_of_size_rounds_or_wraps (size : Z) (ths : TarHeaderStyle) :
  0 <= size < SIZE_MOD ->
  header_size_ (TarEntry_of_size size ths) = 0
  /\ children_size_ (TarEntry_of_size size ths)
     = blocked_size_ (TarEntry_of_size size ths)
  /\ (size <= SIZE_MOD - T_BLOCKSIZE ->
      blocked_size_ (TarEntry_of_size size ths) mod T_BLOCKSIZE = 0
      /\ size <= blocked_size_ (TarEntry_of_size size ths) < size + T_BLOCKSIZE)
  /\ (SIZE_MOD - T_BLOCKSIZE < size ->
      blocked_size_ (TarEntry_of_size size ths) = 0).
Proof.
  intros Hs. cbn [TarEntry_of_size header_size_ blocked_size_ children_size_].
  split; [reflexivity|]. split; [reflexivity|]. split.
  - intros Hle.
    assert (Hup : size <= round_up_block size).
    { unfold round_up_block.
      destruct (Z.eqb_spec (size mod T_BLOCKSIZE) 0) as [Hz|Hz]; [lia|].
      unfold wrap, SIZE_MOD, T_BLOCKSIZE in *.
      change (2 ^ 64) with 18446744073709551616 in *.
      Z.div_mod_to_equations. lia. }
    destruct (round_up_block_spec size Hs Hup) as (Hm & Hlt & _).
    repeat split; assumption.
  - intros Hgt. apply round_up_block_wraps. lia.
Qed.

Lemma TarEntry_of_size_rounds_or_wraps_witness :
  blocked_size_ (TarEntry_of_size 745 THS_None) = 1024
  /\ blocked_size_ (TarEntry_of_size (SIZE_MOD - 1) THS_None) = 0.
Proof.
  split.
  - reflexivity.
  - assert (Hs : 0 <= SIZE_MOD - 1 < SIZE_MOD) by (vm_compute; split; congruence).
    assert (Hgt : SIZE_MOD - T_BLOCKSIZE < SIZE_MOD - 1) by reflexivity.
    exact (proj2 (proj2 (proj2
             (TarEntry_of_size_rounds_or_wraps (SIZE_MOD - 1) THS_None Hs))) Hgt).
Defined.

(** ** More on serving byte ranges *)

Lemma zlen_zeros n : 0 <= n -> zlen (zeros n) = n.
Proof. intros Hn. unfold zlen, zeros. rewrite repeat_length. lia. Qed.

Lemma blit_length dst pos src r :
  blit dst pos src = Some r -> 0 <= pos -> zlen r = zlen dst.
Proof.
  unfold blit. destruct (Z.leb_spec (pos + zlen src) (zlen dst)) as [Hle|]; [|discriminate].
  intros H Hp. inversion H; subst; clear H.
  pose proof (zlen_nonneg src).
  rewrite !zlen_app, zlen_firstn, zlen_skipn by lia. lia.
Qed.

(** The scratch buffer of [copy] keeps its extent, the header size. *)
Lemma header_image_length T e hdr :
  header_image T e = Some hdr -> 0 <= header_size_ e -> zlen hdr = header_size_ e.
Proof.
  intros Hi H0. revert Hi. unfold header_image.
  set (th := newTarHeader T _ _ _ _ _).
  assert (Hz : zlen (zeros (header_size_ e)) = header_size_ e) by (apply zlen_zeros; exact H0).
  revert Hz. generalize (zeros (header_size_ e)). intros tmp0 Hz.
  assert (Hstep1 : forall tp : chars * Z,
    (if 0 <? numLongLinkBlocks th then
       match link_ e with
       | None => None
       | Some link =>
           let llh := longLinkHeader T th (c_str_len link) in
           tmp <- blit tmp0 0 (firstn (Z.to_nat T_BLOCKSIZE) llh) ;;
           tmp <- blit tmp (0 + T_BLOCKSIZE) (Path_str link) ;;
           Some (tmp, 0 + numLongLinkBlocks th * T_BLOCKSIZE)
       end
     else Some (tmp0, 0)) = Some tp ->
    zlen (fst tp) = header_size_ e /\ 0 <= snd tp).
  { intros [tmp p].
    destruct (Z.ltb_spec 0 (numLongLinkBlocks th)) as [Hn|Hn].
    - destruct (link_ e) as [link|]; [|discriminate]. cbv zeta.
      destruct (blit tmp0 0 _) as [t1|] eqn:B1; [|discriminate].
      destruct (blit t1 _ _) as [t2|] eqn:B2; [|discriminate].
      intros H; inversion H; subst; clear H. cbn [fst snd].
      apply blit_length in B1; [|lia]. apply blit_length in B2; [|unfold T_BLOCKSIZE; lia].
      split; [congruence | unfold T_BLOCKSIZE; lia].
    - intros H; inversion H; subst. cbn [fst snd]. split; [assumption | lia]. }
  destruct (if 0 <? numLongLinkBlocks th then _ else _) as [[tmp1 p1]|] eqn:S1; [|discriminate].
  destruct (Hstep1 _ eq_refl) as [Hl1 Hp1]. cbn [fst snd] in Hl1, Hp1.
  clear Hstep1 S1.
  destruct (Z.ltb_spec 0 (numLongPathBlocks th)) as [Hn|Hn].
  - cbv zeta.
    destruct (blit tmp1 p1 _) as [t1|] eqn:B1; [|discriminate].
    destruct (blit t1 _ _) as [t2|] eqn:B2; [|discriminate].
    intros B3. apply blit_length in B1; [|lia].
    apply blit_length in B2; [|unfold T_BLOCKSIZE; lia].
    apply blit_length in B3; [|unfold T_BLOCKSIZE; lia]. congruence.
  - intros B3. apply blit_length in B3; [|lia]. congruence.
Qed.

Lemma copy_header_inv T e size0 st st' :
  size0 < SIZE_MOD -> 0 <= header_size_ e < SIZE_MOD ->
  0 <= snd st ->
  copy_inv size0 st -> copy_header T e st = inl st' -> copy_inv size0 st'.
Proof.
  intros Hmax HH. destruct st as [[[size buf] copied] from]. cbn [snd].
  intros Hfrom (Hs & Hb & Hsum). unfold copy_header.
  destruct (Z.ltb_spec 0 size) as [Hs0|Hs0]; cbn [andb].
  2: { intros H; inversion H; subst. repeat split; assumption. }
  destruct (Z.ltb_spec from (header_size_ e)) as [Hin|Hout].
  2: { intros H; inversion H; subst. repeat split; assumption. }
  destruct (header_image T e) as [tmp|] eqn:Hi; [|discriminate].
  pose proof (header_image_length _ _ _ Hi ltac:(lia)) as Hl.
  rewrite (wrap_small (header_size_ e - from)) by lia.
  set (len := if size <? header_size_ e - from then size else header_size_ e - from).
  assert (Hlen : 0 < len <= size /\ len <= header_size_ e - from).
  { unfold len. destruct (Z.ltb_spec size (header_size_ e - from)); lia. }
  destruct (wrap (from + len) <=? header_size_ e); [|discriminate].
  intros H; inversion H; subst; clear H.
  pose proof (zlen_nonneg buf).
  rewrite (wrap_small (size - len)) by lia.
  rewrite (wrap_small (zlen buf + len)) by lia.
  repeat split; try lia.
  rewrite zlen_app, zlen_firstn, zlen_skipn by lia. lia.
Qed.

Lemma copy_content_inv disk e size0 st :
  size0 < SIZE_MOD -> copy_inv size0 st ->
  match copy_content disk e st with
  | inl st' => copy_inv size0 st'
  | inr (Returned n w f) => n = 0 /\ f = true /\ zlen w <= size0
  | inr _ => True
  end.
Proof.
  intros Hmax. destruct st as [[[size buf] copied] from].
  intros (Hs & Hb & Hsum). unfold copy_content.
  pose proof (zlen_nonneg buf) as Hb0.
  destruct ((0 <? size) && (copied <? blocked_size_ e)
            && (header_size_ e <=? from) && (from <? blocked_size_ e)).
  2: { repeat split; assumption. }
  destruct (virtual_file_ e).
  - set (off := wrap (from - header_size_ e)).
    pose proof (wrap_range (from - header_size_ e)) as Hoff. fold off in Hoff.
    pose proof (wrap_range (zlen (content e) - off)) as Hw.
    set (len := if size <? wrap (zlen (content e) - off) then size
                else wrap (zlen (content e) - off)).
    assert (Hlen : 0 <= len <= size).
    { unfold len. destruct (Z.ltb_spec size (wrap (zlen (content e) - off))); lia. }
    destruct (Z.leb_spec (off + len) (zlen (content e))) as [Hin|]; [|exact I].
    rewrite (wrap_small (size - len)) by lia.
    rewrite (wrap_small (copied + len)) by lia.
    repeat split; try lia.
    rewrite zlen_app, zlen_firstn, zlen_skipn by lia. lia.
  - destruct (disk (abspath_ e)) as [fd|]; [|repeat split; lia].
    unfold pread. destruct (f_ioerr fd); [repeat split; lia|].
    set (data := firstn (Z.to_nat size) _).
    assert (Hd : 0 <= zlen data <= size).
    { split; [apply zlen_nonneg|]. unfold data. rewrite zlen_firstn by lia. lia. }
    rewrite (wrap_small (size - zlen data)) by lia.
    rewrite (wrap_small (copied + zlen data)) by lia.
    repeat split; try lia. rewrite zlen_app. lia.
Qed.

Lemma copy_padding_inv size0 st n w f :
  size0 < SIZE_MOD -> copy_inv size0 st ->
  copy_padding st = Returned n w f ->
  f = false /\ n = zlen w /\ zlen w <= size0.
Proof.
  intros Hmax. destruct st as [[[size buf] copied] from].
  intros (Hs & Hb & Hsum). unfold copy_padding.
  fold (padding_after copied size).
  pose proof (padding_after_range copied size Hs) as Hp.
  assert (Hps : padding_after copied size <= size).
  { unfold padding_after. destruct (Z.ltb_spec size
      (if copied mod T_BLOCKSIZE =? 0 then 0 else T_BLOCKSIZE - copied mod T_BLOCKSIZE)); lia. }
  pose proof (zlen_nonneg buf) as Hb0.
  intros E; inversion E; subst; clear E.
  rewrite wrap_small by lia.
  rewrite zlen_app, zlen_zeros by lia. repeat split; lia.
Qed.

(** X3.  copy never stores more bytes than the request asks for; when it
    logs no failure the count it returns is the number of bytes it has
    stored, and when it logs a failure it returns 0. *)
Theorem copy_stays_within_the_request (T : TarHeaderApi) (disk : FileSystem)
    (e : TarEntry) (size from n : Z) (w : chars) (f : bool) :
  0 <= size < SIZE_MOD -> 0 <= from ->
  0 <= header_size_ e < SIZE_MOD ->
  copy T disk e size from = Returned n w f ->
  zlen w <= size
  /\ (f = false -> n = zlen w)
  /\ (f = true -> n = 0).
Proof.
  intros Hsize Hfrom HH. unfold copy.
  assert (I0 : copy_inv size (size, @nil ascii, 0, from)).
  { split; [lia | split; [reflexivity | lia]]. }
  destruct (copy_header T e (size, [], 0, from)) as [st1|out] eqn:E1.
  2: { revert E1. unfold copy_header.
       destruct ((0 <? size) && (from <? header_size_ e)); [|discriminate].
       destruct (header_image T e); [|intros H; inversion H; discriminate].
       match goal with |- context [if ?c then inl _ else _] => destruct c end;
         [discriminate | intros H; inversion H; discriminate]. }
  pose proof (copy_header_inv T e size (size, [], 0, from) st1
                (proj2 Hsize) HH Hfrom I0 E1) as I1.
  pose proof (copy_content_inv disk e size st1 (proj2 Hsize) I1) as I2.
  destruct (copy_content disk e st1) as [st2|out].
  - intros P. destruct (copy_padding_inv size st2 n w f (proj2 Hsize) I2 P) as (-> & -> & Hle).
    repeat split; [exact Hle | discriminate].
  - intros ->. destruct I2 as (-> & -> & Hle).
    repeat split; [exact Hle | discriminate].
Qed.

Lemma copy_stays_within_the_request_witness :
  zlen (repeat "x"%char 657 ++ zeros 367) <= 10000
  /\ (false = false -> 1024 = zlen (repeat "x"%char 657 ++ zeros 367))
  /\ (false = true -> 1024 = 0).
Proof.
  assert (Hs : 0 <= 10000 < SIZE_MOD) by (vm_compute; split; congruence).
  assert (Hf : 0 <= 600) by lia.
  assert (Hh : 0 <= header_size_ entry745_v < SIZE_MOD) by (vm_compute; split; congruence).
  assert (Hc : copy tar_model (disk_with (path_of "/home/u/testing") (sample_file 745))
                 entry745_v 10000 600
               = Returned 1024 (repeat "x"%char 657 ++ zeros 367) false)
    by (vm_compute; reflexivity).
  exact (copy_stays_within_the_request tar_model _ entry745_v 10000 600 1024 _ false
           Hs Hf Hh Hc).
Defined.

(** The padding part of [copy] adds nothing when the request is used
    up. *)
Lemma copy_padding_done buf copied from :
  0 <= copied < SIZE_MOD ->
  copy_padding (0, buf, copied, from) = Returned copied buf false.
Proof.
  intros Hc. unfold copy_padding.
  assert (Hm : 0 <= copied mod T_BLOCKSIZE < T_BLOCKSIZE)
    by (apply Z.mod_pos_bound; reflexivity).
  assert (Hr : (if 0 <? (if copied mod T_BLOCKSIZE =? 0 then 0
                         else T_BLOCKSIZE - copied mod T_BLOCKSIZE)
                then 0
                else (if copied mod T_BLOCKSIZE =? 0 then 0
                      else T_BLOCKSIZE - copied mod T_BLOCKSIZE)) = 0).
  { destruct (Z.eqb_spec (copied mod T_BLOCKSIZE) 0); [reflexivity|].
    destruct (Z.ltb_spec 0 (T_BLOCKSIZE - copied mod T_BLOCKSIZE)); lia. }
  rewrite Hr, Z.add_0_r, zeros_0, app_nil_r, wrap_small by exact Hc. reflexivity.
Qed.

(** The content part of [copy] when the file has all the bytes asked
    for. *)
Lemma copy_content_full disk e f size buf copied from :
  virtual_file_ e = false ->
  disk (abspath_ e) = Some f -> f_ioerr f = false ->
  0 < size -> 0 <= copied -> copied + size < SIZE_MOD ->
  copied < blocked_size_ e ->
  header_size_ e <= from < blocked_size_ e -> from < SIZE_MOD ->
  0 <= header_size_ e ->
  from - header_size_ e + size <= zlen (f_data f) ->
  copy_content disk e (size, buf, copied, from)
  = inl (0, buf ++ slice (f_data f) (from - header_size_ e) size,
         copied + size, from).
Proof.
  intros Hv Hd Hio Hs Hc Hmax Hcb Hfrom Hfmax H0 Hl.
  unfold copy_content.
  replace (0 <? size) with true by (symmetry; apply Z.ltb_lt; lia).
  replace (copied <? blocked_size_ e) with true by (symmetry; apply Z.ltb_lt; lia).
  replace (header_size_ e <=? from) with true by (symmetry; apply Z.leb_le; lia).
  replace (from <? blocked_size_ e) with true by (symmetry; apply Z.ltb_lt; lia).
  cbn [andb]. rewrite Hv, Hd. unfold pread. rewrite Hio.
  rewrite (wrap_small (from - header_size_ e)) by lia.
  fold (slice (f_data f) (from - header_size_ e) size).
  assert (E : zlen (slice (f_data f) (from - header_size_ e) size) = size).
  { unfold slice. rewrite zlen_firstn, zlen_skipn by lia. lia. }
  rewrite E, Z.sub_diag. change (wrap 0) with 0.
  rewrite wrap_small by lia. reflexivity.
Qed.

(** X4.  A request that ends before the padding of an on-disk entry --
    inside the header or inside the content -- is served exactly, whatever
    its offset: copy returns size and has stored the size bytes of header
    and content that start at from. *)
Theorem copy_before_the_padding_is_exact (T : TarHeaderApi) (disk : FileSystem)
    (e : TarEntry) (f : File) (hdr : chars) (size from : Z) :
  virtual_file_ e = false ->
  disk (abspath_ e) = Some f -> f_ioerr f = false ->
  header_image T e = Some hdr ->
  0 <= header_size_ e ->
  header_size_ e + zlen (f_data f) <= blocked_size_ e ->
  blocked_size_ e < SIZE_MOD ->
  0 <= from -> 0 < size ->
  from + size <= header_size_ e + zlen (f_data f) ->
  copy T disk e size from
  = Returned size (slice (hdr ++ f_data f) from size) false.
Proof.
  intros Hv Hd Hio Hi H0 Hle Hmax Hfrom Hsize Hend.
  pose proof (header_image_length _ _ _ Hi H0) as Hhl.
  pose proof (zlen_nonneg (f_data f)) as HL0.
  unfold copy, copy_header.
  replace (0 <? size) with true by (symmetry; apply Z.ltb_lt; lia).
  destruct (Z.ltb_spec from (header_size_ e)) as [Hin|Hout]; cbn [andb].
  - rewrite Hi. rewrite (wrap_small (header_size_ e - from)) by lia.
    destruct (Z.ltb_spec size (header_size_ e - from)) as [Hs|Hs].
    + (* the request ends inside the header *)
      rewrite (wrap_small (from + size)) by lia.
      replace (from + size <=? header_size_ e) with true
        by (symmetry; apply Z.leb_le; lia).
      rewrite Z.sub_diag. change (wrap 0) with 0.
      unfold copy_content. change (0 <? 0) with false. cbn [andb].
      rewrite (wrap_small (0 + size)) by lia.
      rewrite copy_padding_done by lia.
      rewrite slice_inside by lia. cbn [app]. f_equal.
    + (* the request goes on into the content, or ends with the header *)
      rewrite (wrap_small (from + _)) by lia.
      replace (from + (header_size_ e - from)) with (header_size_ e) by lia.
      rewrite Z.leb_refl.
      rewrite (wrap_small (size - _)) by lia.
      rewrite (wrap_small (0 + _)) by lia.
      cbn [app].
      rewrite (firstn_all2 (n := Z.to_nat (header_size_ e - from)))
        by (pose proof (zlen_skipn hdr from); unfold zlen in *; lia).
      rewrite slice_across by lia. rewrite Hhl.
      destruct (Z.eq_dec size (header_size_ e - from)) as [Heq|Hneq].
      * rewrite Heq, Z.sub_diag.
        unfold copy_content. change (0 <? 0) with false. cbn [andb].
        rewrite copy_padding_done by lia.
        unfold slice. cbn [Z.to_nat firstn]. rewrite app_nil_r.
        reflexivity.
      * rewrite (copy_content_full disk e f) by (assumption || lia).
        rewrite copy_padding_done by lia.
        rewrite Z.sub_diag. f_equal. lia.
  - (* the request starts in the content *)
    rewrite (copy_content_full disk e f) by (assumption || lia).
    rewrite copy_padding_done by lia.
    rewrite (slice_beyond hdr) by lia. rewrite Hhl. cbn [app]. reflexivity.
Qed.

Lemma copy_before_the_padding_is_exact_witness :
  copy tar_model (disk_with (path_of "/home/u/testing") (sample_file 745))
       entry745_v 700 300
  = Returned 700 (slice (header745_v ++ f_data (sample_file 745)) 300 700) false.
Proof.
  assert (Hi : header_image tar_model entry745_v = Some header745_v)
    by (vm_compute; reflexivity).
  assert (H0 : 0 <= header_size_ entry745_v) by (vm_compute; congruence).
  assert (Hle : header_size_ entry745_v + zlen (f_data (sample_file 745))
                <= blocked_size_ entry745_v) by (vm_compute; congruence).
  assert (Hmax : blocked_size_ entry745_v < SIZE_MOD) by reflexivity.
  assert (Hend : 300 + 700 <= header_size_ entry745_v + zlen (f_data (sample_file 745)))
    by (vm_compute; congruence).
  exact (copy_before_the_padding_is_exact tar_model _ entry745_v (sample_file 745)
           header745_v 700 300 eq_refl eq_refl eq_refl Hi H0 Hle Hmax
           ltac:(lia) ltac:(lia) Hend).
Defined.

(** X5.  A request that starts on a block boundary of an on-disk entry
    whose file has the length that the layout assumes gets min(size,
    blocked_size - from) bytes: the bytes of header, content and zero
    padding from the offset on. *)
Theorem copy_on_a_block_boundary (T : TarHeaderApi) (disk : FileSystem)
    (e : TarEntry) (f : File) (hdr : chars) (size from : Z) :
  virtual_file_ e = false ->
  disk (abspath_ e) = Some f -> f_ioerr f = false ->
  header_image T e = Some hdr ->
  laid_out e (f_data f) ->
  0 < size < SIZE_MOD ->
  0 <= from < blocked_size_ e -> from mod T_BLOCKSIZE = 0 ->
  copy T disk e size from
  = Returned (Z.min size (blocked_size_ e - from))
      (slice (entry_stream hdr (f_data f) (blocked_size_ e)) from size)
      false.
Proof.
  intros Hv Hd Hio Hi Hlay Hsize Hfrom Hfm.
  apply copy_block_aligned; try assumption.
  apply (header_image_length T); [exact Hi | exact (proj1 Hlay)].
Qed.

Lemma copy_on_a_block_boundary_witness :
  copy tar_model (disk_with (path_of "/home/u/testing") (sample_file 745))
       entry745_v 10000 512
  = Returned (Z.min 10000 (blocked_size_ entry745_v - 512))
      (slice (entry_stream header745_v (f_data (sample_file 745))
                (blocked_size_ entry745_v)) 512 10000)
      false.
Proof.
  assert (Hi : header_image tar_model entry745_v = Some header745_v)
    by (vm_compute; reflexivity).
  assert (Hlay : laid_out entry745_v (f_data (sample_file 745)))
    by (repeat split; vm_compute; congruence).
  assert (Hs : 0 < 10000 < SIZE_MOD) by (vm_compute; split; reflexivity).
  assert (Hf : 0 <= 512 < blocked_size_ entry745_v) by (vm_compute; split; congruence).
  exact (copy_on_a_block_boundary tar_model _ entry745_v (sample_file 745)
           header745_v 10000 512 eq_refl eq_refl eq_refl Hi Hlay Hs Hf eq_refl).
Defined.

Lemma slice_add (l : chars) a n m :
  0 <= a -> 0 <= n -> 0 <= m ->
  slice l a n ++ slice l (a + n) m = slice l a (n + m).
Proof.
  intros Ha Hn Hm. unfold slice.
  rewrite (Z2Nat.inj_add a n), (Z2Nat.inj_add n m) by lia.
  rewrite Nat.add_comm, <- skipn_skipn.
  generalize (skipn (Z.to_nat a) l). intros s.
  generalize (Z.to_nat n). clear. intros k. revert s.
  induction k as [|k IH]; intros s; [reflexivity|].
  destruct s as [|x s]; cbn [firstn skipn Nat.add app].
  - rewrite firstn_nil. reflexivity.
  - f_equal. apply IH.
Qed.

(** X6.  Reading an on-disk entry in steps that are multiples of the
    block size gives the stream of the entry piece by piece: a request
    of s1 bytes at a block boundary returns s1, and followed by a request
    at from + s1 it stores the same bytes, and as many, as one request for
    both. *)
Theorem copy_in_block_steps_composes (T : TarHeaderApi) (disk : FileSystem)
    (e : TarEntry) (f : File) (hdr : chars) (s1 s2 from : Z) :
  virtual_file_ e = false ->
  disk (abspath_ e) = Some f -> f_ioerr f = false ->
  header_image T e = Some hdr ->
  laid_out e (f_data f) ->
  0 <= from -> from mod T_BLOCKSIZE = 0 ->
  0 < s1 -> s1 mod T_BLOCKSIZE = 0 -> from + s1 < blocked_size_ e ->
  0 < s2 -> s1 + s2 < SIZE_MOD ->
  exists w1 n2 w2,
    copy T disk e s1 from = Returned s1 w1 false
    /\ copy T disk e s2 (from + s1) = Returned n2 w2 false
    /\ copy T disk e (s1 + s2) from = Returned (s1 + n2) (w1 ++ w2) false.
Proof.
  intros Hv Hd Hio Hi Hlay Hfrom Hfm Hs1 Hs1m Hin Hs2 Hmax.
  assert (Hm2 : (from + s1) mod T_BLOCKSIZE = 0).
  { unfold T_BLOCKSIZE in *. Z.div_mod_to_equations. lia. }
  pose proof (header_image_length T e hdr Hi (proj1 Hlay)) as Hhl.
  rewrite (copy_block_aligned T disk e f hdr s1 from) by (assumption || lia).
  rewrite (copy_block_aligned T disk e f hdr s2 (from + s1)) by (assumption || lia).
  rewrite (copy_block_aligned T disk e f hdr (s1 + s2) from) by (assumption || lia).
  eexists _, _, _. split; [|split]; [|reflexivity|].
  - f_equal. lia.
  - f_equal; [lia|]. symmetry. apply slice_add; lia.
Qed.

Lemma copy_in_block_steps_composes_witness :
  exists w1 n2 w2,
    copy tar_model (disk_with (path_of "/home/u/testing") (sample_file 745))
         entry745_v 512 0 = Returned 512 w1 false
    /\ copy tar_model (disk_with (path_of "/home/u/testing") (sample_file 745))
            entry745_v 4096 (0 + 512) = Returned n2 w2 false
    /\ copy tar_model (disk_with (path_of "/home/u/testing") (sample_file 745))
            entry745_v (512 + 4096) 0 = Returned (512 + n2) (w1 ++ w2) false.
Proof.
  assert (Hi : header_image tar_model entry745_v = Some header745_v)
    by (vm_compute; reflexivity).
  assert (Hlay : laid_out entry745_v (f_data (sample_file 745)))
    by (repeat split; vm_compute; congruence).
  assert (Hin : 0 + 512 < blocked_size_ entry745_v) by reflexivity.
  assert (Hmax : 512 + 4096 < SIZE_MOD) by reflexivity.
  exact (copy_in_block_steps_composes tar_model _ entry745_v (sample_file 745)
           header745_v 512 4096 0 eq_refl eq_refl eq_refl Hi Hlay
           ltac:(lia) eq_refl ltac:(lia) eq_refl Hin ltac:(lia) Hmax).
Defined.

(** The content part of [copy] treats a virtual entry as it treats the
    file that holds the same bytes, as long as the read starts at or
    before the end of the content. *)
Lemma copy_content_virtual disk e size buf copied from :
  virtual_file_ e = true ->
  0 <= size < SIZE_MOD -> zlen (content e) < SIZE_MOD ->
  (header_size_ e <= from -> 0 <= from - header_size_ e <= zlen (content e)) ->
  copy_content disk e (size, buf, copied, from)
  = copy_content (disk_holding (content e)) (on_disk e) (size, buf, copied, from).
Proof.
  intros Hv Hsize HL Hoff. unfold copy_content.
  cbn [on_disk header_size_ blocked_size_ virtual_file_ abspath_].
  destruct ((0 <? size) && (copied <? blocked_size_ e)) eqn:G1; [|reflexivity].
  destruct (Z.leb_spec (header_size_ e) from) as [Hge|]; [|reflexivity].
  cbn [andb]. destruct (from <? blocked_size_ e); [|reflexivity].
  rewrite Hv. unfold disk_holding, pread. cbn [f_ioerr f_data].
  specialize (Hoff Hge).
  rewrite (wrap_small (from - header_size_ e)) by lia.
  set (off := from - header_size_ e) in *.
  rewrite (wrap_small (zlen (content e) - off)) by lia.
  set (L := zlen (content e)) in *.
  assert (Hk : zlen (skipn (Z.to_nat off) (content e)) = L - off)
    by (apply zlen_skipn; lia).
  destruct (Z.ltb_spec size (L - off)) as [Hlt|Hge'].
  - replace (off + size <=? L) with true by (symmetry; apply Z.leb_le; lia).
    rewrite zlen_firstn, Hk by lia. rewrite Z.min_l by lia. reflexivity.
  - replace (off + (L - off) <=? L) with true by (symmetry; apply Z.leb_le; lia).
    rewrite zlen_firstn, Hk by lia. rewrite Z.min_r by lia.
    rewrite (firstn_all2 (n := Z.to_nat (L - off))) by (unfold zlen in *; lia).
    rewrite (firstn_all2 (n := Z.to_nat size)) by (unfold zlen in *; lia).
    reflexivity.
Qed.

Lemma copy_virtual_transfer T disk e size from :
  virtual_file_ e = true ->
  0 <= size < SIZE_MOD -> 0 <= from ->
  0 <= header_size_ e < SIZE_MOD ->
  zlen (content e) < SIZE_MOD ->
  from <= header_size_ e + zlen (content e) ->
  copy T disk e size from
  = copy T (disk_holding (content e)) (on_disk e) size from.
Proof.
  intros Hv Hsize Hfrom HH HL Hend. unfold copy.
  change (copy_header T (on_disk e) (size, [], 0, from))
    with (copy_header T e (size, [], 0, from)).
  destruct (copy_header T e (size, [], 0, from)) as [[[[size1 buf1] copied1] from1]|out] eqn:E1;
    [|reflexivity].
  assert (Hst : 0 <= size1 < SIZE_MOD
                /\ (header_size_ e <= from1 ->
                    0 <= from1 - header_size_ e <= zlen (content e))).
  { revert E1. unfold copy_header.
    destruct (Z.ltb_spec 0 size) as [Hs0|Hs0]; cbn [andb].
    2: { intros H; inversion H; subst. split; lia. }
    destruct (Z.ltb_spec from (header_size_ e)) as [Hin|Hout].
    2: { intros H; inversion H; subst. split; lia. }
    destruct (header_image T e) as [tmp|]; [|discriminate].
    rewrite (wrap_small (header_size_ e - from)) by lia.
    set (len := if size <? header_size_ e - from then size else header_size_ e - from).
    assert (Hlen : 0 < len <= size /\ len <= header_size_ e - from).
    { unfold len. destruct (Z.ltb_spec size (header_size_ e - from)); lia. }
    rewrite (wrap_small (from + len)) by lia.
    destruct (Z.leb_spec (from + len) (header_size_ e)) as [Hfit|]; [|discriminate].
    intros E; inversion E; subst; clear E.
    rewrite (wrap_small (size - len)) by lia.
    pose proof (zlen_nonneg (content e)) as HL0. split; lia. }
  destruct Hst as [Hs1 Hoff].
  rewrite (copy_content_virtual disk e size1 buf1 copied1 from1 Hv Hs1 HL Hoff).
  reflexivity.
Qed.

(** X7.  A virtual entry is served like the on-disk entry with the same
    layout whose file holds the content vector, for every request that
    starts at or before the end of the content. *)
Theorem copy_virtual_as_on_disk (T : TarHeaderApi) (disk : FileSystem)
    (e : TarEntry) (size from : Z) :
  virtual_file_ e = true ->
  0 <= size < SIZE_MOD -> 0 <= from ->
  0 <= header_size_ e < SIZE_MOD ->
  zlen (content e) < SIZE_MOD ->
  from <= header_size_ e + zlen (content e) ->
  copy T disk e size from
  = copy T (disk_holding (content e)) (on_disk e) size from.
Proof. apply copy_virtual_transfer. Qed.

Lemma copy_virtual_as_on_disk_witness :
  copy tar_model no_disk virtual_v 10000 600
  = copy tar_model (disk_holding (content virtual_v)) (on_disk virtual_v) 10000 600.
Proof.
  assert (Hs : 0 <= 10000 < SIZE_MOD) by (vm_compute; split; congruence).
  assert (Hh : 0 <= header_size_ virtual_v < SIZE_MOD) by (vm_compute; split; congruence).
  assert (HL : zlen (content virtual_v) < SIZE_MOD) by reflexivity.
  assert (Hend : 600 <= header_size_ virtual_v + zlen (content virtual_v))
    by (vm_compute; congruence).
  exact (copy_virtual_as_on_disk tar_model no_disk virtual_v 10000 600
           eq_refl Hs ltac:(lia) Hh HL Hend).
Defined.

(** X8.  A request that starts in the padding of a virtual entry reads
    outside the content vector: the length left in the vector is computed
    below zero and wraps, so that nothing bounds the copy. *)
Theorem copy_virtual_in_the_padding_is_undefined (T : TarHeaderApi)
    (disk : FileSystem) (e : TarEntry) (size from : Z) :
  virtual_file_ e = true ->
  0 < size -> 0 <= header_size_ e ->
  header_size_ e + zlen (content e) < from < blocked_size_ e ->
  from < SIZE_MOD ->
  copy T disk e size from = Undefined.
Proof.
  intros Hv Hsize H0 Hfrom Hmax.
  pose proof (zlen_nonneg (content e)) as HL0.
  unfold copy, copy_header.
  replace (from <? header_size_ e) with false by (symmetry; apply Z.ltb_ge; lia).
  rewrite andb_false_r. unfold copy_content.
  replace (0 <? size) with true by (symmetry; apply Z.ltb_lt; lia).
  replace (0 <? blocked_size_ e) with true by (symmetry; apply Z.ltb_lt; lia).
  replace (header_size_ e <=? from) with true by (symmetry; apply Z.leb_le; lia).
  replace (from <? blocked_size_ e) with true by (symmetry; apply Z.ltb_lt; lia).
  cbn [andb]. rewrite Hv.
  rewrite (wrap_small (from - header_size_ e)) by lia.
  set (off := from - header_size_ e).
  assert (Hw : wrap (zlen (content e) - off) = zlen (content e) - off + SIZE_MOD).
  { unfold wrap. symmetry. apply (Z.mod_unique_pos _ _ (-1)); unfold off; lia. }
  rewrite Hw.
  match goal with |- context [if ?c then inl _ else _] =>
    replace c with false; [reflexivity|] end.
  symmetry. apply Z.leb_gt.
  destruct (Z.ltb_spec size (zlen (content e) - off + SIZE_MOD)); unfold off in *; lia.
Qed.

Lemma copy_virtual_in_the_padding_is_undefined_witness :
  copy tar_model no_disk virtual_v 1 1400 = Undefined.
Proof.
  assert (H0 : 0 <= header_size_ virtual_v) by (vm_compute; congruence).
  assert (Hf : header_size_ virtual_v + zlen (content virtual_v) < 1400
               < blocked_size_ virtual_v) by (vm_compute; split; reflexivity).
  assert (Hmax : 1400 < SIZE_MOD) by reflexivity.
  exact (copy_virtual_in_the_padding_is_undefined tar_model no_disk virtual_v 1 1400
           eq_refl ltac:(lia) H0 Hf Hmax).
Defined.

(** X9.  When a request starts in the header and reaches the content of
    an on-disk entry whose file cannot be opened or read, copy returns 0
    and logs the failure although it has stored the rest of the header in
    the buffer. *)
Theorem copy_fails_after_storing_the_header (T : TarHeaderApi) (disk : FileSystem)
    (e : TarEntry) (hdr : chars) (size from : Z) :
  virtual_file_ e = false ->
  (disk (abspath_ e) = None
   \/ exists f, disk (abspath_ e) = Some f /\ f_ioerr f = true) ->
  header_image T e = Some hdr ->
  0 <= from < header_size_ e ->
  header_size_ e < blocked_size_ e < SIZE_MOD ->
  header_size_ e - from < size < SIZE_MOD ->
  copy T disk e size from = Returned 0 (skipn (Z.to_nat from) hdr) true.
Proof.
  intros Hv Hfail Hi Hfrom Hb Hsize.
  assert (H0 : 0 <= header_size_ e) by lia.
  pose proof (header_image_length T e hdr Hi H0) as Hhl.
  unfold copy, copy_header.
  replace (0 <? size) with true by (symmetry; apply Z.ltb_lt; lia).
  replace (from <? header_size_ e) with true by (symmetry; apply Z.ltb_lt; lia).
  cbn [andb]. rewrite Hi.
  rewrite (wrap_small (header_size_ e - from)) by lia.
  replace (size <? header_size_ e - from) with false by (symmetry; apply Z.ltb_ge; lia).
  rewrite (wrap_small (from + _)) by lia.
  replace (from + (header_size_ e - from)) with (header_size_ e) by lia.
  rewrite Z.leb_refl.
  rewrite (wrap_small (size - _)) by lia.
  rewrite (wrap_small (0 + _)) by lia.
  cbn [app].
  rewrite (firstn_all2 (n := Z.to_nat (header_size_ e - from)))
    by (pose proof (zlen_skipn hdr from); unfold zlen in *; lia).
  unfold copy_content.
  replace (0 <? size - (header_size_ e - from)) with true
    by (symmetry; apply Z.ltb_lt; lia).
  replace (0 + (header_size_ e - from) <? blocked_size_ e) with true
    by (symmetry; apply Z.ltb_lt; lia).
  rewrite Z.leb_refl.
  replace (header_size_ e <? blocked_size_ e) with true
    by (symmetry; apply Z.ltb_lt; lia).
  cbn [andb]. rewrite Hv.
  destruct Hfail as [Hn|(f & Hf & Hio)].
  - rewrite Hn. reflexivity.
  - rewrite Hf. unfold pread. rewrite Hio. reflexivity.
Qed.

Lemma copy_fails_after_storing_the_header_witness :
  copy tar_model no_disk entry745_v 1000 500
  = Returned 0 (skipn (Z.to_nat 500) header745_v) true.
Proof.
  assert (Hi : header_image tar_model entry745_v = Some header745_v)
    by (vm_compute; reflexivity).
  assert (Hf : 0 <= 500 < header_size_ entry745_v) by (vm_compute; split; congruence).
  assert (Hb : header_size_ entry745_v < blocked_size_ entry745_v < SIZE_MOD)
    by (vm_compute; split; reflexivity).
  assert (Hs : header_size_ entry745_v - 500 < 1000 < SIZE_MOD)
    by (vm_compute; split; reflexivity).
  exact (copy_fails_after_storing_the_header tar_model no_disk entry745_v header745_v
           1000 500 eq_refl (or_introl eq_refl) Hi Hf Hb Hs).
Defined.

(** X10.  A virtual entry whose content has the length that the layout
    assumes is served at block boundaries like an entry on disk: a request
    that starts on a block boundary gets min(size, blocked_size - from)
    bytes of header, content vector and zero padding. *)
Theorem copy_virtual_on_a_block_boundary (T : TarHeaderApi) (disk : FileSystem)
    (e : TarEntry) (hdr : chars) (size from : Z) :
  virtual_file_ e = true ->
  header_image T e = Some hdr ->
  laid_out e (content e) ->
  0 < size < SIZE_MOD ->
  0 <= from < blocked_size_ e -> from mod T_BLOCKSIZE = 0 ->
  copy T disk e size from
  = Returned (Z.min size (blocked_size_ e - from))
      (slice (entry_stream hdr (content e) (blocked_size_ e)) from size)
      false.
Proof.
  intros Hv Hi Hlay Hsize Hfrom Hfm.
  pose proof Hlay as (H0 & Hh & Hb & Hle & Hlt & Hmax).
  pose proof (zlen_nonneg (content e)) as HL0.
  assert (Hend : from <= header_size_ e + zlen (content e)).
  { unfold T_BLOCKSIZE in *. Z.div_mod_to_equations. lia. }
  rewrite (copy_virtual_transfer T disk e size from) by (assumption || lia).
  apply (copy_block_aligned T (disk_holding (content e)) (on_disk e)
           (mk_File (content e) false) hdr size from); try assumption; try reflexivity.
  apply (header_image_length T e hdr Hi H0).
Qed.

Lemma copy_virtual_on_a_block_boundary_witness :
  copy tar_model no_disk virtual_v 10000 512
  = Returned (Z.min 10000 (blocked_size_ virtual_v - 512))
      (slice (entry_stream header745_v (content virtual_v) (blocked_size_ virtual_v))
             512 10000)
      false.
Proof.
  assert (Hi : header_image tar_model virtual_v = Some header745_v)
    by (vm_compute; reflexivity).
  assert (Hlay : laid_out virtual_v (content virtual_v))
    by (repeat split; vm_compute; congruence).
  assert (Hs : 0 < 10000 < SIZE_MOD) by (vm_compute; split; reflexivity).
  assert (Hf : 0 <= 512 < blocked_size_ virtual_v) by (vm_compute; split; congruence).
  exact (copy_virtual_on_a_block_boundary tar_model no_disk virtual_v header745_v
           10000 512 eq_refl Hi Hlay Hs Hf eq_refl).
Defined.

Lemma copy_content_skipped disk e st :
  blocked_size_ e <= header_size_ e -> copy_content disk e st = inl st.
Proof.
  intros Hb. destruct st as [[[size buf] copied] from]. unfold copy_content.
  destruct (Z.leb_spec (header_size_ e) from), (Z.ltb_spec from (blocked_size_ e));
    try lia; rewrite ?andb_false_r; reflexivity.
Qed.

(** X11.  For an entry without content in the archive -- its blocked
    size is its header size, as for a hard link -- copy never opens the
    file: what it returns and stores is the same whatever is on the
    disk. *)
Theorem copy_without_content_leaves_the_disk_alone (T : TarHeaderApi)
    (disk disk' : FileSystem) (e : TarEntry) (size from : Z) :
  blocked_size_ e <= header_size_ e ->
  copy T disk e size from = copy T disk' e size from.
Proof.
  intros Hb. unfold copy.
  destruct (copy_header T e (size, [], 0, from)) as [st|out]; [|reflexivity].
  rewrite !copy_content_skipped by exact Hb. reflexivity.
Qed.

Lemma copy_without_content_leaves_the_disk_alone_witness :
  copy tar_model (disk_with (path_of "/a/b/e") (sample_file 745)) hard_v 4096 0
  = copy tar_model no_disk hard_v 4096 0.
Proof.
  apply (copy_without_content_leaves_the_disk_alone tar_model _ no_disk hard_v 4096 0).
  vm_compute. discriminate.
Defined.

(** ** The name check *)

Lemma chars_eqb_length a b :
  List.length a <> List.length b -> chars_eqb a b = false.
Proof.
  intros H. unfold chars_eqb.
  destruct (list_eq_dec ascii_dec a b) as [->|]; [congruence | reflexivity].
Qed.

Lemma strncmp_ne_prefix y r k :
  0 <= k <= zlen y -> strncmp_ne (y ++ r) y k = false.
Proof.
  intros Hk. unfold strncmp_ne, zlen in *.
  rewrite firstn_app.
  replace (Z.to_nat k - List.length y)%nat with 0%nat by lia.
  cbn [firstn]. rewrite app_nil_r, chars_eqb_refl. reflexivity.
Qed.

Lemma wrap_pred_le n : 1 <= n -> 0 <= wrap (n - 1) <= n - 1.
Proof.
  intros Hn. split; [apply wrap_range|].
  unfold wrap. apply Z.mod_le; [lia | reflexivity].
Qed.

(** X12.  sanityCheck accepts every x that starts with y: the comparison
    runs over the length of y only, so that it is a prefix test and not
    the test for equality that its error message speaks of. *)
Theorem sanityCheck_accepts_any_extension (y r : chars) :
  sanityCheck (y ++ r) y = true.
Proof.
  unfold sanityCheck.
  destruct (strcmp_ne (y ++ r) y); [|reflexivity].
  match goal with |- (if ?c then true else _) = true => destruct c end;
    [reflexivity|].
  cbv zeta.
  destruct y as [|c y].
  - (* an empty y: nothing is compared *)
    cbn [app]. unfold char_at at 3. cbn [Z.to_nat nth].
    replace (Ascii.eqb (nth (Z.to_nat (wrap (zlen (@nil ascii) - 1))) [] zero) "/"%char)
      with false by (destruct (Z.to_nat _); reflexivity).
    rewrite andb_false_r. cbn [andb].
    unfold strncmp_ne. change (Z.to_nat (zlen (@nil ascii))) with 0%nat.
    cbn [firstn]. reflexivity.
  - cbn [app]. unfold char_at at 1 2. cbn [Z.to_nat nth].
    rewrite andb_negb_r.
    assert (H1 : 1 <= zlen (c :: y))
      by (rewrite zlen_cons; pose proof (zlen_nonneg y); lia).
    pose proof (wrap_pred_le _ H1) as Hw.
    change (c :: y ++ r) with ((c :: y) ++ r).
    match goal with |- (if strncmp_ne _ _ (if ?b then _ else _) then _ else _) = _ =>
      destruct b end.
    + rewrite strncmp_ne_prefix by lia. reflexivity.
    + rewrite strncmp_ne_prefix by lia. reflexivity.
Qed.

Lemma char_at_end (s : chars) (c : ascii) r : char_at (s ++ c :: r) (zlen s) = c.
Proof. unfold char_at, zlen. rewrite Nat2Z.id. apply nth_middle. Qed.

Lemma char_at_beyond (s : chars) : char_at s (zlen s) = zero.
Proof. unfold char_at, zlen. rewrite Nat2Z.id. apply nth_overflow. lia. Qed.

Lemma char_at_app_0 (s r : chars) : s <> [] -> char_at (s ++ r) 0 = char_at s 0.
Proof. destruct s; [congruence | reflexivity]. Qed.

Lemma strncmp_ne_same s r : strncmp_ne s (s ++ r) (zlen s) = false.
Proof.
  unfold strncmp_ne, zlen. rewrite Nat2Z.id.
  rewrite firstn_all, firstn_app, firstn_all, Nat.sub_diag.
  cbn [firstn]. rewrite app_nil_r, chars_eqb_refl. reflexivity.
Qed.

(** The name of a directory as the tar header has it, with a slash at
    its end. *)
Lemma sanityCheck_final_slash s :
  zlen s < SIZE_MOD -> char_at s 0 <> "/"%char ->
  sanityCheck s (s ++ ["/"%char]) = true.
Proof.
  intros Hmax Hs0. unfold sanityCheck.
  destruct (strcmp_ne s (s ++ ["/"%char])); [|reflexivity].
  match goal with |- (if ?c then true else _) = true => destruct c end;
    [reflexivity|].
  cbv zeta.
  apply Ascii.eqb_neq in Hs0. rewrite Hs0. cbn [andb].
  rewrite zlen_app. change (zlen ["/"%char]) with 1.
  replace (zlen s + 1 - 1) with (zlen s) by lia.
  pose proof (zlen_nonneg s).
  rewrite wrap_small by lia.
  rewrite Z.eqb_refl, char_at_end, char_at_beyond. cbn [Ascii.eqb andb].
  change (Ascii.eqb "/"%char "/"%char && Ascii.eqb zero zero) with true.
  cbv iota. rewrite strncmp_ne_same. reflexivity.
Qed.

(** X13.  sanityCheck accepts the forms in which a tar header stores the
    path x of an entry: the path itself, the path without its leading
    slash, and either of them with a slash at its end (a directory); and
    the name "." for the empty path. *)
Theorem sanityCheck_accepts_the_stored_forms (s : chars) :
  zlen s < SIZE_MOD -> char_at s 0 <> "/"%char ->
  sanityCheck s s = true
  /\ sanityCheck ("/"%char :: s) s = true
  /\ sanityCheck s (s ++ ["/"%char]) = true
  /\ sanityCheck ("/"%char :: s) (s ++ ["/"%char]) = true
  /\ sanityCheck [] ["."%char] = true.
Proof.
  intros Hmax Hs0.
  pose proof (zlen_nonneg s) as Hl0.
  split; [|split; [|split; [|split]]].
  - unfold sanityCheck, strcmp_ne. rewrite chars_eqb_refl. reflexivity.
  - (* the leading slash is dropped, then the two are equal *)
    unfold sanityCheck.
    destruct (strcmp_ne ("/"%char :: s) s); [|reflexivity].
    unfold char_at at 1. cbn [Z.to_nat nth].
    change (Ascii.eqb "/"%char zero) with false. cbn [andb]. cbv zeta.
    unfold char_at at 1. cbn [Z.to_nat nth]. rewrite Ascii.eqb_refl.
    pose proof Hs0 as Hs0'. apply Ascii.eqb_neq in Hs0'. rewrite Hs0'.
    cbn [negb andb tl].
    replace (wrap (zlen s - 1) =? zlen s) with false.
    2: { symmetry. apply Z.eqb_neq.
         destruct (Z.eq_dec (zlen s) 0) as [E|E].
         - rewrite E. vm_compute. discriminate.
         - rewrite wrap_small by lia. lia. }
    cbn [andb]. unfold strncmp_ne. rewrite chars_eqb_refl. reflexivity.
  - apply sanityCheck_final_slash; assumption.
  - destruct s as [|c s].
    + reflexivity.
    + unfold sanityCheck.
      destruct (strcmp_ne ("/"%char :: c :: s) ((c :: s) ++ ["/"%char]));
        [|reflexivity].
      unfold char_at at 1. cbn [Z.to_nat nth].
      change (Ascii.eqb "/"%char zero) with false. cbn [andb]. cbv zeta.
      unfold char_at at 1. cbn [Z.to_nat nth]. rewrite Ascii.eqb_refl.
      rewrite char_at_app_0 by discriminate.
      pose proof Hs0 as Hs0'. apply Ascii.eqb_neq in Hs0'. rewrite Hs0'.
      cbn [negb andb tl].
      rewrite zlen_app. change (zlen ["/"%char]) with 1.
      replace (zlen (c :: s) + 1 - 1) with (zlen (c :: s)) by lia.
      rewrite wrap_small by lia.
      rewrite Z.eqb_refl, char_at_end, char_at_beyond.
      change (Ascii.eqb "/"%char "/"%char && Ascii.eqb zero zero) with true.
      cbn [andb]. rewrite strncmp_ne_same. reflexivity.
  - reflexivity.
Qed.

Lemma sanityCheck_accepts_the_stored_forms_witness :
  sanityCheck (lit "home/u") (lit "home/u") = true
  /\ sanityCheck ("/"%char :: lit "home/u") (lit "home/u") = true
  /\ sanityCheck (lit "home/u") (lit "home/u" ++ ["/"%char]) = true
  /\ sanityCheck ("/"%char :: lit "home/u") (lit "home/u" ++ ["/"%char]) = true
  /\ sanityCheck [] ["."%char] = true.
Proof.
  apply (sanityCheck_accepts_the_stored_forms (lit "home/u")).
  - reflexivity.
  - vm_compute. discriminate.
Defined.

(** ** The youngest entry *)

Lemma updateMtim_comm fut e1 e2 m :
  updateMtim fut e1 (updateMtim fut e2 m) = updateMtim fut e2 (updateMtim fut e1 m).
Proof.
  unfold updateMtim.
  generalize (fut (st_mtim (fs_ e1))) (fut (st_mtim (fs_ e2))).
  generalize (st_mtim (fs_ e1)) (st_mtim (fs_ e2)).
  intros [s1 n1] [s2 n2] b1 b2. destruct m as [s n].
  destruct b1, b2; cbn [tv_sec tv_nsec]; try reflexivity.
  repeat (cbn [orb andb tv_sec tv_nsec];
          match goal with
          | |- context [?a <? ?b] =>
              is_var a; is_var b; destruct (Z.ltb_spec a b)
          | |- context [?a =? ?b] =>
              is_var a; is_var b; destruct (Z.eqb_spec a b)
          end);
    cbn [orb andb tv_sec tv_nsec]; try reflexivity; try lia; f_equal; lia.
Qed.

(** X14.  updateMtim never moves the time back, and brings it up to the
    modification time of every entry that is not in the future: after the
    call the time is not earlier than before, it is not earlier than the
    time of the entry unless that lies in the future, and it is one of the
    two. *)
Theorem updateMtim_takes_the_later (fut : timespec -> bool) (e : TarEntry)
    (m : timespec) :
  not_later m (updateMtim fut e m)
  /\ (fut (st_mtim (fs_ e)) = false -> not_later (st_mtim (fs_ e)) (updateMtim fut e m))
  /\ (updateMtim fut e m = m
      \/ (fut (st_mtim (fs_ e)) = false /\ updateMtim fut e m = st_mtim (fs_ e))).
Proof.
  unfold updateMtim, not_later.
  destruct (fut (st_mtim (fs_ e))).
  - split; [lia|]. split; [discriminate | left; reflexivity].
  - destruct (Z.ltb_spec (tv_sec m) (tv_sec (st_mtim (fs_ e)))),
             (Z.eqb_spec (tv_sec (st_mtim (fs_ e))) (tv_sec m)),
             (Z.ltb_spec (tv_nsec m) (tv_nsec (st_mtim (fs_ e))));
      cbn [orb andb]; (split; [lia|]); (split; [intros _; lia|]); auto.
Qed.

(** X15.  The time that updateMtim leaves after it has been called for
    a number of entries does not depend on the order of the calls. *)
Theorem updateMtim_in_any_order (fut : timespec -> bool) (es es' : list TarEntry)
    (m : timespec) :
  Permutation es es' ->
  fold_left (fun t e => updateMtim fut e t) es m
  = fold_left (fun t e => updateMtim fut e t) es' m.
Proof.
  intros P. revert m. induction P as [|x l l' _ IH|x y l|l l' l'' _ IH1 _ IH2]; intros m.
  - reflexivity.
  - cbn [fold_left]. apply IH.
  - cbn [fold_left]. rewrite updateMtim_comm. reflexivity.
  - rewrite IH1. apply IH2.
Qed.

Lemma updateMtim_in_any_order_witness :
  fold_left (fun t e => updateMtim (fun _ => false) e t) [entry745_v; symlink_v]
            (mk_timespec 0 0)
  = fold_left (fun t e => updateMtim (fun _ => false) e t) [symlink_v; entry745_v]
              (mk_timespec 0 0).
Proof.
  apply (updateMtim_in_any_order (fun _ => false)). apply perm_swap.
Defined.

(** ** The children of a directory *)

(** [erase_found] takes out the first occurrence and keeps the rest in
    place. *)
Lemma erase_found_split entry l :
  match erase_found entry l with
  | Some l' =>
      exists l1 l2, l = l1 ++ entry :: l2 /\ ~ In entry l1 /\ l' = l1 ++ l2
  | None => ~ In entry l
  end.
Proof.
  induction l as [|x l IH]; cbn [erase_found].
  - intros [].
  - destruct (Nat.eqb_spec x entry) as [->|Hx].
    + exists [], l. split; [reflexivity|]. split; [intros []|reflexivity].
    + destruct (erase_found entry l) as [l'|].
      * destruct IH as (l1 & l2 & -> & Hn & ->).
        exists (x :: l1), l2. split; [reflexivity|]. split; [|reflexivity].
        intros [H|H]; [congruence | exact (Hn H)].
      * intros [H|H]; [congruence | exact (IH H)].
Qed.

Lemma set_entries_same m d l : set_entries m d l d = l.
Proof. unfold set_entries. rewrite Nat.eqb_refl. reflexivity. Qed.

Lemma set_entries_other m d l x : x <> d -> set_entries m d l x = m x.
Proof.
  intros H. unfold set_entries. apply Nat.eqb_neq in H. rewrite H. reflexivity.
Qed.

(** X16.  moveEntryToNewParent moves one child and keeps the others in
    place: the children of this directory are l1, the entry, l2, with no
    occurrence of the entry in l1; after the call they are l1, l2 -- the
    first occurrence of the entry is gone, every other child is where it
    was, in the same order -- and the children of the new parent are those
    it had, followed by the entry; when the two directories are the same
    the children are l1, l2, the entry; the children of every other
    directory stay as they are.  An entry that is not a child of this
    directory is not moved: the call ends in the error. *)
Theorem moveEntryToNewParent_moves_one_child (m : Entries)
    (this entry parent : EntryRef) :
  match moveEntryToNewParent m this entry parent with
  | Some m' =>
      exists l1 l2,
        m this = l1 ++ entry :: l2
        /\ ~ In entry l1
        /\ (forall d, d <> this -> d <> parent -> m' d = m d)
        /\ (this <> parent ->
            m' this = l1 ++ l2 /\ m' parent = m parent ++ [entry])
        /\ (this = parent -> m' this = (l1 ++ l2) ++ [entry])
  | None => ~ In entry (m this)
  end.
Proof.
  unfold moveEntryToNewParent.
  pose proof (erase_found_split entry (m this)) as Hs.
  destruct (erase_found entry (m this)) as [l|]; [|exact Hs].
  destruct Hs as (l1 & l2 & Hm & Hn & ->).
  exists l1, l2.
  split; [exact Hm|]. split; [exact Hn|]. split; [|split].
  - intros d Hd1 Hd2. rewrite !set_entries_other by assumption. reflexivity.
  - intros Hne. split.
    + rewrite set_entries_other by exact Hne. rewrite set_entries_same. reflexivity.
    + rewrite set_entries_same. rewrite set_entries_other by congruence. reflexivity.
  - intros <-. rewrite !set_entries_same. reflexivity.
Qed.

(** X17.  An entry that addEntry has put into a directory that did not
    hold it is taken out again by moveEntryToNewParent: the directory has
    its former children, and the new parent has the entry at its end. *)
Theorem addEntry_then_moveEntryToNewParent (m : Entries)
    (this te parent : EntryRef) :
  ~ In te (m this) -> this <> parent ->
  exists m',
    moveEntryToNewParent (addEntry m this te) this te parent = Some m'
    /\ m' this = m this
    /\ m' parent = m parent ++ [te].
Proof.
  intros Hn Hne. unfold moveEntryToNewParent, addEntry.
  rewrite set_entries_same.
  assert (E : erase_found te (m this ++ [te]) = Some (m this)).
  { induction (m this) as [|x l IH]; cbn [app erase_found].
    - rewrite Nat.eqb_refl. reflexivity.
    - destruct (Nat.eqb_spec x te) as [->|Hx].
      + exfalso. apply Hn. left. reflexivity.
      + rewrite IH; [reflexivity|]. intros H. apply Hn. right. exact H. }
  rewrite E. eexists. split; [reflexivity|]. split.
  - rewrite set_entries_other by exact Hne. apply set_entries_same.
  - rewrite set_entries_same. rewrite !set_entries_other by congruence. reflexivity.
Qed.

Lemma addEntry_then_moveEntryToNewParent_witness :
  exists m',
    moveEntryToNewParent (addEntry (fun _ => [7%nat; 8%nat]) 1%nat 9%nat) 1%nat 9%nat 2%nat
      = Some m'
    /\ m' 1%nat = [7%nat; 8%nat]
    /\ m' 2%nat = [7%nat; 8%nat] ++ [9%nat].
Proof.
  apply (addEntry_then_moveEntryToNewParent (fun _ => [7%nat; 8%nat]) 1%nat 9%nat 2%nat).
  - intros [H|[H|[]]]; discriminate.
  - discriminate.
Defined.

(** ** What the fingerprint is taken of *)

Lemma of_le_bytes_le_bytes_n n v :
  of_le_bytes (le_bytes_n n v) = v mod 256 ^ Z.of_nat n.
Proof.
  revert v. induction n as [|n IH]; intros v.
  - cbn [le_bytes_n of_le_bytes]. change (256 ^ Z.of_nat 0) with 1.
    rewrite Z.mod_1_r. reflexivity.
  - cbn [le_bytes_n of_le_bytes]. rewrite IH.
    assert (Hb : 0 <= v mod 256 < 256) by (apply Z.mod_pos_bound; lia).
    rewrite N_ascii_embedding by lia.
    rewrite Z2N.id by lia.
    rewrite Nat2Z.inj_succ, Z.pow_succ_r by lia.
    rewrite Z.rem_mul_r by lia. reflexivity.
Qed.

Lemma be_bytes_inj v v' :
  int64 v -> int64 v' -> be_bytes v = be_bytes v' -> v = v'.
Proof.
  unfold int64, be_bytes, le_bytes. intros Hv Hv' E.
  apply (f_equal (@rev ascii)) in E. rewrite !rev_involutive in E.
  apply (f_equal of_le_bytes) in E. rewrite !of_le_bytes_le_bytes_n in E.
  change (256 ^ Z.of_nat 8) with 18446744073709551616 in E.
  change (2 ^ 63) with 9223372036854775808 in *.
  Z.div_mod_to_equations. lia.
Qed.

Lemma app_eq_same_length {A} (b b' a a' : list A) :
  List.length b = List.length b' -> a ++ b = a' ++ b' -> a = a' /\ b = b'.
Proof.
  intros Hl E.
  assert (Hla : List.length a = List.length a').
  { apply (f_equal (@List.length A)) in E. rewrite !length_app in E. lia. }
  clear Hl. revert a' Hla E.
  induction a as [|x a IH]; intros [|x' a'] Hla E; try discriminate.
  - split; [reflexivity | exact E].
  - cbn [app] in E. inversion E; subst.
    destruct (IH a') as [-> ->]; [cbn in Hla; lia | assumption | split; reflexivity].
Qed.

Lemma hashed_message_spec h e :
  hashed_message h e
  = Path_str (tarpath_ e) ++ be_bytes (st_size (fs_ e))
      ++ be_bytes (tv_sec (st_mtim (fs_ e)))
      ++ be_bytes (tv_nsec (st_mtim (fs_ e))).
Proof.
  unfold hashed_message, SHA256_Update, SHA256_Init.
  rewrite !object_bytes_fixEndian.
  rewrite !(firstn_exact (be_bytes _)) by (rewrite be_bytes_length; reflexivity).
  rewrite (firstn_exact (Path_str _))
    by (unfold c_str_len, zlen; rewrite Nat2Z.id; reflexivity).
  cbn [app]. rewrite <- !app_assoc. reflexivity.
Qed.

(** X18.  The fingerprint of an entry is the digest of a message from
    which the text of the tar path, the size and the modification time can
    be read back: two entries that differ in one of them give different
    messages to SHA-256, on whatever hosts, so that their fingerprints
    agree only if SHA-256 collides. *)
Theorem fingerprint_message_determines_the_fields (sha256 : chars -> chars)
    (h1 h2 : Endian) (e1 e2 : TarEntry) :
  int64 (st_size (fs_ e1)) -> int64 (st_size (fs_ e2)) ->
  int64 (tv_sec (st_mtim (fs_ e1))) -> int64 (tv_sec (st_mtim (fs_ e2))) ->
  int64 (tv_nsec (st_mtim (fs_ e1))) -> int64 (tv_nsec (st_mtim (fs_ e2))) ->
  hashed_message h1 e1 = hashed_message h2 e2 ->
  sha256_hash_ (calculateSHA256Hash sha256 h1 e1)
    = SHA256_Final sha256 (hashed_message h1 e1)
  /\ Path_str (tarpath_ e1) = Path_str (tarpath_ e2)
  /\ st_size (fs_ e1) = st_size (fs_ e2)
  /\ st_mtim (fs_ e1) = st_mtim (fs_ e2).
Proof.
  intros Hs1 Hs2 Ht1 Ht2 Hn1 Hn2 E. split; [reflexivity|].
  rewrite !hashed_message_spec in E.
  apply app_eq_same_length in E.
  2: { rewrite !length_app, !be_bytes_length. reflexivity. }
  destruct E as [Ep E]. split; [exact Ep|].
  rewrite !(app_assoc (be_bytes _)) in E.
  apply app_eq_same_length in E; [|rewrite !be_bytes_length; reflexivity].
  destruct E as [E En].
  apply app_eq_same_length in E; [|rewrite !be_bytes_length; reflexivity].
  destruct E as [Es Et].
  apply be_bytes_inj in Es; try assumption.
  apply be_bytes_inj in Et; try assumption.
  apply be_bytes_inj in En; try assumption.
  split; [exact Es|].
  destruct (st_mtim (fs_ e1)) as [a1 b1], (st_mtim (fs_ e2)) as [a2 b2].
  cbn [tv_sec tv_nsec] in *. congruence.
Qed.

Lemma fingerprint_message_determines_the_fields_witness :
  sha256_hash_ (calculateSHA256Hash sample_digest LittleEndian twin1_v)
    = SHA256_Final sample_digest (hashed_message LittleEndian twin1_v)
  /\ Path_str (tarpath_ twin1_v) = Path_str (tarpath_ twin2_v)
  /\ st_size (fs_ twin1_v) = st_size (fs_ twin2_v)
  /\ st_mtim (fs_ twin1_v) = st_mtim (fs_ twin2_v).
Proof.
  assert (E : hashed_message LittleEndian twin1_v = hashed_message BigEndian twin2_v)
    by (vm_compute; reflexivity).
  apply (fingerprint_message_determines_the_fields sample_digest
           LittleEndian BigEndian twin1_v twin2_v); try exact E;
    vm_compute; split; congruence.
Defined.

(** ** Timestamps before 1970 *)

Lemma atol_digits_clamped ds :
  all_digits ds -> ds <> [] -> LONG_MAX <= digits_value ds 0 ->
  atol ds = LONG_MAX.
Proof.
  intros Hall Hne Hv. unfold atol.
  destruct ds as [|c ds]; [congruence|].
  inversion Hall as [|? ? Hc Hds]; subst.
  cbn [skip_spaces]. rewrite (digit_not_space _ Hc).
  rewrite (digit_not_char c "-"%char Hc eq_refl).
  rewrite (digit_not_char c "+"%char Hc eq_refl).
  rewrite read_digits_all by exact Hall.
  unfold LONG_MIN, LONG_MAX in *. lia.
Qed.

Lemma print_ju_padded_wrap w n : print_ju_padded w n = print_ju_padded w (wrap n).
Proof.
  unfold print_ju_padded. rewrite (wrap_small (wrap n)) by apply wrap_range.
  reflexivity.
Qed.

(** X19.  The seconds of a timestamp are written as an unsigned number
    and read as a signed one: the text that the constructor writes for a
    time before 1970 is read back by eatEntry with LONG_MAX as its
    seconds, the nanoseconds unchanged; a time from 1970 on is read back
    as it is. *)
Theorem timestamp_text_read_back (t : timespec) (o : EatOut) :
  LONG_MIN <= tv_sec t <= LONG_MAX -> 0 <= tv_nsec t < 10 ^ 9 ->
  eat_secs_and_nanos (secs_and_nanos_string t) o
  = (Some (mk_timespec (if tv_sec t <? 0 then LONG_MAX else tv_sec t) (tv_nsec t)),
     with_flags o true false).
Proof.
  intros Hs Hn.
  assert (Hn' : 0 <= tv_nsec t < SIZE_MOD)
    by (assert (10 ^ 9 < SIZE_MOD) by reflexivity; lia).
  destruct (print_ju_padded_spec 9 (tv_nsec t) Hn') as (N1 & N2 & N3).
  pose proof (print_ju_padded_length 9 (tv_nsec t) 9 Hn ltac:(lia) ltac:(lia)) as N4.
  pose proof (wrap_range (tv_sec t)) as Hw.
  destruct (print_ju_padded_spec 12 (wrap (tv_sec t)) Hw) as (S1 & S2 & S3).
  assert (H20 : SIZE_MOD < 10 ^ 20) by reflexivity.
  pose proof (print_ju_padded_length 12 (wrap (tv_sec t)) 20
                ltac:(lia) ltac:(lia) ltac:(lia)) as S4.
  rewrite <- print_ju_padded_wrap in S1, S2, S3, S4.
  assert (Hfit : secs_and_nanos_string t
                 = print_ju_padded 12 (tv_sec t) ++ "."%char :: print_ju_padded 9 (tv_nsec t)).
  { unfold secs_and_nanos_string. apply firstn_all2.
    assert (zlen (print_ju_padded 12 (tv_sec t)
                  ++ "."%char :: print_ju_padded 9 (tv_nsec t)) <= 31)
      by (rewrite zlen_app, zlen_cons; lia).
    unfold zlen in *. lia. }
  rewrite Hfit.
  rewrite eat_secs_and_nanos_ok.
  2: { apply field_ok_digits; [reflexivity | assumption | lia]. }
  2: lia.
  2: assumption.
  f_equal. f_equal.
  rewrite (atol_digits (print_ju_padded 9 _)) by (try assumption; rewrite N3; unfold LONG_MAX; lia).
  rewrite N3. f_equal.
  unfold LONG_MIN, LONG_MAX in *.
  destruct (Z.ltb_spec (tv_sec t) 0) as [Hneg|Hpos].
  - apply atol_digits_clamped; try assumption.
    rewrite S3. unfold LONG_MAX, wrap, SIZE_MOD.
    change (2 ^ 64) with 18446744073709551616.
    change (2 ^ 63) with 9223372036854775808 in *.
    Z.div_mod_to_equations. lia.
  - rewrite atol_digits; try assumption.
    + rewrite S3. apply wrap_small. pose proof long_max_lt_size_mod.
      unfold LONG_MAX in *. lia.
    + rewrite S3, wrap_small; unfold LONG_MAX; [lia|].
      pose proof long_max_lt_size_mod. unfold LONG_MAX in *. lia.
Qed.

Lemma timestamp_text_read_back_witness :
  eat_secs_and_nanos (secs_and_nanos_string (mk_timespec (-1) 5)) out0
  = (Some (mk_timespec (if -1 <? 0 then LONG_MAX else -1) 5),
     with_flags out0 true false).
Proof.
  apply (timestamp_text_read_back (mk_timespec (-1) 5) out0).
  - vm_compute. split; congruence.
  - vm_compute. split; [congruence | reflexivity].
Defined.

(** ** One line of a listing *)

Lemma eat_loop_more c : forall v max s x i rest,
  eat_loop v c max = (s, x :: i) ->
  eat_loop (v ++ rest) c max = (s, x :: i ++ rest).
Proof.
  induction v as [|y v IH]; intros max s x i rest E; cbn [eat_loop app] in *.
  - discriminate.
  - destruct ((max <=? 0) || stops c y).
    + inversion E; subst. reflexivity.
    + destruct (eat_loop v c (max - 1)) as [s1 i1] eqn:E1.
      inversion E; subst. rewrite (IH _ _ _ _ rest E1). reflexivity.
Qed.

Lemma eatTo_more c v max s i eof rest :
  eatTo v (Some c) max = (s, i, eof, false) ->
  eatTo (v ++ rest) (Some c) max = (s, i ++ rest, at_end (i ++ rest), false).
Proof.
  unfold eatTo. destruct (eat_loop v (Some c) max) as [s1 i1] eqn:E.
  destruct i1 as [|x i1]; [intros H; inversion H|].
  rewrite (eat_loop_more _ _ _ _ _ _ rest E).
  destruct (Ascii.eqb x c); cbn [negb]; intros H; inversion H; subst. reflexivity.
Qed.

Lemma with_flags_same o : with_flags o (o_eof o) (o_err o) = o.
Proof. destruct o; reflexivity. Qed.

(** A field that is read without error and before the end of the input
    is read in the same way when more input follows. *)
Lemma eat_more c v max o s i o' rest :
  eat v (Some c) max o = (s, i, o') -> o_err o' || o_eof o' = false ->
  eat (v ++ rest) (Some c) max o = (s, i ++ rest, o').
Proof.
  unfold eat. destruct (eatTo v (Some c) max) as [[[s1 i1] eof] err] eqn:E.
  intros H F. inversion H; subst; clear H.
  cbn [o_err o_eof with_flags] in F. apply orb_false_iff in F. destruct F as [-> ->].
  rewrite (eatTo_more _ _ _ _ _ _ rest E).
  assert (Hi : at_end i = false).
  { revert E. unfold eatTo. destruct (eat_loop v (Some c) max) as [s2 i2].
    destruct i2 as [|x i2]; [intros H; inversion H|].
    destruct (Ascii.eqb x c); cbn [negb]; intros H; inversion H; subst. reflexivity. }
  destruct i as [|y i]; [discriminate|]. reflexivity.
Qed.

(** The last field of a line: the end of the input is accepted there. *)
Lemma eat_more_last c v max o s i o' rest :
  eat v (Some c) max o = (s, i, o') -> o_err o' = false ->
  eat (v ++ rest) (Some c) max o
  = (s, i ++ rest, with_flags o' (at_end (i ++ rest)) false).
Proof.
  unfold eat. destruct (eatTo v (Some c) max) as [[[s1 i1] eof] err] eqn:E.
  intros H F. inversion H; subst; clear H.
  cbn [o_err with_flags] in F. subst err.
  rewrite (eatTo_more _ _ _ _ _ _ rest E). reflexivity.
Qed.

Ltac more_step rest :=
  match goal with
  | |- context [eat ?i ?c ?m ?o] =>
      let E := fresh "E" in
      let F := fresh "F" in
      destruct (eat i c m o) as [[? ?] ?] eqn:E; cbv beta iota zeta;
      match goal with
      | |- context [if o_err ?o1 || o_eof ?o1 then _ else _] =>
          destruct (o_err o1 || o_eof o1) eqn:F;
          [discriminate
          | cbn [o_err o_eof with_link with_tar with_offset] in F;
            rewrite (eat_more _ _ _ _ _ _ _ rest E F); cbv beta iota zeta;
            cbn [o_err o_eof with_link with_tar with_offset]; rewrite F]
      end
  end.

Ltac more_time :=
  match goal with
  | |- context [eat_secs_and_nanos ?s ?o] =>
      destruct (eat_secs_and_nanos s o) as [[?|] ?]; cbv beta iota zeta;
      [|discriminate]
  end.

(** X20.  eatEntry reads one line: when it accepts an input and leaves
    the iterator at i', it accepts the same input followed by more text,
    stores the same values and leaves the iterator at i' followed by that
    text; only the end-of-input flag tells the two apart. *)
Theorem eatEntry_reads_one_line (C : CatalogApi) (i : chars) (dir : Path)
    (o : EatOut) (i' : chars) (o' : EatOut) (rest : chars) :
  eatEntry C i dir o = Some (true, i', o') ->
  eatEntry C (i ++ rest) dir o
  = Some (true, i' ++ rest, with_flags o' (at_end (i' ++ rest)) false).
Proof.
  unfold eatEntry. cbv zeta.
  more_step rest.
  match goal with |- context [if ?c then _ else _] => destruct c end;
    [discriminate|].
  more_step rest. more_step rest. more_step rest. more_step rest. more_time.
  more_step rest. more_time. more_step rest. more_time.
  more_step rest. more_step rest. more_step rest. more_step rest. more_step rest.
  match goal with
  | |- context [eat ?i ?c ?m ?o] =>
      destruct (eat i c m o) as [[hh ?] olast] eqn:Elast; cbv beta iota zeta;
      destruct hh as [|h0 hh]; [discriminate|];
      destruct (o_err olast) eqn:Flast; [discriminate|]
  end.
  rewrite (eat_more_last _ _ _ _ _ _ _ rest Elast Flast). cbv beta iota zeta.
  cbn [o_err with_flags].
  intros H; inversion H; subst. reflexivity.
Qed.

Lemma eatEntry_reads_one_line_witness :
  eatEntry catalog_model
    (cookEntry catalog_model [] plain_cat_v ++ cookEntry catalog_model [] hard_cat_v)
    (path_of "/mnt") out0
  = Some (true, [] ++ cookEntry catalog_model [] hard_cat_v,
          with_flags out_of_plain_line
            (at_end ([] ++ cookEntry catalog_model [] hard_cat_v)) false).
Proof.
  apply (eatEntry_reads_one_line catalog_model
           (cookEntry catalog_model [] plain_cat_v) (path_of "/mnt") out0 []
           out_of_plain_line).
  vm_compute. reflexivity.
Defined.

(** A field that is read without error ends at a separator. *)
Lemma eat_ok_inv c v max o s i o' :
  eat v (Some c) max o = (s, i, o') -> o_err o' = false ->
  v = s ++ c :: i /\ count_sep c s = 0%nat.
Proof.
  unfold eat. destruct (eatTo v (Some c) max) as [[[s1 i1] eof] err] eqn:E.
  intros H F. inversion H; subst; clear H.
  cbn [o_err with_flags] in F. subst err.
  destruct (eatTo_ok_inv _ _ _ _ _ _ E) as [-> Hn].
  split; [reflexivity | apply count_sep_not_in; exact Hn].
Qed.

Lemma count_sep_cons_same c i : count_sep c (c :: i) = S (count_sep c i).
Proof.
  unfold count_sep. cbn [count_occ].
  destruct (ascii_dec c c); [reflexivity | congruence].
Qed.

(** The text that has been consumed by fields read without error. *)
Lemma consumed_step c (pre s v i whole : chars) n :
  whole = pre ++ v -> count_sep c pre = n ->
  v = s ++ c :: i /\ count_sep c s = 0%nat ->
  whole = ((pre ++ s) ++ [c]) ++ i /\ count_sep c ((pre ++ s) ++ [c]) = S n.
Proof.
  intros -> Hp [-> Hs]. split.
  - rewrite <- !app_assoc. reflexivity.
  - rewrite !count_sep_app, Hs, Hp.
    change [c] with (c :: []). rewrite count_sep_cons_same.
    change (count_sep c []) with 0%nat. lia.
Qed.

Ltac consume_step :=
  match goal with
  | |- context [eat ?i ?c ?m ?o] =>
      let E := fresh "E" in
      let F := fresh "F" in
      destruct (eat i c m o) as [[? ?] ?] eqn:E; cbv beta iota zeta;
      match goal with
      | |- context [if o_err ?o1 || o_eof ?o1 then _ else _] =>
          destruct (o_err o1 || o_eof o1) eqn:F;
          [discriminate
          | apply orb_false_iff in F; destruct F as [F _];
            cbn [o_err with_link with_tar with_offset] in F;
            apply (eat_ok_inv _ _ _ _ _ _ _ E) in F; clear E]
      end
  end.

Ltac consumed_next :=
  match goal with
  | Hpre : ?whole = ?pre ++ ?v, Hcnt : count_sep ?c ?pre = ?n,
    F : ?v = ?s ++ ?c :: ?i /\ count_sep ?c ?s = 0%nat |- _ =>
      let A := fresh "A" in
      pose proof (consumed_step c pre s v i whole n Hpre Hcnt F) as A;
      clear Hpre Hcnt F; destruct A as [Hpre Hcnt]
  end.

(** X21.  What eatEntry consumes when it accepts a line: the input is
    the consumed text followed by what the iterator is left at, and the
    consumed text holds exactly thirteen separators, the last of them at
    its end. *)
Theorem eatEntry_consumes_thirteen_fields (C : CatalogApi) (i : chars)
    (dir : Path) (o : EatOut) (i' : chars) (o' : EatOut) :
  eatEntry C i dir o = Some (true, i', o') ->
  exists line,
    i = (line ++ [separator C]) ++ i'
    /\ count_sep (separator C) (line ++ [separator C]) = 13%nat.
Proof.
  assert (Hpre : i = [] ++ i) by reflexivity.
  assert (Hcnt : count_sep (separator C) [] = 0%nat) by reflexivity.
  revert Hpre Hcnt. generalize (@nil ascii) at 1 2.
  intros pre Hpre Hcnt.
  unfold eatEntry. cbv zeta.
  consume_step. consumed_next.
  match goal with |- context [if ?c then _ else _] => destruct c end;
    [discriminate|].
  consume_step. consumed_next. consume_step. consumed_next.
  consume_step. consumed_next. consume_step. consumed_next. more_time.
  consume_step. consumed_next. more_time.
  consume_step. consumed_next. more_time.
  consume_step. consumed_next. consume_step. consumed_next.
  consume_step. consumed_next. consume_step. consumed_next.
  consume_step. consumed_next.
  match goal with
  | |- context [eat ?i ?c ?m ?o] =>
      destruct (eat i c m o) as [[hh ?] olast] eqn:Elast; cbv beta iota zeta;
      destruct hh as [|h0 hh]; [discriminate|];
      destruct (o_err olast) eqn:Flast; [discriminate|]
  end.
  apply (eat_ok_inv _ _ _ _ _ _ _ Elast) in Flast. clear Elast.
  consumed_next.
  intros H; inversion H; subst; clear H.
  eexists. split; [reflexivity | exact Hcnt].
Qed.

Lemma eatEntry_consumes_thirteen_fields_witness :
  exists line,
    cookEntry catalog_model [] plain_cat_v = (line ++ [separator catalog_model]) ++ []
    /\ count_sep (separator catalog_model) (line ++ [separator catalog_model]) = 13%nat.
Proof.
  apply (eatEntry_consumes_thirteen_fields catalog_model
           (cookEntry catalog_model [] plain_cat_v) (path_of "/mnt") out0 []
           out_of_plain_line).
  vm_compute. reflexivity.
Defined.

(** ** Lines that do not start with a permission text *)

(** X22.  A line whose first field is not a permission text -- it
    decodes to the mode 0 -- is rejected right after that field: eatEntry
    returns false with the error flag set, the iterator behind the field,
    and the mode 0 stored in place of the mode that was there; nothing
    else is stored. *)
Theorem eatEntry_rejects_an_unknown_permission (C : CatalogApi) (dir : Path)
    (o : EatOut) (perm rest : chars) :
  field_ok (separator C) 32 perm ->
  stringToPermission C perm = 0 ->
  rest <> [] ->
  eatEntry C (perm ++ separator C :: rest) dir o
  = Some (false, rest,
          with_flags (with_fs o (set_st_mode (o_fs o) 0)) false true).
Proof.
  intros Hperm Hmode Hrest.
  destruct rest as [|x rest]; [congruence|].
  destruct o as [fs0 off0 tar0 path0 link0 sym0 eof0 err0].
  destruct fs0 as [m0 u0 g0 r0 s0 mt0 at0 ct0].
  unfold eatEntry. cbv zeta.
  rewrite eat_field by assumption.
  cbv beta iota zeta. norm_out. rewrite Hmode.
  cbn [at_end Z.eqb]. norm_out. reflexivity.
Qed.

Lemma eatEntry_rejects_an_unknown_permission_witness :
  eatEntry catalog_model (lit "?rw-r--r--" ++ separator catalog_model :: lit "1000/1000")
           (path_of "/mnt") out0
  = Some (false, lit "1000/1000",
          with_flags (with_fs out0 (set_st_mode (o_fs out0) 0)) false true).
Proof.
  apply (eatEntry_rejects_an_unknown_permission catalog_model (path_of "/mnt") out0
           (lit "?rw-r--r--") (lit "1000/1000")).
  - apply field_ok_check; reflexivity.
  - reflexivity.
  - discriminate.
Defined.

(** ** Hard links and the storage directory *)

Lemma commonPrefix_absolute_relative sd rest :
  absolute sd -> relative rest -> commonPrefix sd rest = None.
Proof.
  intros [sd' ->] Hr. unfold commonPrefix.
  destruct rest as [|r rest]; [reflexivity|].
  cbn [common_nodes]. cbn in Hr.
  unfold chars_eqb. destruct (list_eq_dec ascii_dec [] r) as [<-|]; [congruence | reflexivity].
Qed.

(** X23.  fixHardLink is to be called once: after it has cut the link
    of an entry down to the part below an absolute storage directory, a
    second call for the same directory finds no common prefix, leaves the
    entry as it is and returns false, which asks for the promotion of the
    link. *)
Theorem fixHardLink_twice_asks_for_promotion (T : TarHeaderApi) (e e1 : TarEntry)
    (storage_dir rest : Path) :
  storage_dir <> lookupRoot -> absolute storage_dir -> relative rest ->
  link_ e = Some (storage_dir ++ rest) ->
  fixHardLink T e storage_dir = Some (true, e1) ->
  link_ e1 = Some rest
  /\ fixHardLink T e1 storage_dir = Some (false, e1).
Proof.
  intros Hroot Habs Hrel Hl F.
  assert (Hne : storage_dir <> []) by (destruct Habs as [sd' ->]; discriminate).
  rewrite (fixHardLink_under_storage_dir T e storage_dir rest Hroot Hne Hl) in F.
  revert F.
  match goal with |- context [updateSizes T ?x] =>
    destruct (updateSizes T x) as [e'|] eqn:U; [|discriminate] end.
  intros F. inversion F; subst e'; clear F.
  destruct (updateSizes_frame _ _ _ U) as (Hl1 & _).
  cbn [set_link link_] in Hl1.
  split; [exact Hl1|].
  apply (fixHardLink_outside T e1 storage_dir rest Hroot Hl1).
  left. apply commonPrefix_absolute_relative; assumption.
Qed.

Lemma fixHardLink_twice_asks_for_promotion_witness :
  link_ hard_fixed_v = Some (path_of "c/d")
  /\ fixHardLink tar_model hard_fixed_v (path_of "/a/b") = Some (false, hard_fixed_v).
Proof.
  apply (fixHardLink_twice_asks_for_promotion tar_model hard_v hard_fixed_v
           (path_of "/a/b") (path_of "c/d")).
  - vm_compute. discriminate.
  - exists (path_of "a/b"). reflexivity.
  - vm_compute. discriminate.
  - reflexivity.
  - vm_compute. reflexivity.
Defined.

Lemma updateSizes_hard_linked_style T e e' :
  is_hard_linked_ e = true -> updateSizes T e = Some e' ->
  is_style_None (tar_header_style_ e) = false.
Proof.
  intros Hh. unfold updateSizes. rewrite Hh.
  destruct (is_style_None (tar_header_style_ e)); [|reflexivity].
  rewrite andb_false_r. cbn. discriminate.
Qed.

Lemma rewriteIntoHardLink_style T e target e' :
  rewriteIntoHardLink T e target = Some e' ->
  is_style_None (tar_header_style_ e') = false.
Proof.
  unfold rewriteIntoHardLink.
  destruct (updateSizes T _) as [e2|] eqn:U; try discriminate.
  destruct (assert (isHardLink e2)); try discriminate.
  intros H; inversion H; subst; clear H.
  destruct (updateSizes_frame _ _ _ U) as (_ & _ & _ & _ & ->).
  eapply updateSizes_hard_linked_style; [|exact U]. reflexivity.
Qed.

(** X24.  The link of a hard link names its target as the archive does.
    Let the storage directory be a path other than the root (and not the
    empty path), let the target lie below it, and let the tar path of the
    target still be its path (calculateTarpath has not been applied to the
    target yet) when the entry is rewritten into a hard link to it.  When
    fixHardLink is then called on the entry for that directory and
    returns, it returns true, the entry is still hard linked and its link
    is the tar path that calculateTarpath gives the target for the same
    directory.  The call does return -- the assertions of updateSizes
    pass -- when the header of the entry with the shorter link is
    computed as one block. *)
Theorem hard_link_names_the_tarpath_of_its_target (T : TarHeaderApi)
    (e target e1 : TarEntry) (storage_dir rest : Path) :
  storage_dir <> lookupRoot -> storage_dir <> [] ->
  path_ target = storage_dir ++ rest ->
  tarpath_ target = path_ target ->
  rewriteIntoHardLink T e target = Some e1 ->
  (forall b e2,
      fixHardLink T e1 storage_dir = Some (b, e2) ->
      b = true
      /\ link_ e2 = Some (tarpath_ (calculateTarpath target storage_dir))
      /\ is_hard_linked_ e2 = true)
  /\ (wrap (calculateSize T (fs_ e1) (tarpath_ e1) (Some rest) true) = T_BLOCKSIZE ->
      exists e2, fixHardLink T e1 storage_dir = Some (true, e2)).
Proof.
  intros Hroot Hne Hp Htp R.
  destruct (rewriteIntoHardLink_spec _ _ _ _ R) as (Hh1 & Hl1 & _).
  pose proof (rewriteIntoHardLink_style _ _ _ _ R) as Hs1.
  rewrite Htp, Hp in Hl1.
  rewrite (fixHardLink_under_storage_dir T e1 storage_dir rest Hroot Hne Hl1).
  split.
  - intros b e2.
    match goal with |- context [updateSizes T ?x] =>
      destruct (updateSizes T x) as [e'|] eqn:U; [|discriminate] end.
    intros F. inversion F; subst; clear F.
    destruct (updateSizes_frame _ _ _ U) as (Hl2 & Hh2 & _).
    cbn [set_link link_ is_hard_linked_] in Hl2, Hh2.
    split; [reflexivity|]. split.
    + rewrite Hl2. unfold calculateTarpath. cbn [set_tarpath tarpath_].
      rewrite Hp, subpath_app. reflexivity.
    + congruence.
  - intros Hc.
    match goal with |- context [updateSizes T ?x] =>
      rewrite (updateSizes_hard_linked_ok T x Hh1 Hs1 Hc) end.
    eexists. reflexivity.
Qed.

Lemma hard_link_names_the_tarpath_of_its_target_witness :
  (true = true
   /\ link_ hard_fixed_v = Some (tarpath_ (calculateTarpath target_v (path_of "/a/b")))
   /\ is_hard_linked_ hard_fixed_v = true)
  /\ (exists e2, fixHardLink tar_model hard_v (path_of "/a/b") = Some (true, e2)).
Proof.
  assert (Hroot : path_of "/a/b" <> lookupRoot) by (vm_compute; discriminate).
  assert (Hne : path_of "/a/b" <> []) by (vm_compute; discriminate).
  assert (R : rewriteIntoHardLink tar_model plain_v target_v = Some hard_v)
    by (vm_compute; reflexivity).
  destruct (hard_link_names_the_tarpath_of_its_target tar_model plain_v target_v
              hard_v (path_of "/a/b") (path_of "c/d") Hroot Hne eq_refl eq_refl R)
    as [Hlink Hret].
  split.
  - apply (Hlink true hard_fixed_v). vm_compute. reflexivity.
  - apply Hret. vm_compute. reflexivity.
Defined.
